(** * Alto: pipeline runtime, reservoir and catalog selection

    A shallow embedding of the parts of [alto/engine.py] and [alto/catalog.py]
    that drive the Singer pipeline runner, the data reservoir (ingest, emit,
    compaction) and catalog selection.  Python dicts whose iteration order is
    observable are association lists in insertion order; object-store and
    local files are explicit values threaded through the functions. *)

From Stdlib Require Import Bool ZArith List String Ascii Lia Permutation.
Import ListNotations.
Open Scope string_scope.
Open Scope list_scope.

(** ** Python helpers *)
Module Py.

(** [str.split(sep)] for a one-character separator. *)
Fixpoint split_on (c : ascii) (s : string) : list string :=
  match s with
  | EmptyString => [""]
  | String a r =>
      let rest := split_on c r in
      if Ascii.eqb a c then "" :: rest
      else match rest with
           | h :: t => String a h :: t
           | [] => [String a ""]
           end
  end.

(** [xs[-1]] and [xs[-2]]; [None] is Python's IndexError. *)
Definition last_item (xs : list string) : option string :=
  match rev xs with x :: _ => Some x | [] => None end.

Definition second_last_item (xs : list string) : option string :=
  match rev xs with _ :: x :: _ => Some x | _ => None end.

(** [path.split("/")[-1]]: [split] never returns an empty list. *)
Definition fname (p : string) : string :=
  match last_item (split_on "/" p) with Some x => x | None => "" end.

(** [path.split("/")[-2]] *)
Definition parent (p : string) : option string :=
  second_last_item (split_on "/" p).

(** [a > b] on str is [b <? a]; [max(a, b)] keeps [a] unless [b > a]. *)
Definition str_gt (a b : string) : bool := (b <? a)%string.
Definition str_max (a b : string) : string := if str_gt b a then b else a.

Fixpoint max_list (d : string) (xs : list string) : string :=
  match xs with [] => d | x :: r => max_list (str_max d x) r end.

(** [sorted(xs)] on strings (insertion sort, stable). *)
Fixpoint insert_sorted (x : string) (xs : list string) : list string :=
  match xs with
  | [] => [x]
  | y :: r => if (x <=? y)%string then x :: y :: r else y :: insert_sorted x r
  end.

Fixpoint sorted (xs : list string) : list string :=
  match xs with [] => [] | x :: r => insert_sorted x (sorted r) end.

(** Ordered dict with string keys. *)
Fixpoint lookup {A} (k : string) (d : list (string * A)) : option A :=
  match d with
  | [] => None
  | (k', v) :: r => if (k =? k')%string then Some v else lookup k r
  end.

(** [d[k] = v]: overwrite in place, or append a new key at the end. *)
Fixpoint set {A} (k : string) (v : A) (d : list (string * A)) : list (string * A) :=
  match d with
  | [] => [(k, v)]
  | (k', v') :: r => if (k =? k')%string then (k', v) :: r else (k', v') :: set k v r
  end.

Definition mem {A} (k : string) (d : list (string * A)) : bool :=
  match lookup k d with Some _ => true | None => false end.

(** [str.startswith] for a one-character prefix. *)
Definition starts_with (c : ascii) (s : string) : bool :=
  match s with String a _ => Ascii.eqb a c | EmptyString => false end.

End Py.

(** ** Pipeline runner ([run_pipeline]) *)
Module Pipeline.

(** The inputs of [run_pipeline] that decide the commands. *)
Record pipeline_paths := {
  tap_bin : string; tap_config : string; tap_catalog : string;
  target_bin : string; target_config : string; state : string;
  state_is_file : bool;
  supports_state : bool; supports_catalog : bool; supports_properties : bool
}.

Inductive pipeline_error :=
| CalledProcessError (returncode : Z) (cmd : list string).

(** [cmd] as assembled at the top of [run_pipeline]. *)
Definition tap_command (p : pipeline_paths) : list string :=
  [p.(tap_bin); "--config"; p.(tap_config)]
  ++ (if p.(state_is_file) && p.(supports_state) then ["--state"; p.(state)] else [])
  ++ (if p.(supports_catalog) then ["--catalog"; p.(tap_catalog)]
      else if p.(supports_properties) then ["--properties"; p.(tap_catalog)] else []).

(** The argv of the target subprocess. *)
Definition target_command (p : pipeline_paths) : list string :=
  [p.(target_bin); "--config"; p.(target_config)].

(** The exit handling after [tap_proc.wait()] and [target_proc.wait()]. *)
Definition run_pipeline (p : pipeline_paths) (tap_rc target_rc : Z)
  : pipeline_error + unit :=
  let cmd := tap_command p in
  if negb (Z.eqb tap_rc 0) then inl (CalledProcessError tap_rc cmd)
  else if negb (Z.eqb target_rc 0) then inl (CalledProcessError target_rc cmd)
  else inr tt.

End Pipeline.

(** ** Reservoir emitter ([reservoir_to_target]) *)
Module Emitter.
Import Py.

(** The emitter state document: [__version__] and, per stream in insertion
    order, the [emitted] bookmark. *)
Record emit_state := { version : Z; bookmarks : list (string * string) }.

(** The reservoir index: [__version__] and the stream path lists. *)
Record index := { iversion : Z; istreams : list (string * list string) }.

(** The object store as seen by [reservoir_emitter]: a path holds the lines of
    its gunzipped content; [None] is a missing object. *)
Definition store := string -> option (list string).

(** The version-reconciliation loop of one stream: over [sorted(paths)],
    [if fname > emitted: emitted = fname]. *)
Definition rebuild_bookmark (emitted : string) (paths : list string) : string :=
  fold_left (fun e p => if str_gt (fname p) e then fname p else e) (sorted paths) emitted.

(** [if stream_states[__version__] != reservoir[__version__]: ...] *)
Definition reconcile (st : emit_state) (ix : index) : emit_state :=
  if Z.eqb st.(version) ix.(iversion) then st
  else {| version := ix.(iversion);
          bookmarks :=
            fold_left
              (fun bm '(stream, paths) =>
                 match lookup stream bm with
                 | None => bm  (* skip stuff we never saw before *)
                 | Some e => set stream (rebuild_bookmark e paths) bm
                 end)
              ix.(istreams) st.(bookmarks) |}.

(** [paths_by_schema]: group the work queue by parent directory, keeping
    first-occurrence order of the groups and path order inside each. *)
Fixpoint add_to_group (k : string) (p : string) (g : list (string * list string))
  : list (string * list string) :=
  match g with
  | [] => [(k, [p])]
  | (k', ps) :: r => if (k =? k')%string then (k', ps ++ [p]) :: r
                     else (k', ps) :: add_to_group k p r
  end.

Fixpoint partition_by_schema (g : list (string * list string)) (work : list string)
  : option (list (string * list string)) :=
  match work with
  | [] => Some g
  | p :: r =>
      match parent p with
      | None => None
      | Some schema => partition_by_schema (add_to_group schema p g) r
      end
  end.

(** [reservoir_emitter] over a batch: the non-empty lines of each object, in
    the order [tpe.map] returns them. *)
Fixpoint emit_paths (s : store) (ps : list string) : option (list string) :=
  match ps with
  | [] => Some []
  | p :: r =>
      match s p, emit_paths s r with
      | Some ls, Some rest => Some (filter (fun l => negb (l =? "")%string) ls ++ rest)
      | _, _ => None
      end
  end.

(** One partition: write its lines, then
    [emitted = max(emitted, max(fname(p) for p in job_res))]. *)
Fixpoint emit_partitions (s : store) (em : string) (parts : list (string * list string))
  : option (list string * string) :=
  match parts with
  | [] => Some ([], em)
  | (_, ps) :: r =>
      match emit_paths s ps with
      | None => None
      | Some out =>
          let em' := str_max em (max_list (fname (hd "" ps)) (map fname (tl ps))) in
          match emit_partitions s em' r with
          | None => None
          | Some (out', em'') => Some (out ++ out', em'')
          end
      end
  end.

(** The emission loop over the index streams. *)
Fixpoint emit_streams (s : store) (bm : list (string * string))
  (streams : list (string * list string)) : option (list string * list (string * string)) :=
  match streams with
  | [] => Some ([], bm)
  | (stream, paths) :: r =>
      let bm1 := if mem stream bm then bm else set stream "" bm in
      let em := match lookup stream bm1 with Some e => e | None => "" end in
      let work := filter (fun p => str_gt (fname p) em) paths in
      match work with
      | [] => emit_streams s bm1 r
      | _ =>
          match partition_by_schema [] work with
          | None => None
          | Some parts =>
              match emit_partitions s em parts with
              | None => None
              | Some (out, em') =>
                  match emit_streams s (set stream em' bm1) r with
                  | None => None
                  | Some (out', bm') => Some (out ++ out', bm')
                  end
              end
          end
      end
  end.

(** [reservoir_to_target] once the index is loaded: reconcile the state with
    the index version, then emit.  Returns the lines written to the target's
    stdin and the final state document. *)
Definition reservoir_to_target (s : store) (st : emit_state) (ix : index)
  : option (list string * emit_state) :=
  let st1 := reconcile st ix in
  match emit_streams s st1.(bookmarks) ix.(istreams) with
  | None => None
  | Some (out, bm) => Some (out, {| version := st1.(version); bookmarks := bm |})
  end.

End Emitter.

(** ** [hashlib.md5(...).hexdigest()] *)
Module MD5.
Open Scope Z_scope.

Definition mask32 : Z := 0xffffffff.
Definition add32 (a b : Z) : Z := Z.land (a + b) mask32.
Definition not32 (a : Z) : Z := Z.lxor a mask32.
Definition rotl32 (x : Z) (c : Z) : Z :=
  Z.land (Z.lor (Z.shiftl x c) (Z.shiftr x (32 - c))) mask32.

Definition K : list Z :=
  [0xd76aa478; 0xe8c7b756; 0x242070db; 0xc1bdceee; 0xf57c0faf; 0x4787c62a;
   0xa8304613; 0xfd469501; 0x698098d8; 0x8b44f7af; 0xffff5bb1; 0x895cd7be;
   0x6b901122; 0xfd987193; 0xa679438e; 0x49b40821; 0xf61e2562; 0xc040b340;
   0x265e5a51; 0xe9b6c7aa; 0xd62f105d; 0x02441453; 0xd8a1e681; 0xe7d3fbc8;
   0x21e1cde6; 0xc33707d6; 0xf4d50d87; 0x455a14ed; 0xa9e3e905; 0xfcefa3f8;
   0x676f02d9; 0x8d2a4c8a; 0xfffa3942; 0x8771f681; 0x6d9d6122; 0xfde5380c;
   0xa4beea44; 0x4bdecfa9; 0xf6bb4b60; 0xbebfbc70; 0x289b7ec6; 0xeaa127fa;
   0xd4ef3085; 0x04881d05; 0xd9d4d039; 0xe6db99e5; 0x1fa27cf8; 0xc4ac5665;
   0xf4292244; 0x432aff97; 0xab9423a7; 0xfc93a039; 0x655b59c3; 0x8f0ccc92;
   0xffeff47d; 0x85845dd1; 0x6fa87e4f; 0xfe2ce6e0; 0xa3014314; 0x4e0811a1;
   0xf7537e82; 0xbd3af235; 0x2ad7d2bb; 0xeb86d391].

Definition shifts : list Z :=
  [7; 12; 17; 22; 7; 12; 17; 22; 7; 12; 17; 22; 7; 12; 17; 22;
   5; 9; 14; 20; 5; 9; 14; 20; 5; 9; 14; 20; 5; 9; 14; 20;
   4; 11; 16; 23; 4; 11; 16; 23; 4; 11; 16; 23; 4; 11; 16; 23;
   6; 10; 15; 21; 6; 10; 15; 21; 6; 10; 15; 21; 6; 10; 15; 21].

(** Bytes are [Z] in [0, 256). *)
Fixpoint le_bytes (n : nat) (x : Z) : list Z :=
  match n with O => [] | S n' => Z.land x 255 :: le_bytes n' (Z.shiftr x 8) end.

Fixpoint le_word (bs : list Z) : Z :=
  match bs with [] => 0 | b :: r => b + 256 * le_word r end.

(** Padding: [0x80], zeros up to 56 mod 64, then the bit length (64-bit LE). *)
Definition pad (msg : list Z) : list Z :=
  let len := Z.of_nat (List.length msg) in
  let zeros := Z.to_nat ((55 - len) mod 64) in
  (msg ++ [128] ++ repeat 0 zeros ++ le_bytes 8 (len * 8))%list.

Fixpoint words (n : nat) (bs : list Z) : list Z :=
  match n with
  | O => []
  | S n' => le_word (firstn 4 bs) :: words n' (skipn 4 bs)
  end.

Definition round_fg (i : nat) (b c d : Z) : Z * nat :=
  if (i <? 16)%nat then (Z.lor (Z.land b c) (Z.land (not32 b) d), i)
  else if (i <? 32)%nat then (Z.lor (Z.land d b) (Z.land (not32 d) c), (5 * i + 1) mod 16)%nat
  else if (i <? 48)%nat then (Z.lxor b (Z.lxor c d), (3 * i + 5) mod 16)%nat
  else (Z.lxor c (Z.lor b (not32 d)), (7 * i) mod 16)%nat.

Fixpoint rounds (i fuel : nat) (m : list Z) (st : Z * Z * Z * Z) : Z * Z * Z * Z :=
  match fuel with
  | O => st
  | S fuel' =>
      let '(a, b, c, d) := st in
      let '(f, g) := round_fg i b c d in
      let f' := add32 (add32 (add32 f a) (nth i K 0)) (nth g m 0) in
      rounds (S i) fuel' m (d, add32 b (rotl32 f' (nth i shifts 0)), b, c)
  end.

Definition chunk (st : Z * Z * Z * Z) (m : list Z) : Z * Z * Z * Z :=
  let '(a0, b0, c0, d0) := st in
  let '(a, b, c, d) := rounds 0 64 m st in
  (add32 a0 a, add32 b0 b, add32 c0 c, add32 d0 d).

Fixpoint chunks (n : nat) (st : Z * Z * Z * Z) (bs : list Z) : Z * Z * Z * Z :=
  match n with
  | O => st
  | S n' => chunks n' (chunk st (words 16 (firstn 64 bs))) (skipn 64 bs)
  end.

Definition digest (msg : list Z) : list Z :=
  let p := pad msg in
  let '(a, b, c, d) :=
    chunks (List.length p / 64) (0x67452301, 0xefcdab89, 0x98badcfe, 0x10325476) p in
  (le_bytes 4 a ++ le_bytes 4 b ++ le_bytes 4 c ++ le_bytes 4 d)%list.

Definition hex_char (n : Z) : ascii :=
  if n <? 10 then ascii_of_nat (Z.to_nat (48 + n)) else ascii_of_nat (Z.to_nat (87 + n)).

Fixpoint hex (bs : list Z) : string :=
  match bs with
  | [] => EmptyString
  | b :: r => String (hex_char (Z.shiftr b 4)) (String (hex_char (Z.land b 15)) (hex r))
  end.

(** [s.encode("utf-8")] for strings of code points below 256. *)
Fixpoint utf8 (s : string) : list Z :=
  match s with
  | EmptyString => []
  | String c r =>
      let n := Z.of_nat (nat_of_ascii c) in
      ((if n <? 128 then [n]
       else [Z.lor 192 (Z.shiftr n 6); Z.lor 128 (Z.land n 63)]) ++ utf8 r)%list
  end.

Definition md5_hexdigest (s : string) : string := hex (digest (utf8 s)).

End MD5.

(** ** Reservoir ingestor ([reservoir_ingestor]) *)
Module Ingest.
Import Py.

(** A decoded Singer message.  Only the fields the ingestor reads are kept:
    [stream], and for SCHEMA the canonical ([sort_keys=True]) dump of its
    [schema] field. *)
Inductive message :=
| MState (value : string)
| MSchema (stream : string) (schema : string)
| MRecord (stream : string) (record : string)
| MOther (type_ : string) (stream : string).

(** An [AltoStreamMap] as the ingestor calls it. *)
Record mapper := {
  transform_schema : message -> message;
  transform_record : message -> message
}.

(** [message["schema"]] *)
Definition schema_field (m : message) : option string :=
  match m with MSchema _ s => Some s | _ => None end.

(** [md5(json.dumps(schema, sort_keys=True)).hexdigest()[:15]] *)
Definition schema_id (schema : string) : string :=
  substring 0 15 (MD5.md5_hexdigest schema).

(** A [record_buffer[stream][schema_id]] slot; [records] are the lines
    written into the gzip buffer, header first. *)
Record container := { count : nat; header : string; records : list string }.

Definition new_container (line : string) : container :=
  {| count := 0; header := line; records := [line] |}.

(** [filesystem._remote_path(fname, key)] = ["/".join([key, fname]).lstrip("/")]. *)
Fixpoint lstrip_slash (s : string) : string :=
  match s with
  | String c r => if Ascii.eqb c "/" then lstrip_slash r else s
  | EmptyString => EmptyString
  end.

Definition remote_path (fname key : string) : string :=
  lstrip_slash (key ++ "/" ++ fname)%string.

(** The ingestor's mutable state.  [stream_states] is kept as the sequence of
    STATE values merged into it (the deep-merged dict is the fold of
    [utils.merge] over it); [state_file] is the last content written to the
    local state path; [objects] are the object-store uploads ([fs.pipe]);
    [flushes] counts the timestamps taken so far. *)
Record ingest_state := {
  record_buffer : list (string * list (string * container));
  active_schemas : list (string * string);
  reservoir : list (string * list string);
  objects : list (string * list string);
  stream_states : list string;
  state_file : option (list string);
  flushes : nat
}.

Inductive ingest_error :=
| KeyError (key : string)
| UnboundLocalError (name : string).

Section Loop.
(** [json.loads(line.decode("utf-8"))]; [None] is a JSONDecodeError. *)
Variable json_loads : string -> option message.
(** [datetime.utcnow().strftime("%Y%m%d%H%M%S%f")] at the n-th flush. *)
Variable utc_ts : nat -> string.
(** [base_path], with [record_key = base_path + "/{stream}/{schema_id}"]. *)
Variable base_path : string.
Variable buffer_size : nat.
Variable mappers : list mapper.

Definition flush_path (st : ingest_state) (stream sid : string) : string :=
  remote_path (utc_ts st.(flushes) ++ ".singer.gz")
              (base_path ++ "/" ++ stream ++ "/" ++ sid)%string.

(** [reservoir[stream].append(path)] (creating the list if needed). *)
Definition index_append (ix : list (string * list string)) (stream path : string) :=
  match lookup stream ix with
  | Some ps => set stream (ps ++ [path]) ix
  | None => set stream [path] ix
  end.

(** One iteration of [for line in stdout]; [prev] is the value the Python
    variable [message] holds from the previous iteration. *)
Definition step (st : ingest_state) (prev : option message) (line : string)
  : ingest_error + (ingest_state * option message) :=
  let message := match json_loads line with Some m => Some m | None => prev end in
  match message with
  | None => inl (UnboundLocalError "message")
  | Some (MState v) =>
      let ss := st.(stream_states) ++ [v] in
      inr ({| record_buffer := st.(record_buffer); active_schemas := st.(active_schemas);
              reservoir := st.(reservoir); objects := st.(objects);
              stream_states := ss; state_file := Some ss; flushes := st.(flushes) |},
           message)
  | Some (MSchema stream _ as m) =>
      let m' := fold_left (fun m mp => mp.(transform_schema) m) mappers m in
      match schema_field m' with
      | None => inl (KeyError "schema")
      | Some sch =>
          let sid := schema_id sch in
          let rb := st.(record_buffer) in
          let rb' :=
            match lookup stream rb with
            | Some schemas => if mem sid schemas then rb
                              else set stream [(sid, new_container line)] rb
            | None => set stream [(sid, new_container line)] rb
            end in
          inr ({| record_buffer := rb';
                  active_schemas := set stream sid st.(active_schemas);
                  reservoir := st.(reservoir); objects := st.(objects);
                  stream_states := st.(stream_states); state_file := st.(state_file);
                  flushes := st.(flushes) |}, Some m')
      end
  | Some (MRecord stream _ as m) =>
      let m' := fold_left (fun m mp => mp.(transform_record) m) mappers m in
      match lookup stream st.(record_buffer) with
      | None => inl (KeyError stream)
      | Some schemas =>
          match lookup stream st.(active_schemas) with
          | None => inl (KeyError stream)
          | Some sid =>
              match lookup sid schemas with
              | None => inl (KeyError sid)
              | Some c =>
                  let c1 := {| count := S c.(count); header := c.(header);
                               records := c.(records) ++ [line] |} in
                  if (buffer_size <=? c1.(count))%nat then
                    (* buffer is full: upload, reset, update the index *)
                    let path := flush_path st stream sid in
                    let c2 := {| count := 0; header := c.(header); records := [c.(header)] |} in
                    inr ({| record_buffer := set stream (set sid c2 schemas) st.(record_buffer);
                            active_schemas := st.(active_schemas);
                            reservoir := index_append st.(reservoir) stream path;
                            objects := set path c1.(records) st.(objects);
                            stream_states := st.(stream_states);
                            state_file := Some st.(stream_states);
                            flushes := S st.(flushes) |}, Some m')
                  else
                    inr ({| record_buffer := set stream (set sid c1 schemas) st.(record_buffer);
                            active_schemas := st.(active_schemas);
                            reservoir := st.(reservoir); objects := st.(objects);
                            stream_states := st.(stream_states); state_file := st.(state_file);
                            flushes := st.(flushes) |}, Some m')
              end
          end
      end
  | Some (MOther _ _ as m) => inr (st, Some m)
  end.

(** An exception carries the state at the point it was raised: every
    raising lookup precedes the mutations of its iteration. *)
Fixpoint loop (st : ingest_state) (prev : option message) (lines : list string)
  : (ingest_error * ingest_state) + ingest_state :=
  match lines with
  | [] => inr st
  | l :: r =>
      match step st prev l with
      | inl e => inl (e, st)
      | inr (st', m) => loop st' m r
      end
  end.

(** "Flush the remaining records": every non-empty container, at a path
    keyed by [active_schemas[stream]]. *)
Fixpoint flush_schemas (st : ingest_state) (stream : string)
  (schemas : list (string * container)) : (ingest_error * ingest_state) + ingest_state :=
  match schemas with
  | [] => inr st
  | (_, c) :: r =>
      if (c.(count) =? 0)%nat then flush_schemas st stream r
      else
        match lookup stream st.(active_schemas) with
        | None => inl (KeyError stream, st)
        | Some asid =>
            let path := flush_path st stream asid in
            flush_schemas
              {| record_buffer := st.(record_buffer); active_schemas := st.(active_schemas);
                 reservoir := index_append st.(reservoir) stream path;
                 objects := set path c.(records) st.(objects);
                 stream_states := st.(stream_states); state_file := st.(state_file);
                 flushes := S st.(flushes) |} stream r
        end
  end.

Fixpoint flush_streams (st : ingest_state) (rb : list (string * list (string * container)))
  : (ingest_error * ingest_state) + ingest_state :=
  match rb with
  | [] => inr st
  | (stream, schemas) :: r =>
      match flush_schemas st stream schemas with
      | inl e => inl e
      | inr st' => flush_streams st' r
      end
  end.

(** [reservoir_ingestor]: the loop, the final flush, the final state write. *)
Definition reservoir_ingestor (lines : list string) (ix : list (string * list string))
  (objs : list (string * list string)) (states : list string) (sf : option (list string))
  : (ingest_error * ingest_state) + ingest_state :=
  let st0 := {| record_buffer := []; active_schemas := []; reservoir := ix;
                objects := objs; stream_states := states; state_file := sf;
                flushes := 0 |} in
  match loop st0 None lines with
  | inl e => inl e
  | inr st =>
      match flush_streams st st.(record_buffer) with
      | inl e => inl e
      | inr st' =>
          inr {| record_buffer := st'.(record_buffer);
                 active_schemas := st'.(active_schemas);
                 reservoir := st'.(reservoir); objects := st'.(objects);
                 stream_states := st'.(stream_states);
                 state_file := Some st'.(stream_states); flushes := st'.(flushes) |}
      end
  end.

End Loop.
End Ingest.

(** ** Reservoir storage, lock and compaction ([tap_to_reservoir], [compact_reservoir]) *)
Module Reservoir.
Import Py.
Open Scope Z_scope.

(** An object: its byte size ([fs.size]) and the lines of its gunzipped
    content (concatenated gzip members decompress to the concatenation). *)
Record obj := { osize : Z; olines : list string }.

(** The decoded [_reservoir.json]: [__version__] when present, and the
    stream path lists in key order. *)
Record index_doc := { iversion : option Z; istreams : list (string * list string) }.

(** The reservoir prefix of the object store. *)
Record store := {
  lock : option string;          (* [_reservoir.lock] and its content *)
  index : option index_doc;      (* [_reservoir.json] *)
  objects : list (string * obj)  (* the [.singer.gz] batches *)
}.

Definition with_lock (s : store) (l : option string) : store :=
  {| lock := l; index := s.(index); objects := s.(objects) |}.
Definition with_index (s : store) (i : option index_doc) : store :=
  {| lock := s.(lock); index := i; objects := s.(objects) |}.
Definition with_objects (s : store) (o : list (string * obj)) : store :=
  {| lock := s.(lock); index := s.(index); objects := o |}.

(** [RuntimeError(f"Lock file {lock_path} exists, aborting")] and the
    exceptions that escape an operation. *)
Inductive op_error := LockExists | IngestFailed (e : Ingest.ingest_error).

(** [2.5e7]: the compaction threshold in bytes. *)
Definition threshold : Z := 25000000.

Fixpoint remove_key (k : string) (d : list (string * obj)) : list (string * obj) :=
  match d with
  | [] => []
  | (k', v) :: r => if (k =? k')%string then r else (k', v) :: remove_key k r
  end.

(** [fs.cat(targets)] in order; [None] is a FileNotFoundError. *)
Fixpoint cat_many (s : store) (ps : list string) : option (list obj) :=
  match ps with
  | [] => Some []
  | p :: r =>
      match lookup p s.(objects), cat_many s r with
      | Some o, Some os => Some (o :: os)
      | _, _ => None
      end
  end.

(** [fs.pipe(targets[-1], reduce(+, cat(targets).values())); fs.rm(targets[:-1])]
    with [targets = sorted(merge_queue)]. *)
Definition merge (s : store) (merge_queue : list string) : option store :=
  let targets := Py.sorted merge_queue in
  match cat_many s targets with
  | None => None
  | Some os =>
      let merged := {| osize := fold_left (fun a o => a + o.(osize)) os 0;
                       olines := flat_map olines os |} in
      let last := last targets "" in
      let objs := set last merged s.(objects) in
      Some (with_objects s (fold_left (fun d p => remove_key p d) (removelast targets) objs))
  end.

(** The outcome of the merge phase: it finishes with the [changed] flag, or
    raises (and the [except Exception] sets [changed = True]). *)
Inductive phase := Finished (s : store) (changed : bool) | Raised (s : store).

(** The [while compactable] loop over the popped entries ([pending] is
    [compactable] reversed, since [pop()] takes the last one), then the
    tail merge. *)
Fixpoint drain (s : store) (changed : bool) (queue : list string) (qbytes : Z)
  (pending : list (string * Z)) : phase :=
  match pending with
  | [] =>
      match queue with
      | [] => Finished s changed
      | _ => match merge s queue with
             | Some s' => Finished s' true
             | None => Raised s
             end
      end
  | (p, sz) :: r =>
      let q := queue ++ [p] in
      let qb := qbytes + sz in
      if threshold <? qb then
        match merge s q with
        | Some s' => drain s' true [] 0 r
        | None => Raised s
        end
      else drain s changed q qb r
  end.

(** One schema partition. *)
Definition compact_partition (s : store) (changed : bool) (paths_with_size : list (string * Z))
  : phase :=
  let compactable := filter (fun '(_, sz) => sz <? threshold) paths_with_size in
  if (List.length compactable <? 2)%nat then Finished s changed
  else drain s changed [] 0 (rev compactable).

Fixpoint compact_partitions (s : store) (changed : bool)
  (parts : list (string * list (string * Z))) : phase :=
  match parts with
  | [] => Finished s changed
  | (_, pws) :: r =>
      match compact_partition s changed pws with
      | Finished s' c => compact_partitions s' c r
      | Raised s' => Raised s'
      end
  end.

(** [paths_by_schema[schema].append((path, fs.size(path)))]; [None] is the
    IndexError of [split("/")[-2]] or the FileNotFoundError of [size]. *)
Fixpoint add_sized (s : store) (g : list (string * list (string * Z))) (paths : list string)
  : option (list (string * list (string * Z))) :=
  match paths with
  | [] => Some g
  | p :: r =>
      match parent p, lookup p s.(objects) with
      | Some schema, Some o =>
          let g' := match lookup schema g with
                    | Some l => set schema (l ++ [(p, o.(osize))]) g
                    | None => set schema [(p, o.(osize))] g
                    end in
          add_sized s g' r
      | _, _ => None
      end
  end.

Fixpoint compact_streams (s : store) (changed : bool) (streams : list (string * list string))
  : phase :=
  match streams with
  | [] => Finished s changed
  | (_, paths) :: r =>
      if negb (1 <? List.length paths)%nat then compact_streams s changed r
      else match add_sized s [] paths with
           | None => Raised s
           | Some parts =>
               match compact_partitions s changed parts with
               | Finished s' c => compact_streams s' c r
               | Raised s' => Raised s'
               end
           end
  end.

(** [s.endswith(x)] *)
Definition ends_with (x s : string) : bool :=
  (String.length x <=? String.length s)%nat
  && (substring (String.length s - String.length x) (String.length x) s =? x)%string.

(** [sorted(fs.glob(_remote_path("**.singer.gz", key=f"{base_path}/{stream}")))]:
    every object under [base_path/stream/] whose name ends in [.singer.gz]. *)
Definition glob_stream (base_path stream : string) (s : store) : list string :=
  Py.sorted (filter (fun p => String.prefix (base_path ++ "/" ++ stream ++ "/")%string p
                              && ends_with ".singer.gz" p)
                    (map fst s.(objects))).

(** [compact_reservoir]: lock, load the index, merge, rebuild the index when
    anything changed, drop the lock in the [finally].  The index-rebuild
    phase ([glob], [pipe] of the index) is taken to succeed. *)
Definition compact_reservoir (base_path : string) (s : store) : op_error + store :=
  match s.(lock) with
  | Some _ => inl LockExists
  | None =>
      let s1 := with_lock s (Some "compaction in progress") in
      match s1.(index) with
      | None => inr s1  (* "Reservoir index not found, skipping compaction": return *)
      | Some ix =>
          let '(s2, changed) :=
            match compact_streams s1 false ix.(istreams) with
            | Finished s' c => (s', c)
            | Raised s' => (s', true)
            end in
          let s3 :=
            if changed then
              with_index s2
                (Some {| iversion := Some (match ix.(iversion) with Some v => v | None => 0 end + 1);
                         istreams := map (fun '(k, _) => (k, glob_stream base_path k s2))
                                         ix.(istreams) |})
            else s2 in
          inr (with_lock s3 None)
      end
  end.

Section TapToReservoir.
Variable json_loads : string -> option Ingest.message.
Variable utc_ts : nat -> string.
Variable buffer_size : nat.
Variable mappers : list Ingest.mapper.
(** The byte size of an uploaded gzip batch. *)
Variable gzip_size : list string -> Z.

Definition upload (objs : list (string * obj)) (ups : list (string * list string)) :=
  fold_left (fun d '(p, ls) => set p {| osize := gzip_size ls; olines := ls |} d) ups objs.

(** [tap_to_reservoir] after the tap command is assembled: load the index,
    take the lock (writing [pipeline_id]), run the ingestor over the tap's
    stdout lines, and in the [finally] upload the index and delete the lock. *)
Definition tap_to_reservoir (base_path pipeline_id : string) (lines : list string)
  (states : list string) (s : store) : (op_error + unit) * store :=
  let loaded := match s.(index) with
                | Some d => d
                | None => {| iversion := None; istreams := [] |}
                end in
  match s.(lock) with
  | Some _ => (inl LockExists, s)
  | None =>
      let s1 := with_lock s (Some pipeline_id) in
      let '(res, st) :=
        match Ingest.reservoir_ingestor json_loads utc_ts base_path buffer_size mappers
                lines loaded.(istreams) [] states None with
        | inl (e, st) => (inl (IngestFailed e), st)
        | inr st => (inr tt, st)
        end in
      let s2 := with_objects s1 (upload s1.(objects) st.(Ingest.objects)) in
      let s3 := with_index s2 (Some {| iversion := loaded.(iversion);
                                       istreams := st.(Ingest.reservoir) |}) in
      (res, with_lock s3 None)
  end.
End TapToReservoir.

End Reservoir.

(** ** [fnmatch.fnmatch] (POSIX: [normcase] is the identity) *)
Module Glob.

(** The pieces of [fnmatch.translate]: [*], [?], [[seq]] / [[!seq]] and
    literal characters. *)
Inductive tok :=
| Star
| AnyChar
| Lit (c : ascii)
| Class (negated : bool) (items : list (ascii * ascii)).

(** The items of a class: [a-z] ranges, other characters alone. *)
Fixpoint class_items (cs : list ascii) : list (ascii * ascii) :=
  match cs with
  | x :: "-"%char :: y :: r => (x, y) :: class_items r
  | x :: r => (x, x) :: class_items r
  | [] => []
  end.

(** Split at the first [']'] *)
Fixpoint split_bracket (cs : list ascii) : option (list ascii * list ascii) :=
  match cs with
  | [] => None
  | c :: r =>
      if Ascii.eqb c "]" then Some ([], r)
      else match split_bracket r with
           | Some (a, b) => Some (c :: a, b)
           | None => None
           end
  end.

(** After a ['[']: a leading ['!'] then a leading [']'] belong to the class;
    without a closing [']'] the ['['] is literal. *)
Definition class_body (cs : list ascii) : option (list ascii * list ascii) :=
  let '(pre, r1) := match cs with "!"%char :: r => (["!"%char], r) | _ => ([], cs) end in
  let '(pre2, r2) := match r1 with "]"%char :: r => ((pre ++ ["]"%char])%list, r) | _ => (pre, r1) end in
  match split_bracket r2 with
  | Some (a, b) => Some ((pre2 ++ a)%list, b)
  | None => None
  end.

Definition class_tok (stuff : list ascii) : tok :=
  match stuff with
  | [] => Class false []            (* '(?!)': never matches *)
  | ["!"%char] => AnyChar           (* negated empty class: any character *)
  | "!"%char :: r => Class true (class_items r)
  | _ => Class false (class_items stuff)
  end.

Fixpoint parse (fuel : nat) (cs : list ascii) : list tok :=
  match fuel with
  | O => []
  | S fuel' =>
      match cs with
      | [] => []
      | "*"%char :: r => Star :: parse fuel' r
      | "?"%char :: r => AnyChar :: parse fuel' r
      | "["%char :: r =>
          match class_body r with
          | Some (stuff, rest) => class_tok stuff :: parse fuel' rest
          | None => Lit "[" :: parse fuel' r
          end
      | c :: r => Lit c :: parse fuel' r
      end
  end.

Definition in_items (c : ascii) (items : list (ascii * ascii)) : bool :=
  existsb (fun '(lo, hi) => (nat_of_ascii lo <=? nat_of_ascii c)%nat
                            && (nat_of_ascii c <=? nat_of_ascii hi)%nat) items.

(** Full match of the translated regex ([(?s:...)\Z]). *)
Fixpoint match_toks (ts : list tok) (s : list ascii) : bool :=
  match ts with
  | [] => match s with [] => true | _ => false end
  | Star :: r =>
      (fix go (s : list ascii) : bool :=
         match_toks r s || match s with [] => false | _ :: s' => go s' end) s
  | AnyChar :: r => match s with [] => false | _ :: s' => match_toks r s' end
  | Lit c :: r => match s with [] => false | c' :: s' => Ascii.eqb c c' && match_toks r s' end
  | Class neg items :: r =>
      match s with
      | [] => false
      | c' :: s' => xorb neg (in_items c' items) && match_toks r s'
      end
  end.

Definition fnmatch (name pat : string) : bool :=
  let p := list_ascii_of_string pat in
  match_toks (parse (List.length p) p) (list_ascii_of_string name).

End Glob.

(** ** Catalog selection ([catalog.apply_selected]) *)
Module Catalog.
Import Py.

(** A [SingerCatalogStreamMetadata] after [__post_init__]: the keys of its
    [metadata] dict that selection reads.  [selected = None] is an absent
    key (only the root's can be, after [pop("selected")]). *)
Record md_entry := {
  breadcrumb : list string;
  selected : option bool;
  selected_by_default : bool;
  inclusion : option string
}.

Record cstream := {
  tap_stream_id : string;
  metadata : list md_entry;
  stream_selected : bool
}.

Inductive strategy := PRUNE | DESELECT.

Definition set_selected (e : md_entry) (v : option bool) : md_entry :=
  {| breadcrumb := e.(breadcrumb); selected := v;
     selected_by_default := e.(selected_by_default); inclusion := e.(inclusion) |}.

Definition is_root (e : md_entry) : bool :=
  match e.(breadcrumb) with [] => true | _ => false end.

(** [selection.split(".", 1)]: the head, and the tail when there is a dot. *)
Fixpoint split_first_dot (s : string) : string * option string :=
  match s with
  | EmptyString => (EmptyString, None)
  | String c r =>
      if Ascii.eqb c "." then (EmptyString, Some r)
      else let '(a, b) := split_first_dot r in (String c a, b)
  end.

(** [str.lstrip("!")] *)
Fixpoint lstrip_bang (s : string) : string :=
  match s with
  | String c r => if Ascii.eqb c "!" then lstrip_bang r else s
  | EmptyString => EmptyString
  end.

(** A pattern: stream glob, breadcrumb glob, inverted. *)
Definition pattern := (string * string * bool)%type.

Definition parse_selection (selection : string) : pattern :=
  let '(stream, rest) := split_first_dot selection in
  (lstrip_bang stream, match rest with Some b => b | None => "*" end,
   starts_with "!" stream).

(** The selection list after the two implicit-[*.*] rules, as patterns. *)
Definition patterns_of (selections : list string) : list pattern :=
  let s1 := match selections with [] => ["*.*"] | _ => selections end in
  let s2 := if forallb (starts_with "!") s1 then "*.*" :: s1 else s1 in
  let ps := map parse_selection s2 in
  if forallb (fun '(_, _, inv) => inv) ps then ("*", "*", false) :: ps else ps.

(** [".".join(attribute.get("breadcrumb", ["properties"])[1:])] *)
Definition crumb (e : md_entry) : string := String.concat "." (tl e.(breadcrumb)).

(** Pass-1 root handling: pop [selected] of the first root entry, or append
    a fresh root ([{"inclusion": "available", "selected": False}]). *)
Fixpoint pop_first_root (md : list md_entry) : option (list md_entry) :=
  match md with
  | [] => None
  | e :: r =>
      if is_root e then Some (set_selected e None :: r)
      else match pop_first_root r with
           | Some r' => Some (e :: r')
           | None => None
           end
  end.

Definition fresh_root : md_entry :=
  {| breadcrumb := []; selected := Some false; selected_by_default := false;
     inclusion := Some "available" |}.

Definition normalize_root (md : list md_entry) : list md_entry :=
  match pop_first_root md with
  | Some md' => md'
  | None => md ++ [fresh_root]
  end.

Definition apply_pattern (id : string) (md : list md_entry) (p : pattern) : list md_entry :=
  let '(sg, bg, inv) := p in
  if Glob.fnmatch id sg then
    map (fun e => if Glob.fnmatch (crumb e) bg then set_selected e (Some (negb inv)) else e) md
  else md.

Definition pass1 (ps : list pattern) (s : cstream) : cstream :=
  {| tap_stream_id := s.(tap_stream_id);
     metadata := fold_left (apply_pattern s.(tap_stream_id)) ps (normalize_root s.(metadata));
     stream_selected := s.(stream_selected) |}.

(** [_select_attribute]: the propagation flag and the updated entry. *)
Definition select_attribute (e : md_entry) : bool * md_entry :=
  let automatic := match e.(inclusion) with Some i => (i =? "automatic")%string | None => false end in
  match e.(selected) with
  | Some true => (true, e)
  | None =>
      if e.(selected_by_default) then (true, set_selected e (Some true))
      else if automatic then (false, set_selected e (Some true)) else (false, e)
  | Some false => if automatic then (false, set_selected e (Some true)) else (false, e)
  end.

(** [any(_select_attribute(attr) for attr in stream.metadata)], short-circuiting. *)
Fixpoint select_any (md : list md_entry) : bool * list md_entry :=
  match md with
  | [] => (false, [])
  | e :: r =>
      let '(b, e') := select_attribute e in
      if b then (true, e' :: r)
      else let '(b', r') := select_any r in (b', e' :: r')
  end.

(** [stream.metadata[next(first root index, 0)].metadata["selected"] = True] *)
Fixpoint select_first_root (md : list md_entry) : list md_entry :=
  match md with
  | [] => []
  | e :: r => if is_root e then set_selected e (Some true) :: r
              else e :: select_first_root r
  end.

Definition select_root (md : list md_entry) : list md_entry :=
  if existsb is_root md then select_first_root md
  else match md with [] => [] | e :: r => set_selected e (Some true) :: r end.

(** The per-entry loop: ambiguous entries become selected; deselected ones
    are removed (PRUNE) or flagged [False] (DESELECT).  Removing the collected
    indices in reverse order is filtering them out. *)
Definition settle_entries (strat : strategy) (md : list md_entry) : list md_entry :=
  let md' := map (fun e => match e.(selected) with
                           | None => set_selected e (Some true)
                           | _ => e
                           end) md in
  match strat with
  | PRUNE => filter (fun e => match e.(selected) with Some false => false | _ => true end) md'
  | DESELECT => md'
  end.

(** Pass-2 for one stream: [None] marks it for removal. *)
Definition pass2 (strat : strategy) (s : cstream) : bool * cstream :=
  let '(prop, md) := select_any s.(metadata) in
  if prop then
    (true, {| tap_stream_id := s.(tap_stream_id);
              metadata := settle_entries strat (select_root md);
              stream_selected := true |})
  else (false, {| tap_stream_id := s.(tap_stream_id); metadata := md;
                  stream_selected := s.(stream_selected) |}).

Definition apply_selected (catalog : list cstream) (selections : list string)
  (strat : strategy) : list cstream :=
  let ps := patterns_of selections in
  let marked := map (fun s => pass2 strat (pass1 ps s)) catalog in
  match strat with
  | PRUNE => map snd (filter fst marked)
  | DESELECT =>
      map (fun (ks : bool * cstream) =>
             let '(keep, s) := ks in
             if keep then s
             else {| tap_stream_id := s.(tap_stream_id); metadata := s.(metadata);
                     stream_selected := false |}) marked
  end.

End Catalog.

(** ** Stream maps and the built-in PII hasher ([AltoStreamMap], [HashStreamMap]) *)
Module StreamMap.
Import Py.

(** JSON values (numbers are integers). *)
#[warnings="-register-all"]
Inductive json :=
| JNull
| JBool (b : bool)
| JInt (z : Z)
| JStr (s : string)
| JArr (l : list json)
| JObj (l : list (string * json)).

Definition digit (d : Z) : ascii := ascii_of_nat (Z.to_nat (48 + d)).

Fixpoint dec_aux (fuel : nat) (n : Z) (acc : string) : string :=
  match fuel with
  | O => acc
  | S f =>
      let acc' := String (digit (n mod 10)) acc in
      if (n <? 10)%Z then acc' else dec_aux f (n / 10) acc'
  end.

Definition z_str (z : Z) : string :=
  if (z <? 0)%Z then ("-" ++ dec_aux (S (Z.to_nat (Z.log2 (- z)))) (- z) "")%string
  else dec_aux (S (Z.to_nat (Z.log2 z))) z "".

(** [str(v)] for the scalar values that reach a transformer. *)
Definition py_str (v : json) : string :=
  match v with
  | JNull => "None"
  | JBool true => "True"
  | JBool false => "False"
  | JInt z => z_str z
  | JStr s => s
  | JArr _ | JObj _ => ""  (* containers never reach the transformer *)
  end.

(** [crumb_selected]: [any(fnmatch(crumb, pat) for pat in self.select)]. *)
Definition crumb_selected (select : list string) (crumb : string) : bool :=
  existsb (fun pat => Glob.fnmatch crumb pat) select.

(** [HashStreamMap._pii_hash]: [md5(str(value).encode("utf-8")).hexdigest()]. *)
Definition pii_hash (v : json) : json := JStr (MD5.md5_hexdigest (py_str v)).

(** [recursive_record_apply] with a given transformer. *)
Fixpoint recursive_record_apply (select : list string) (tr : json -> json)
  (v : json) (crumb : string) : json :=
  match v with
  | JObj kvs =>
      JObj ((fix go (l : list (string * json)) :=
               match l with
               | [] => []
               | (k, x) :: r =>
                   (k, recursive_record_apply select tr x (crumb ++ "." ++ k)%string) :: go r
               end) kvs)
  | JArr xs =>
      JArr ((fix go (l : list json) :=
               match l with
               | [] => []
               | x :: r => recursive_record_apply select tr x crumb :: go r
               end) xs)
  | _ => if crumb_selected select crumb then tr v else v
  end.

(** [HashStreamMap._jsonschema_string] *)
Definition hash_schema : json := JObj [("type", JStr "string"); ("format", JStr "hash")].

(** [value.get(k)] on a dict. *)
Definition get (k : string) (kvs : list (string * json)) : option json := lookup k kvs.

Definition is_str (s : string) (v : option json) : bool :=
  match v with Some (JStr t) => (t =? s)%string | _ => false end.

(** The number of constructors of a JSON value. *)
Fixpoint json_size (v : json) : nat :=
  match v with
  | JArr xs => S ((fix go (l : list json) := match l with [] => 0 | x :: r => json_size x + go r end) xs)
  | JObj kvs =>
      S ((fix go (l : list (string * json)) :=
            match l with [] => 0 | (_, x) :: r => json_size x + go r end) kvs)
  | _ => 1
  end.

(** [recursive_schema_apply]: the recursive calls' results are not stored,
    so an [object] or [array] node comes back as it was; [None] is an
    exception ([.get] on a non-dict, a missing ["items"]).  The recursion
    descends into values found by key, so it runs on a depth bound
    ([json_size] of the input is enough). *)
Fixpoint schema_apply_n (fuel : nat) (select : list string) (tr : json -> json)
  (v : json) (crumb : string) : option json :=
  match fuel with
  | O => None
  | S fuel' =>
  match v with
  | JObj kvs =>
      if is_str "object" (get "type" kvs) then
        let props := match get "properties" kvs with
                     | None => Some []
                     | Some (JObj ps) => Some ps
                     | Some _ => None
                     end in
        match props with
        | None => None
        | Some ps =>
            if forallb (fun '(k, x) =>
                          match schema_apply_n fuel' select tr x (crumb ++ "." ++ k)%string with
                          | Some _ => true
                          | None => false
                          end) ps
            then Some v else None
        end
      else if is_str "array" (get "type" kvs) then
        match get "items" kvs with
        | None => None
        | Some it =>
            match schema_apply_n fuel' select tr it crumb with
            | Some _ => Some v
            | None => None
            end
        end
      else if crumb_selected select crumb then Some (tr v) else Some v
  | _ => None
  end
  end.

Definition recursive_schema_apply (select : list string) (tr : json -> json)
  (v : json) (crumb : string) : option json :=
  schema_apply_n (json_size v) select tr v crumb.

(** A RECORD message: [stream] and the [record] dict. *)
Record record_msg := { rstream : string; record : list (string * json) }.

(** A SCHEMA message: [stream] and the [schema] dict's [properties]. *)
Record schema_msg := { sstream : string; properties : list (string * json) }.

(** [HashStreamMap.transform_record] *)
Definition transform_record (select : list string) (m : record_msg) : record_msg :=
  {| rstream := m.(rstream);
     record := map (fun '(k, v) =>
                      (k, recursive_record_apply select pii_hash v (m.(rstream) ++ "." ++ k)%string))
                   m.(record) |}.

(** [HashStreamMap.transform_schema] *)
Fixpoint transform_props (select : list string) (stream : string)
  (ps : list (string * json)) : option (list (string * json)) :=
  match ps with
  | [] => Some []
  | (k, p) :: r =>
      match recursive_schema_apply select (fun _ => hash_schema) p (stream ++ "." ++ k)%string,
            transform_props select stream r with
      | Some p', Some r' => Some ((k, p') :: r')
      | _, _ => None
      end
  end.

Definition transform_schema (select : list string) (m : schema_msg) : option schema_msg :=
  match transform_props select m.(sstream) m.(properties) with
  | Some ps => Some {| sstream := m.(sstream); properties := ps |}
  | None => None
  end.

(** [AltoPlugin.get_stream_maps]: the hash rules are the [~] selections
    without their [~]. *)
Definition hash_rules (select : list string) : list string :=
  map (fun s => substring 1 (String.length s - 1) s) (filter (starts_with "~") select).

End StreamMap.

(** ** A reservoir ingest followed by an emit *)
Module Roundtrip.
Import Py.

Definition empty_store : Reservoir.store :=
  {| Reservoir.lock := None; Reservoir.index := None; Reservoir.objects := [] |}.

(** The object store as the emitter reads it. *)
Definition emitter_view (s : Reservoir.store) : Emitter.store :=
  fun p => option_map Reservoir.olines (lookup p s.(Reservoir.objects)).

(** [tap_to_reservoir] on an empty reservoir, then [reservoir_to_target]
    with no prior emitter state; the lines the target receives. *)
Definition ingest_then_emit (json_loads : string -> option Ingest.message)
  (utc_ts : nat -> string) (buffer_size : nat) (base_path : string)
  (lines : list string) : option (list string) :=
  let '(_, s) := Reservoir.tap_to_reservoir json_loads utc_ts buffer_size [] (fun _ => 0%Z)
                   base_path "pipeline" lines [] empty_store in
  match s.(Reservoir.index) with
  | None => None
  | Some ix =>
      let eix := {| Emitter.iversion := match ix.(Reservoir.iversion) with
                                        | Some v => v | None => 0%Z end;
                    Emitter.istreams := ix.(Reservoir.istreams) |} in
      match Emitter.reservoir_to_target (emitter_view s)
              {| Emitter.version := 0; Emitter.bookmarks := [] |} eix with
      | Some (out, _) => Some out
      | None => None
      end
  end.

(** The RECORD lines of a stream, in a sequence of lines. *)
Definition records_of (json_loads : string -> option Ingest.message) (stream : string)
  (lines : list string) : list string :=
  filter (fun l => match json_loads l with
                   | Some (Ingest.MRecord s _) => (s =? stream)%string
                   | _ => false
                   end) lines.

(** A decoder for the example tap outputs below: two SCHEMA lines for
    stream [s] with different schemas, two RECORD lines, and anything else
    is not JSON. *)
Definition example_loads (l : string) : option Ingest.message :=
  if (l =? "S1")%string then Some (Ingest.MSchema "s" "schema-A")
  else if (l =? "S2")%string then Some (Ingest.MSchema "s" "schema-B")
  else if (l =? "R1")%string then Some (Ingest.MRecord "s" "1")
  else if (l =? "R2")%string then Some (Ingest.MRecord "s" "2")
  else None.

(** Timestamps of successive flushes. *)
Definition example_ts (n : nat) : string :=
  match n with
  | 0 => "20240101000000000001"
  | 1 => "20240101000000000002"
  | _ => "20240101000000000003"
  end.

Definition RESERVOIR_BUFFER_SIZE : nat := 100 * 100.

End Roundtrip.

(** ** [alto/utils.py], [alto/state.py] and [find_hyphen_key] *)
Module Utils.
Import Py StreamMap.

(** [utils.merge(source, destination)]: [source] is a dict, and the
    recursion only descends into dict values.  A dict value is merged into
    [destination.setdefault(key, {})] when that node is a dict and replaces
    it otherwise; any other value is assigned.  The result is the mutated
    [destination]. *)
Fixpoint merge_value (source : json) (destination : list (string * json))
  : list (string * json) :=
  match source with
  | JObj kvs =>
      (fix go (l : list (string * json)) (dest : list (string * json)) :=
         match l with
         | [] => dest
         | (key, value) :: r =>
             go r (match value with
                   | JObj _ =>
                       match lookup key dest with
                       | Some (JObj node) => set key (JObj (merge_value value node)) dest
                       | Some _ => set key value dest
                       | None => set key (JObj (merge_value value [])) dest
                       end
                   | _ => set key value dest
                   end)
         end) kvs destination
  | _ => destination  (* not reached: [merge] is only called on dicts *)
  end.

Definition merge (source destination : list (string * json)) : list (string * json) :=
  merge_value (JObj source) destination.

(** [message_type(raw)]: [raw[i]] is [nth_error raw i] ([None] is an
    IndexError), a slice [raw[i:j]] never fails. *)
Definition slice (raw : list Byte.byte) (i j : nat) : list Byte.byte :=
  firstn (j - i) (skipn i raw).

Definition bytes_eqb (a b : list Byte.byte) : bool :=
  if list_eq_dec Byte.byte_eq_dec a b then true else false.

Definition byte_is (b : Byte.byte) (n : nat) : bool := (Byte.to_nat b =? n)%nat.

Definition message_type (raw : list Byte.byte) : option Z :=
  match nth_error raw 0 with
  | None => None
  | Some b0 =>
      if negb (byte_is b0 123) then Some (-1)%Z  (* JSON *)
      else if negb (bytes_eqb (slice raw 2 6) (list_byte_of_string "type")) then Some 99%Z
      else
        match nth_error raw 8 with
        | None => None
        | Some b8 =>
            if byte_is b8 32 then  (* Loose *)
              match nth_error raw 10 with
              | None => None
              | Some b10 =>
                  if byte_is b10 82 then Some 1%Z
                  else if bytes_eqb (slice raw 10 12) (list_byte_of_string "SC") then Some 2%Z
                  else if bytes_eqb (slice raw 10 12) (list_byte_of_string "ST") then Some 3%Z
                  else Some 0%Z
              end
            else  (* Compact *)
              match nth_error raw 9 with
              | None => None
              | Some b9 =>
                  if byte_is b9 82 then Some 1%Z
                  else if bytes_eqb (slice raw 9 11) (list_byte_of_string "SC") then Some 2%Z
                  else if bytes_eqb (slice raw 9 11) (list_byte_of_string "ST") then Some 3%Z
                  else Some 0%Z
              end
        end
  end.

(** [k.replace("-", "_")] *)
Fixpoint replace_hyphen (s : string) : string :=
  match s with
  | EmptyString => EmptyString
  | String c r => String (if Ascii.eqb c "-" then "_"%char else c) (replace_hyphen r)
  end.

(** [find_hyphen_key(key, data)] *)
Definition find_hyphen_key {A} (key : string) (data : list (string * A)) : option string :=
  if mem key data then Some key
  else find (fun k => (replace_hyphen k =? key)%string) (map fst data).

Section State.
(** [json.loads(output)]; [None] is a JSONDecodeError. *)
Variable json_loads : string -> option json.

(** The loop of [parse_state_from_stdout]: undecodable lines are skipped;
    a line holding JSON that is not an object makes [source.items()] raise
    an AttributeError, which escapes ([None]). *)
Fixpoint parse_lines (state : list (string * json)) (lines : list string)
  : option (list (string * json)) :=
  match lines with
  | [] => Some state
  | output :: r =>
      match json_loads output with
      | None => parse_lines state r
      | Some (JObj source) => parse_lines (merge source state) r
      | Some _ => None
      end
  end.

Definition parse_state_from_stdout (lines : list string) : option (list (string * json)) :=
  parse_lines [] lines.

(** [update_state]: the parsed state merged into [base_state] (the decoded
    state file).  Merging a non-empty dict into a value that is not a dict
    raises ([setdefault] or item assignment on it); an empty one leaves it
    as it is. *)
Definition update_state (base_state : json) (lines : list string) : option json :=
  match parse_state_from_stdout lines with
  | None => None
  | Some st =>
      match st, base_state with
      | [], _ => Some base_state
      | _, JObj d => Some (JObj (merge st d))
      | _, _ => None
      end
  end.
End State.

End Utils.

(** ** [catalog.apply_metadata] *)
Module CatalogMetadata.
Import Py StreamMap.

(** A [SingerCatalogStreamMetadata]: its breadcrumb and metadata dict. *)
Record md_item := { mbreadcrumb : list string; mmeta : list (string * json) }.

(** A [SingerCatalogStream]: the fields [apply_metadata] reads or writes. *)
Record mstream := {
  mtap_stream_id : string;
  mmetadata : list md_item;
  replication_method : json;
  replication_key : json
}.

Definition is_root (e : md_item) : bool :=
  match e.(mbreadcrumb) with [] => true | _ => false end.

(** [payload.pop("selected", None)] (a dict holds a key at most once). *)
Definition pop_selected (payload : list (string * json)) : list (string * json) :=
  filter (fun kv => negb (fst kv =? "selected")%string) payload.

(** [d.update(payload)] *)
Definition update (d payload : list (string * json)) : list (string * json) :=
  fold_left (fun d '(k, v) => set k v d) payload d.

(** The index of the first root entry. *)
Fixpoint first_root (md : list md_item) : option nat :=
  match md with
  | [] => None
  | e :: r => if is_root e then Some 0 else option_map S (first_root r)
  end.

(** [next((i for i, entry in enumerate(md) if entry.is_root), 0)] *)
Definition root_index (md : list md_item) : nat :=
  match first_root md with Some i => i | None => 0 end.

(** [md[i].metadata.update(payload)]; [None] is the IndexError of [md[i]]. *)
Fixpoint update_nth (i : nat) (payload : list (string * json)) (md : list md_item)
  : option (list md_item) :=
  match md, i with
  | [], _ => None
  | e :: r, O => Some ({| mbreadcrumb := e.(mbreadcrumb); mmeta := update e.(mmeta) payload |} :: r)
  | e :: r, S i' =>
      match update_nth i' payload r with
      | Some r' => Some (e :: r')
      | None => None
      end
  end.

(** The body of [for stream in catalog.streams] for one criteria. *)
Definition apply_to_stream (criteria : string) (payload : list (string * json)) (s : mstream)
  : option mstream :=
  if negb (Glob.fnmatch s.(mtap_stream_id) criteria) then Some s
  else
    match update_nth (root_index s.(mmetadata)) payload s.(mmetadata) with
    | None => None
    | Some md =>
        Some {| mtap_stream_id := s.(mtap_stream_id);
                mmetadata := md;
                replication_method :=
                  match lookup "replication-method" payload with
                  | Some v => v | None => s.(replication_method) end;
                replication_key :=
                  match lookup "replication-key" payload with
                  | Some v => v | None => s.(replication_key) end |}
    end.

Fixpoint apply_to_streams (criteria : string) (payload : list (string * json))
  (streams : list mstream) : option (list mstream) :=
  match streams with
  | [] => Some []
  | s :: r =>
      match apply_to_stream criteria payload s with
      | None => None
      | Some s' =>
          match apply_to_streams criteria payload r with
          | Some r' => Some (s' :: r')
          | None => None
          end
      end
  end.

(** [apply_metadata] on a parsed catalog: for each [criteria, payload],
    drop [selected] from the payload, then update the root metadata of
    every matching stream and bubble up the replication settings. *)
Fixpoint apply_metadata (streams : list mstream) (metadata : list (string * list (string * json)))
  : option (list mstream) :=
  match metadata with
  | [] => Some streams
  | (criteria, payload) :: r =>
      match apply_to_streams criteria (pop_selected payload) streams with
      | None => None
      | Some streams' => apply_metadata streams' r
      end
  end.

End CatalogMetadata.

(** * Auxiliary facts and examples *)

Module PyFacts.
Import Py.

Lemma lookup_set_eq {A} (k : string) (v : A) (d : list (string * A)) :
  lookup k (set k v d) = Some v.
Proof.
  induction d as [|[k' v'] r IH]; simpl.
  - rewrite String.eqb_refl; reflexivity.
  - destruct (String.eqb_spec k k') as [->|Hne]; simpl.
    + rewrite String.eqb_refl; reflexivity.
    + destruct (String.eqb_spec k k'); [contradiction | exact IH].
Qed.

Lemma lookup_set_neq {A} (k k' : string) (v : A) (d : list (string * A)) :
  k <> k' -> lookup k (set k' v d) = lookup k d.
Proof.
  intros Hne; induction d as [|[k0 v0] r IH]; simpl.
  - destruct (String.eqb_spec k k'); [contradiction | reflexivity].
  - destruct (String.eqb_spec k' k0) as [->|Hne0]; simpl.
    + destruct (String.eqb_spec k k0); [contradiction | reflexivity].
    + destruct (String.eqb_spec k k0); [reflexivity | exact IH].
Qed.

Lemma mem_lookup {A} (k : string) (d : list (string * A)) :
  mem k d = true -> exists v, lookup k d = Some v.
Proof. unfold mem; destruct (lookup k d) as [v|]; [eauto | discriminate]. Qed.

End PyFacts.

Module IngestSafety.
Import Py Ingest PyFacts.

(** The message kind and stream, which the ingestor reads. *)
Definition shape (m : message) : nat * string :=
  match m with
  | MState _ => (0, "")
  | MSchema s _ => (1, s)
  | MRecord s _ => (2, s)
  | MOther _ s => (3, s)
  end%nat.

(** Mappers keep a message's kind and stream ([HashStreamMap] does). *)
Definition shape_preserving (mappers : list mapper) : Prop :=
  forall mp m, In mp mappers ->
    shape (mp.(transform_schema) m) = shape m /\ shape (mp.(transform_record) m) = shape m.

(** The precondition: every RECORD line of a stream comes after a SCHEMA line
    of that stream. *)
Fixpoint schema_first (json_loads : string -> option message) (seen : list string)
  (lines : list string) : bool :=
  match lines with
  | [] => true
  | l :: r =>
      match json_loads l with
      | Some (MSchema s _) => schema_first json_loads (s :: seen) r
      | Some (MRecord s _) => existsb (String.eqb s) seen && schema_first json_loads seen r
      | _ => schema_first json_loads seen r
      end
  end.

(** Every stream seen has a buffer for its active schema. *)
Definition buf (rb : list (string * list (string * container)))
  (act : list (string * string)) (seen : list string) : Prop :=
  forall s, In s seen ->
    exists schemas sid c,
      lookup s rb = Some schemas /\ lookup s act = Some sid /\ lookup sid schemas = Some c.

Definition buffered (st : ingest_state) (seen : list string) : Prop :=
  buf st.(record_buffer) st.(active_schemas) seen.

Definition next_seen (json_loads : string -> option message) (seen : list string)
  (l : string) : list string :=
  match json_loads l with Some (MSchema s _) => s :: seen | _ => seen end.

Definition prev_ok (seen : list string) (prev : option message) : Prop :=
  match prev with
  | Some (MRecord s _) => In s seen
  | Some (MSchema _ _) | Some (MState _) | Some (MOther _ _) | None => True
  end.

Lemma shape_schema m s : shape m = (1%nat, s) -> exists sch, m = MSchema s sch.
Proof. destruct m; simpl; intros H; inversion H; eauto. Qed.

Lemma shape_record m s : shape m = (2%nat, s) -> exists r, m = MRecord s r.
Proof. destruct m; simpl; intros H; inversion H; eauto. Qed.

Lemma fold_schema_shape mappers :
  shape_preserving mappers ->
  forall m, shape (fold_left (fun m mp => mp.(transform_schema) m) mappers m) = shape m.
Proof.
  intros Hp; induction mappers as [|mp r IH]; intros m; simpl; [reflexivity|].
  rewrite IH; [apply (Hp mp m); left; reflexivity|].
  intros mp' m' Hin; apply Hp; right; exact Hin.
Qed.

Lemma fold_record_shape mappers :
  shape_preserving mappers ->
  forall m, shape (fold_left (fun m mp => mp.(transform_record) m) mappers m) = shape m.
Proof.
  intros Hp; induction mappers as [|mp r IH]; intros m; simpl; [reflexivity|].
  rewrite IH; [apply (Hp mp m); left; reflexivity|].
  intros mp' m' Hin; apply Hp; right; exact Hin.
Qed.

Lemma buf_weaken rb act s seen : buf rb act (s :: seen) -> buf rb act seen.
Proof. intros H x Hx; apply H; right; exact Hx. Qed.

(** Updating one stream's buffer and active schema keeps the others. *)
Lemma buf_update rb act rb' stream sid seen schemas' c :
  buf rb act seen ->
  lookup stream rb' = Some schemas' -> lookup sid schemas' = Some c ->
  (forall s, s <> stream -> lookup s rb' = lookup s rb) ->
  buf rb' (set stream sid act) (stream :: seen).
Proof.
  intros Hb Hs Hc Ho x Hx.
  destruct (String.eqb_spec x stream) as [->|Hne].
  - exists schemas', sid, c; rewrite lookup_set_eq; auto.
  - destruct Hx as [<-|Hx]; [contradiction|].
    destruct (Hb x Hx) as (sc & sd & c' & H1 & H2 & H3).
    exists sc, sd, c'; rewrite Ho, lookup_set_neq; auto.
Qed.

Section Step.
Variable json_loads : string -> option message.
Variable utc_ts : nat -> string.
Variable base_path : string.
Variable buffer_size : nat.
Variable mappers : list mapper.
Hypothesis Hmap : shape_preserving mappers.

Definition effective (prev : option message) (line : string) : option message :=
  match json_loads line with Some m => Some m | None => prev end.

Lemma schema_branch st prev stream sch line seen :
  effective prev line = Some (MSchema stream sch) ->
  buffered st seen ->
  match step json_loads utc_ts base_path buffer_size mappers st prev line with
  | inl _ => False
  | inr (st', m) => buffered st' (stream :: seen) /\ forall seen', prev_ok seen' m
  end.
Proof.
  unfold effective; intros Heff Hb; unfold step; cbv zeta; rewrite Heff.
  destruct (shape_schema _ _ (fold_schema_shape mappers Hmap (MSchema stream sch)))
    as [sch' ->]; simpl.
  split; [|intros; exact I].
  unfold buffered; simpl.
  destruct (lookup stream (record_buffer st)) as [schemas|] eqn:E.
  - destruct (mem (schema_id sch') schemas) eqn:Em.
    + destruct (mem_lookup _ _ Em) as [c Hc].
      eapply buf_update; eauto.
    + eapply buf_update; [exact Hb | apply lookup_set_eq | exact (lookup_set_eq _ _ [])
                         | intros s Hs; apply lookup_set_neq; exact Hs].
  - eapply buf_update; [exact Hb | apply lookup_set_eq | exact (lookup_set_eq _ _ [])
                       | intros s Hs; apply lookup_set_neq; exact Hs].
Qed.

Lemma record_branch st prev stream r line seen :
  effective prev line = Some (MRecord stream r) ->
  In stream seen ->
  buffered st seen ->
  match step json_loads utc_ts base_path buffer_size mappers st prev line with
  | inl _ => False
  | inr (st', m) => buffered st' seen /\ prev_ok seen m
  end.
Proof.
  unfold effective; intros Heff Hin Hb; unfold step; cbv zeta; rewrite Heff.
  destruct (shape_record _ _ (fold_record_shape mappers Hmap (MRecord stream r)))
    as [r' ->].
  destruct (Hb stream Hin) as (schemas & sid & c & H1 & H2 & H3).
  rewrite H1, H2, H3.
  assert (Hk : forall c', buf (set stream (set sid c' schemas) (record_buffer st))
                            (active_schemas st) seen).
  { intros c' x Hx.
    destruct (String.eqb_spec x stream) as [->|Hne].
    - exists (set sid c' schemas), sid, c'.
      rewrite lookup_set_eq, lookup_set_eq; auto.
    - destruct (Hb x Hx) as (sc & sd & c0 & G1 & G2 & G3).
      exists sc, sd, c0; rewrite lookup_set_neq; auto. }
  destruct (_ <=? _)%nat; simpl; (split; [apply Hk | exact Hin]).
Qed.
Lemma step_safe st prev l seen :
  buffered st seen -> prev_ok seen prev ->
  (forall s r, json_loads l = Some (MRecord s r) -> In s seen) ->
  match step json_loads utc_ts base_path buffer_size mappers st prev l with
  | inl e => e = UnboundLocalError "message"
  | inr (st', m) => buffered st' (next_seen json_loads seen l)
                    /\ prev_ok (next_seen json_loads seen l) m
  end.
Proof.
  intros Hb Hp Hr.
  destruct (effective prev l) as [m|] eqn:Heff.
  2: { unfold effective in Heff; unfold step; cbv zeta; rewrite Heff; reflexivity. }
  destruct m as [v|stream sch|stream r|ty stream].
  - unfold effective in Heff; unfold step, next_seen; cbv zeta; rewrite Heff.
    destruct (json_loads l) as [m0|]; [inversion Heff; subst|]; simpl; split; auto.
  - pose proof (schema_branch st prev stream sch l seen Heff Hb) as H.
    destruct (step _ _ _ _ _ st prev l) as [e|[st' m]]; [contradiction|].
    destruct H as [H1 H2]; split; [|apply H2].
    unfold effective in Heff; unfold next_seen.
    destruct (json_loads l) as [m0|]; [inversion Heff; subst; exact H1|].
    exact (buf_weaken _ _ _ _ H1).
  - assert (Hin : In stream seen).
    { unfold effective in Heff; destruct (json_loads l) as [m0|] eqn:J.
      - inversion Heff; subst; eapply Hr; reflexivity.
      - subst prev; exact Hp. }
    pose proof (record_branch st prev stream r l seen Heff Hin Hb) as H.
    assert (Hn : next_seen json_loads seen l = seen).
    { unfold effective in Heff; unfold next_seen.
      destruct (json_loads l) as [m0|]; [inversion Heff; subst|]; reflexivity. }
    rewrite Hn.
    destruct (step _ _ _ _ _ st prev l) as [e|[st' m]]; [contradiction|exact H].
  - unfold effective in Heff; unfold step, next_seen; cbv zeta; rewrite Heff.
    destruct (json_loads l) as [m0|]; [inversion Heff; subst|]; simpl; split; auto.
Qed.

Lemma schema_first_cons seen l r :
  schema_first json_loads seen (l :: r) = true ->
  (forall s x, json_loads l = Some (MRecord s x) -> In s seen)
  /\ schema_first json_loads (next_seen json_loads seen l) r = true.
Proof.
  simpl; unfold next_seen.
  destruct (json_loads l) as [[v|s sch|s x|ty s]|]; intros H;
    split; try (intros ? ? E; discriminate E); auto.
  - intros s' x' E; inversion E; subst.
    apply andb_prop in H as [H _].
    apply existsb_exists in H as (y & Hy & Eq).
    apply String.eqb_eq in Eq; subst; exact Hy.
  - apply andb_prop in H as [_ H]; exact H.
Qed.

Lemma loop_safe lines : forall st prev seen,
  schema_first json_loads seen lines = true ->
  buffered st seen -> prev_ok seen prev ->
  forall k st', loop json_loads utc_ts base_path buffer_size mappers st prev lines
                <> inl (KeyError k, st').
Proof.
  induction lines as [|l r IH]; intros st prev seen Hs Hb Hp k st'; simpl.
  - discriminate.
  - destruct (schema_first_cons seen l r Hs) as [Hr Hs'].
    pose proof (step_safe st prev l seen Hb Hp Hr) as H.
    destruct (step _ _ _ _ _ st prev l) as [e|[st1 m]].
    + subst e; discriminate.
    + destruct H as [Hb' Hp']; exact (IH st1 m _ Hs' Hb' Hp' k st').
Qed.
End Step.
End IngestSafety.

Module CatalogSelection.
Import Py Catalog.










Lemma set_selected_twice e x y : set_selected (set_selected e x) y = set_selected e y.
Proof. reflexivity. Qed.













(** *** Where the entries of a pruned stream come from *)

(** [attribute.metadata.get("inclusion") == "automatic"] as [_select_attribute] reads it. *)
Definition automatic (e : md_entry) : bool :=
  match e.(inclusion) with Some i => (i =? "automatic")%string | None => false end.










End CatalogSelection.

Module Compaction.
Import Py PyFacts Reservoir.
Open Scope Z_scope.

Definition phase_store (ph : phase) : store :=
  match ph with Finished s _ => s | Raised s => s end.

(** The [changed] flag after the merge phase ([except] sets it). *)
Definition phase_changed (ph : phase) : bool :=
  match ph with Finished _ c => c | Raised _ => true end.

(** [reservoir.get("__version__", 0)]; a missing index reads as 0. *)
Definition ver (s : store) : Z :=
  match s.(index) with
  | Some ix => match ix.(iversion) with Some v => v | None => 0 end
  | None => 0
  end.

(** A sequence of [n] compactions; a failing one leaves the store as it is. *)
Fixpoint compact_seq (base_path : string) (n : nat) (s : store) : store :=
  match n with
  | O => s
  | S n' =>
      compact_seq base_path n'
        (match compact_reservoir base_path s with inr s' => s' | inl _ => s end)
  end.

Definition keys (d : list (string * obj)) : list string := map fst d.

(** The example of the compaction section: [a] and [b] of 5 MiB, [c] of 30 MiB. *)
Definition ex_base : string := "reservoir/dev/tap-x".
Definition ex_a : string := "reservoir/dev/tap-x/s/S/a.singer.gz".
Definition ex_b : string := "reservoir/dev/tap-x/s/S/b.singer.gz".
Definition ex_c : string := "reservoir/dev/tap-x/s/S/c.singer.gz".
Definition mib : Z := 1048576.

Definition ex_store : store :=
  {| lock := None;
     index := Some {| iversion := Some 3; istreams := [("s", [ex_a; ex_b; ex_c])] |};
     objects := [(ex_a, {| osize := 5 * mib; olines := ["H"; "ra"] |});
                 (ex_b, {| osize := 5 * mib; olines := ["H"; "rb"] |});
                 (ex_c, {| osize := 30 * mib; olines := ["H"; "rc"] |})] |}.

(** Two files of 25,000,000 bytes: each below 25 MiB, together above it. *)
Definition big_store : store :=
  {| lock := None;
     index := Some {| iversion := Some 3; istreams := [("s", [ex_a; ex_b])] |};
     objects := [(ex_a, {| osize := 25000000; olines := ["H"; "ra"] |});
                 (ex_b, {| osize := 25000000; olines := ["H"; "rb"] |})] |}.

(** *** Association lists *)

Lemma lookup_remove_neq x k (d : list (string * obj)) :
  x <> k -> lookup x (remove_key k d) = lookup x d.
Proof.
  intros Hne; induction d as [|[k' v] r IH]; simpl; [reflexivity|].
  destruct (String.eqb_spec k k') as [->|Hk]; simpl.
  - destruct (String.eqb_spec x k'); [contradiction | reflexivity].
  - destruct (String.eqb_spec x k'); [reflexivity | exact IH].
Qed.

Lemma lookup_not_in {A} k (d : list (string * A)) : ~ In k (map fst d) -> lookup k d = None.
Proof.
  induction d as [|[k' v] r IH]; simpl; intros H; [reflexivity|].
  destruct (String.eqb_spec k k') as [->|Hne]; [exfalso; apply H; left; reflexivity|].
  apply IH; intros Hin; apply H; right; exact Hin.
Qed.

Lemma keys_remove_incl k d x : In x (keys (remove_key k d)) -> In x (keys d).
Proof.
  induction d as [|[k' v] r IH]; simpl; [tauto|].
  destruct (String.eqb k k'); simpl; [tauto|].
  intros [H|H]; [left; exact H | right; apply IH, H].
Qed.

Lemma remove_nodup k d : NoDup (keys d) -> NoDup (keys (remove_key k d)).
Proof.
  induction d as [|[k' v] r IH]; simpl; intros H; [constructor|].
  inversion H as [|? ? Hn Hr]; subst.
  destruct (String.eqb k k'); simpl; [exact Hr|].
  constructor; [intros Hin; apply Hn, (keys_remove_incl k), Hin | apply IH, Hr].
Qed.

Lemma lookup_remove_eq k d : NoDup (keys d) -> lookup k (remove_key k d) = None.
Proof.
  induction d as [|[k' v] r IH]; simpl; intros H; [reflexivity|].
  inversion H as [|? ? Hn Hr]; subst.
  destruct (String.eqb_spec k k') as [->|Hne]; simpl.
  - apply lookup_not_in, Hn.
  - destruct (String.eqb_spec k k'); [contradiction | apply IH, Hr].
Qed.

Lemma keys_set k v d x : In x (keys (set k v d)) <-> x = k \/ In x (keys d).
Proof.
  induction d as [|[k' v'] r IH]; simpl.
  - split; [intros [<-|[]]; left; reflexivity | intros [->|[]]; left; reflexivity].
  - destruct (String.eqb_spec k k') as [->|Hne]; simpl.
    + split; [intros H; right; exact H | intros [->|H]; [left; reflexivity | exact H]].
    + rewrite IH; split.
      * intros [<-|[H|H]]; [right; left; reflexivity | left; exact H | right; right; exact H].
      * intros [H|[<-|H]]; [right; left; exact H | left; reflexivity | right; right; exact H].
Qed.

Lemma set_nodup k v d : NoDup (keys d) -> NoDup (keys (set k v d)).
Proof.
  induction d as [|[k' v'] r IH]; simpl; intros H.
  - constructor; [intros []|constructor].
  - inversion H as [|? ? Hn Hr]; subst.
    destruct (String.eqb_spec k k') as [->|Hne]; simpl; [constructor; assumption|].
    constructor; [|apply IH, Hr].
    intros Hin; apply keys_set in Hin as [->|Hin]; [apply Hne; reflexivity | apply Hn, Hin].
Qed.

Lemma fold_remove ks : forall d,
  NoDup (keys d) ->
  (forall x, In x ks -> lookup x (fold_left (fun d p => remove_key p d) ks d) = None)
  /\ (forall x, ~ In x ks -> lookup x (fold_left (fun d p => remove_key p d) ks d) = lookup x d)
  /\ NoDup (keys (fold_left (fun d p => remove_key p d) ks d)).
Proof.
  induction ks as [|k r IH]; intros d Hd; simpl.
  - split; [intros x []|]; split; [reflexivity | exact Hd].
  - destruct (IH (remove_key k d) (remove_nodup k d Hd)) as (H1 & H2 & H3).
    split; [|split; [|exact H3]].
    + intros x [->|Hx]; [|apply H1, Hx].
      destruct (in_dec string_dec x r) as [Hr|Hr]; [apply H1, Hr|].
      rewrite H2 by exact Hr; apply lookup_remove_eq, Hd.
    + intros x Hx; rewrite H2 by (intros Hin; apply Hx; right; exact Hin).
      apply lookup_remove_neq; intros ->; apply Hx; left; reflexivity.
Qed.

Lemma fold_remove_other ks d x :
  ~ In x ks -> lookup x (fold_left (fun d p => remove_key p d) ks d) = lookup x d.
Proof.
  revert d; induction ks as [|k r IH]; intros d Hx; simpl; [reflexivity|].
  rewrite IH by (intros Hin; apply Hx; right; exact Hin).
  apply lookup_remove_neq; intros ->; apply Hx; left; reflexivity.
Qed.

(** *** Sorting is a permutation *)

Lemma insert_sorted_perm x xs : Permutation (insert_sorted x xs) (x :: xs).
Proof.
  induction xs as [|y r IH]; simpl; [reflexivity|].
  destruct (x <=? y)%string; [reflexivity|].
  rewrite IH; apply perm_swap.
Qed.

Lemma sorted_perm xs : Permutation (sorted xs) xs.
Proof.
  induction xs as [|x r IH]; simpl; [reflexivity|].
  rewrite insert_sorted_perm, IH; reflexivity.
Qed.

Lemma last_in (l : list string) d : l <> [] -> In (last l d) l.
Proof.
  intros Hne; rewrite (app_removelast_last d Hne) at 2.
  apply in_or_app; right; left; reflexivity.
Qed.

Lemma removelast_incl (l : list string) x : In x (removelast l) -> In x l.
Proof.
  induction l as [|a r IH]; simpl; [tauto|].
  destruct r as [|b r']; [tauto|].
  intros [<-|H]; [left; reflexivity | right; apply IH, H].
Qed.

(** *** A merge writes the last target and deletes the others *)

Lemma merge_other s q s' x :
  q <> [] -> ~ In x q -> merge s q = Some s' -> lookup x s'.(objects) = lookup x s.(objects).
Proof.
  intros Hq Hx; unfold merge.
  assert (Hs : ~ In x (sorted q)) by (intros H; apply Hx; eapply Permutation_in; [apply sorted_perm | exact H]).
  assert (Hne : sorted q <> []) by (intros E; apply Hq, Permutation_nil; rewrite <- E; first [apply sorted_perm | symmetry; apply sorted_perm]).
  destruct (cat_many s (sorted q)) as [os|]; [|discriminate].
  intros H; inversion H; subst; simpl.
  rewrite fold_remove_other by (intros Hin; apply Hs, removelast_incl, Hin).
  apply lookup_set_neq; intros ->; apply Hs, last_in, Hne.
Qed.

Lemma merge_spec s q os :
  NoDup (keys s.(objects)) -> NoDup q -> q <> [] -> cat_many s (sorted q) = Some os ->
  exists s', merge s q = Some s'
    /\ lookup (last (sorted q) "") s'.(objects)
       = Some {| osize := fold_left (fun a o => a + o.(osize)) os 0; olines := flat_map olines os |}
    /\ (forall x, In x q -> x <> last (sorted q) "" -> lookup x s'.(objects) = None)
    /\ (forall x, ~ In x q -> lookup x s'.(objects) = lookup x s.(objects))
    /\ NoDup (keys s'.(objects)).
Proof.
  intros Hd Hq Hne Hc.
  assert (Hnd : NoDup (sorted q)) by (eapply Permutation_NoDup; [symmetry; apply sorted_perm | exact Hq]).
  assert (Hsne : sorted q <> []) by (intros E; apply Hne, Permutation_nil; rewrite <- E; first [apply sorted_perm | symmetry; apply sorted_perm]).
  pose proof (app_removelast_last "" Hsne) as Happ.
  assert (Hlast : ~ In (last (sorted q) "") (removelast (sorted q))).
  { rewrite Happ in Hnd. apply Permutation_NoDup with (l' := last (sorted q) "" :: removelast (sorted q)) in Hnd;
      [inversion Hnd; assumption | symmetry; apply Permutation_cons_append]. }
  destruct (fold_remove (removelast (sorted q))
              (set (last (sorted q) "") {| osize := fold_left (fun a o => a + o.(osize)) os 0;
                                            olines := flat_map olines os |} (objects s))
              (set_nodup _ _ _ Hd)) as (H1 & H2 & H3).
  eexists; split; [unfold merge; rewrite Hc; reflexivity|]; simpl.
  split; [rewrite H2 by exact Hlast; apply lookup_set_eq|].
  split; [|split; [|exact H3]].
  - intros x Hx Hxl; apply H1.
    assert (Hs : In x (sorted q)) by (eapply Permutation_in; [symmetry; apply sorted_perm | exact Hx]).
    rewrite Happ in Hs; apply in_app_or in Hs as [Hs|[<-|[]]]; [exact Hs | contradiction].
  - intros x Hx.
    assert (Hs : ~ In x (sorted q)) by (intros H; apply Hx; eapply Permutation_in; [apply sorted_perm | exact H]).
    rewrite H2 by (intros Hin; apply Hs, removelast_incl, Hin).
    apply lookup_set_neq; intros ->; apply Hs, last_in, Hsne.
Qed.

(** *** Files at or above the threshold are never touched *)

Section Big.
Variable p : string.
Variable o : obj.
Hypothesis Hbig : threshold <= o.(osize).

Definition kept (s : store) : Prop := lookup p s.(objects) = Some o.

(** Every recorded size of [p] is the size of [o]. *)
Definition sizes_ok (g : list (string * list (string * Z))) : Prop :=
  forall sch pws, In (sch, pws) g -> forall x sz, In (x, sz) pws -> x = p -> sz = o.(osize).

Lemma drain_kept pending : forall s c q qb,
  kept s -> ~ In p q -> (forall x sz, In (x, sz) pending -> x <> p) ->
  kept (phase_store (drain s c q qb pending)).
Proof.
  induction pending as [|[x sz] r IH]; intros s c q qb Hk Hq Hp; simpl.
  - destruct q as [|y q']; [exact Hk|].
    destruct (merge s (y :: q')) as [s'|] eqn:E; simpl; [|exact Hk].
    assert (Hqn : y :: q' <> []) by discriminate.
    unfold kept; rewrite (merge_other s (y :: q') s' p Hqn Hq E); exact Hk.
  - assert (Hq' : ~ In p (q ++ [x])).
    { intros Hin; apply in_app_or in Hin as [Hin|[Hin|[]]]; [exact (Hq Hin)|].
      exact (Hp x sz (or_introl eq_refl) Hin). }
    assert (Hr : forall x' sz', In (x', sz') r -> x' <> p) by (intros; eapply Hp; right; eassumption).
    destruct (threshold <? qb + sz).
    + destruct (merge s (q ++ [x])) as [s'|] eqn:E; [|exact Hk].
      assert (Hqn : q ++ [x] <> []) by (intros E0; apply app_eq_nil in E0 as [_ E0]; discriminate).
      apply IH; [|intros []|exact Hr].
      unfold kept; rewrite (merge_other s _ s' p Hqn Hq' E); exact Hk.
    + apply IH; assumption.
Qed.

Lemma partition_kept s c pws :
  kept s -> (forall x sz, In (x, sz) pws -> x = p -> sz = o.(osize)) ->
  kept (phase_store (compact_partition s c pws)).
Proof.
  intros Hk Hs; unfold compact_partition.
  destruct (List.length _ <? 2)%nat; [exact Hk|].
  apply drain_kept; [exact Hk | intros [] |].
  intros x sz Hin ->.
  apply in_rev, filter_In in Hin as [Hin Hlt].
  rewrite (Hs p sz Hin eq_refl) in Hlt; apply Z.ltb_lt in Hlt; lia.
Qed.

Lemma partitions_kept parts : forall s c,
  kept s -> sizes_ok parts -> kept (phase_store (compact_partitions s c parts)).
Proof.
  induction parts as [|[sch pws] r IH]; intros s c Hk Hs; simpl; [exact Hk|].
  pose proof (partition_kept s c pws Hk (Hs sch pws (or_introl eq_refl))) as H.
  destruct (compact_partition s c pws) as [s' c'|s']; [|exact H].
  apply IH; [exact H|]; intros sch' pws' Hin; apply (Hs sch' pws'); right; exact Hin.
Qed.

Lemma in_set_pair {A} k (v : A) d kv : In kv (set k v d) -> kv = (k, v) \/ In kv d.
Proof.
  induction d as [|[k' v'] r IH]; simpl.
  - intros [<-|[]]; left; reflexivity.
  - destruct (String.eqb_spec k k') as [->|Hne]; simpl.
    + intros [<-|H]; [left; reflexivity | right; right; exact H].
    + intros [<-|H]; [right; left; reflexivity|].
      destruct (IH H) as [E|E]; [left; exact E | right; right; exact E].
Qed.

Lemma lookup_in_pair {A} k (v : A) d : lookup k d = Some v -> In (k, v) d.
Proof.
  induction d as [|[k' v'] r IH]; simpl; [discriminate|].
  destruct (String.eqb_spec k k') as [->|Hne]; [intros H; inversion H; left; reflexivity|].
  intros H; right; apply IH, H.
Qed.

Lemma add_sized_ok s paths : forall g parts,
  kept s -> sizes_ok g -> add_sized s g paths = Some parts -> sizes_ok parts.
Proof.
  induction paths as [|x r IH]; intros g parts Hk Hg; simpl.
  - intros H; inversion H; subst; exact Hg.
  - destruct (parent x) as [sch|]; [|discriminate].
    destruct (lookup x (objects s)) as [ox|] eqn:Ex; [|discriminate].
    apply IH; [exact Hk|].
    assert (Hnew : forall l, (forall y sz, In (y, sz) l -> y = p -> sz = o.(osize)) ->
              forall y sz, In (y, sz) (l ++ [(x, osize ox)]) -> y = p -> sz = o.(osize)).
    { intros l Hl y sz Hin Hy; apply in_app_or in Hin as [Hin|[Heq|[]]]; [exact (Hl y sz Hin Hy)|].
      inversion Heq; subst; unfold kept in Hk; rewrite Hk in Ex; inversion Ex; reflexivity. }
    destruct (lookup sch g) as [l|] eqn:El; intros sch' pws' Hin;
      apply in_set_pair in Hin as [Heq|Hin]; try (exact (Hg sch' pws' Hin));
      inversion Heq; subst sch' pws'.
    + apply Hnew; intros y sz Hy; exact (Hg sch l (lookup_in_pair _ _ _ El) y sz Hy).
    + apply (Hnew []); intros ? ? [].
Qed.

Lemma streams_kept streams : forall s c,
  kept s -> kept (phase_store (compact_streams s c streams)).
Proof.
  induction streams as [|[k paths] r IH]; intros s c Hk; simpl; [exact Hk|].
  destruct (negb _); [apply IH, Hk|].
  destruct (add_sized s [] paths) as [parts|] eqn:E; [|exact Hk].
  pose proof (partitions_kept parts s c Hk (add_sized_ok s paths [] parts Hk (fun _ _ H => match H with end) E)) as H.
  destruct (compact_partitions s c parts) as [s' c'|s']; [apply IH, H | exact H].
Qed.

Lemma compact_kept base_path s s' :
  kept s -> compact_reservoir base_path s = inr s' -> kept s'.
Proof.
  intros Hk; unfold compact_reservoir.
  destruct (lock s); [discriminate|].
  cbn [index with_lock].
  destruct (index s) as [ix|]; [|intros H; inversion H; subst; exact Hk].
  pose proof (streams_kept (istreams ix) (with_lock s (Some "compaction in progress")) false Hk) as H2.
  destruct (compact_streams _ false (istreams ix)) as [s2 c|s2]; simpl in H2;
    [destruct c|]; intros H; inversion H; subst; exact H2.
Qed.
End Big.

(** *** A merge phase that reports no change did not touch the store *)

Lemma drain_unchanged pending : forall s c q qb s',
  drain s c q qb pending = Finished s' false -> s' = s /\ c = false.
Proof.
  induction pending as [|[x sz] r IH]; intros s c q qb s'; simpl.
  - destruct q as [|y q']; [intros H; inversion H; auto|].
    destruct (merge s _); discriminate.
  - destruct (threshold <? qb + sz).
    + destruct (merge s (q ++ [x])) as [s1|]; [|discriminate].
      intros H; apply IH in H as [_ H]; discriminate.
    + apply IH.
Qed.

Lemma partition_unchanged s c pws s' :
  compact_partition s c pws = Finished s' false -> s' = s /\ c = false.
Proof.
  unfold compact_partition; destruct (List.length _ <? 2)%nat;
    [intros H; inversion H; auto | apply drain_unchanged].
Qed.

Lemma partitions_unchanged parts : forall s c s',
  compact_partitions s c parts = Finished s' false -> s' = s /\ c = false.
Proof.
  induction parts as [|[sch pws] r IH]; intros s c s'; simpl; [intros H; inversion H; auto|].
  destruct (compact_partition s c pws) as [s1 c1|s1] eqn:E; [|discriminate].
  intros H; apply IH in H as [-> ->]; apply partition_unchanged in E as [-> ->]; auto.
Qed.

Lemma streams_unchanged streams : forall s c s',
  compact_streams s c streams = Finished s' false -> s' = s /\ c = false.
Proof.
  induction streams as [|[k paths] r IH]; intros s c s'; simpl; [intros H; inversion H; auto|].
  destruct (negb _); [apply IH|].
  destruct (add_sized s [] paths) as [parts|]; [|discriminate].
  destruct (compact_partitions s c parts) as [s1 c1|s1] eqn:E; [|discriminate].
  intros H; apply IH in H as [-> ->]; apply partitions_unchanged in E as [-> ->]; auto.
Qed.
End Compaction.

Module HashFacts.
Import Py StreamMap.

Definition is_scalar (v : json) : bool :=
  match v with JArr _ | JObj _ => false | _ => true end.

Definition users_record : record_msg :=
  {| rstream := "users"; record := [("email", JStr "a@b"); ("id", JInt 1)] |}.

Definition users_schema : schema_msg :=
  {| sstream := "users";
     properties := [("email", JObj [("type", JStr "string")]);
                    ("id", JObj [("type", JStr "integer")])] |}.

Lemma record_apply_scalar select tr v crumb :
  is_scalar v = true ->
  recursive_record_apply select tr v crumb
  = if crumb_selected select crumb then tr v else v.
Proof. destruct v; simpl; try discriminate; reflexivity. Qed.

Lemma lookup_map_pairs {A B} (g : string -> A -> B) k (l : list (string * A)) :
  lookup k (map (fun '(k', v) => (k', g k' v)) l)
  = match lookup k l with Some v => Some (g k v) | None => None end.
Proof.
  induction l as [|[k' v] r IH]; simpl; [reflexivity|].
  destruct (String.eqb_spec k k') as [->|Hne]; [reflexivity | exact IH].
Qed.

Lemma transform_props_lookup select stream ps : forall ps' k p p',
  transform_props select stream ps = Some ps' ->
  lookup k ps = Some p ->
  recursive_schema_apply select (fun _ => hash_schema) p (stream ++ "." ++ k)%string = Some p' ->
  lookup k ps' = Some p'.
Proof.
  induction ps as [|[k0 p0] r IH]; intros ps' k p p'; simpl; [discriminate|].
  destruct (recursive_schema_apply _ _ p0 _) as [q0|] eqn:E0; [|discriminate].
  destruct (transform_props select stream r) as [r'|] eqn:Er; [|discriminate].
  intros H; inversion H; subst; simpl.
  destruct (String.eqb_spec k k0) as [->|Hne].
  - intros Hp; inversion Hp; subst; rewrite E0; intros Hq; exact Hq.
  - intros Hp Hq; exact (IH r' k p p' eq_refl Hp Hq).
Qed.

Lemma schema_apply_leaf select kvs crumb :
  is_str "object" (get "type" kvs) = false -> is_str "array" (get "type" kvs) = false ->
  recursive_schema_apply select (fun _ => hash_schema) (JObj kvs) crumb
  = Some (if crumb_selected select crumb then hash_schema else JObj kvs).
Proof.
  intros Ho Ha; unfold recursive_schema_apply; simpl; rewrite Ho, Ha.
  destruct (crumb_selected select crumb); reflexivity.
Qed.
(** *** Leaves at any depth *)

Section JsonNestedInd.
Variable P : json -> Prop.
Hypothesis Hnull : P JNull.
Hypothesis Hbool : forall b, P (JBool b).
Hypothesis Hint : forall z, P (JInt z).
Hypothesis Hstr : forall s, P (JStr s).
Hypothesis Harr : forall l, Forall P l -> P (JArr l).
Hypothesis Hobj : forall l, Forall (fun kv => P (snd kv)) l -> P (JObj l).

Fixpoint json_nested_ind (v : json) : P v :=
  match v with
  | JNull => Hnull
  | JBool b => Hbool b
  | JInt z => Hint z
  | JStr s => Hstr s
  | JArr l =>
      Harr l ((fix go (l : list json) : Forall P l :=
                 match l with
                 | [] => Forall_nil _
                 | x :: r => Forall_cons x (json_nested_ind x) (go r)
                 end) l)
  | JObj l =>
      Hobj l ((fix go (l : list (string * json)) : Forall (fun kv => P (snd kv)) l :=
                 match l with
                 | [] => Forall_nil _
                 | (k, x) :: r => Forall_cons (k, x) (json_nested_ind x) (go r)
                 end) l)
  end.
End JsonNestedInd.

(** A step into a value: [value[k]] on a dict, [value[n]] on a list. *)
Inductive path_step := Key (k : string) | Idx (n : nat).

Fixpoint json_at (v : json) (p : list path_step) : option json :=
  match p with
  | [] => Some v
  | Key k :: r =>
      match v with
      | JObj kvs => match lookup k kvs with Some x => json_at x r | None => None end
      | _ => None
      end
  | Idx n :: r =>
      match v with
      | JArr xs => match nth_error xs n with Some x => json_at x r | None => None end
      | _ => None
      end
  end.

(** The crumb [recursive_record_apply] passes down a path: a dict key adds
    [.k], a list position adds nothing. *)
Definition crumb_of (crumb : string) (p : list path_step) : string :=
  fold_left (fun c st => match st with Key k => (c ++ "." ++ k)%string | Idx _ => c end) p crumb.

(** A value with every scalar replaced by [null]: its dict keys and list
    lengths, at every depth. *)
Fixpoint skeleton (v : json) : json :=
  match v with
  | JArr xs => JArr (map skeleton xs)
  | JObj kvs => JObj (map (fun '(k, x) => (k, skeleton x)) kvs)
  | _ => JNull
  end.

Lemma record_apply_obj select tr kvs crumb :
  recursive_record_apply select tr (JObj kvs) crumb
  = JObj (map (fun '(k, x) => (k, recursive_record_apply select tr x (crumb ++ "." ++ k)%string)) kvs).
Proof.
  first [reflexivity | simpl; f_equal; induction kvs as [|[k x] r IH]; simpl; [reflexivity | rewrite IH; reflexivity]].
Qed.

Lemma record_apply_arr select tr xs crumb :
  recursive_record_apply select tr (JArr xs) crumb
  = JArr (map (fun x => recursive_record_apply select tr x crumb) xs).
Proof.
  first [reflexivity | simpl; f_equal; induction xs as [|x r IH]; simpl; [reflexivity | rewrite IH; reflexivity]].
Qed.

Lemma record_apply_path select tr p : forall v crumb leaf,
  json_at v p = Some leaf -> is_scalar leaf = true ->
  json_at (recursive_record_apply select tr v crumb) p
  = Some (if crumb_selected select (crumb_of crumb p) then tr leaf else leaf).
Proof.
  induction p as [|[k|n] r IH]; intros v crumb leaf Hp Hs.
  - simpl in Hp; inversion Hp; subst; simpl.
    rewrite record_apply_scalar by exact Hs; reflexivity.
  - destruct v as [| | | |xs|kvs]; simpl in Hp; try discriminate.
    rewrite record_apply_obj; simpl.
    rewrite (lookup_map_pairs (fun k' x => recursive_record_apply select tr x (crumb ++ "." ++ k')%string)).
    destruct (lookup k kvs) as [x|]; [|discriminate].
    exact (IH x _ leaf Hp Hs).
  - destruct v as [| | | |xs|kvs]; simpl in Hp; try discriminate.
    rewrite record_apply_arr; simpl; rewrite nth_error_map.
    destruct (nth_error xs n) as [x|]; [|discriminate]; simpl.
    exact (IH x crumb leaf Hp Hs).
Qed.

Lemma skeleton_scalar v : is_scalar v = true -> skeleton v = JNull.
Proof. destruct v; simpl; try discriminate; reflexivity. Qed.

Lemma record_apply_skeleton select tr :
  (forall v, is_scalar (tr v) = true) ->
  forall v crumb, skeleton (recursive_record_apply select tr v crumb) = skeleton v.
Proof.
  intros Htr v; pattern v; apply json_nested_ind; clear v;
    try (intros until crumb; rewrite record_apply_scalar by reflexivity;
         destruct (crumb_selected select crumb); [apply skeleton_scalar, Htr | reflexivity]).
  - intros l HF crumb; rewrite record_apply_arr; simpl; f_equal.
    rewrite map_map; induction HF as [|x r Hx Hr IHr]; simpl; [reflexivity|].
    rewrite Hx, IHr; reflexivity.
  - intros l HF crumb; rewrite record_apply_obj; simpl; f_equal.
    rewrite map_map; induction HF as [|[k x] r Hx Hr IHr]; simpl; [reflexivity|].
    simpl in Hx; rewrite Hx, IHr; reflexivity.
Qed.

(** [HashStreamMap.transform_record] is [recursive_record_apply] on the
    record dict with the stream name as crumb. *)
Lemma transform_record_as_apply select m :
  JObj (transform_record select m).(record)
  = recursive_record_apply select pii_hash (JObj m.(record)) m.(rstream).
Proof. rewrite record_apply_obj; reflexivity. Qed.

(** A record with a nested dict and a list. *)
Definition nested_record : record_msg :=
  {| rstream := "users";
     record := [("contact", JObj [("email", JStr "a@b"); ("phones", JArr [JStr "555"; JInt 7])]);
                ("id", JInt 1)] |}.
End HashFacts.

(** * Properties *)

Module EmitterFacts.
Import Emitter.

Definition scenario_state : emit_state := {| version := 3; bookmarks := [("s", "a.gz")] |}.
Definition scenario_index : index :=
  {| iversion := 4;
     istreams := [("s", ["reservoir/dev/tap-x/s/S/b.gz"; "reservoir/dev/tap-x/s/S/c.gz"])] |}.

(** C1 (code_bug).  Spec scenario 4: prior state [{__version__:3, s:{emitted:"a.gz"}}],
    index [{__version__:4, s:[b.gz, c.gz]}].  Reconciliation moves the
    bookmark to ["c.gz"], the greatest filename of the index, not the
    greatest one at or below ["a.gz"]; the emission then sends nothing,
    whatever the objects hold, and ends with [emitted = "c.gz"]. *)
Theorem reconcile_scenario_skips_unemitted :
  forall s : store,
    reconcile scenario_state scenario_index
      = {| version := 4; bookmarks := [("s", "c.gz")] |}
    /\ reservoir_to_target s scenario_state scenario_index
      = Some ([], {| version := 4; bookmarks := [("s", "c.gz")] |}).
Proof. intros s; split; vm_compute; reflexivity. Qed.

End EmitterFacts.

Module IngestFacts.
Import Roundtrip.

(** C2 (code_bug).  A tap emits SCHEMA(s, A), RECORD r1, SCHEMA(s, B), RECORD r2
    (below the flush threshold).  The second SCHEMA replaces the whole
    [record_buffer["s"]] dict, so the buffered r1 is never flushed: the
    target receives r2 only. *)
Theorem ingest_emit_loses_record_of_earlier_schema :
  records_of example_loads "s" ["S1"; "R1"; "S2"; "R2"] = ["R1"; "R2"]
  /\ ingest_then_emit example_loads example_ts RESERVOIR_BUFFER_SIZE "reservoir/dev/tap-x"
       ["S1"; "R1"; "S2"; "R2"] = Some ["S2"; "R2"]
  /\ records_of example_loads "s" ["S2"; "R2"] = ["R2"].
Proof. vm_compute. repeat split. Qed.

(** C3 (code_bug).  The [except json.JSONDecodeError: pass] does not skip the
    line: after SCHEMA and RECORD lines, a non-JSON line is handled as the
    previous RECORD again, so it is written into the batch and counted; as
    the first line it raises (UnboundLocalError on [message]). *)
Theorem invalid_json_line_not_dropped :
  (exists st,
      Ingest.reservoir_ingestor example_loads example_ts "reservoir/dev/tap-x"
        RESERVOIR_BUFFER_SIZE [] ["S1"; "R1"; "not json"] [] [] [] None = inr st
      /\ example_loads "not json" = None
      /\ Py.lookup "reservoir/dev/tap-x/s/ca9418770c07899/20240101000000000001.singer.gz"
           st.(Ingest.objects) = Some ["S1"; "R1"; "not json"])
  /\ (exists st,
      Ingest.reservoir_ingestor example_loads example_ts "reservoir/dev/tap-x"
        RESERVOIR_BUFFER_SIZE [] ["not json"; "S1"; "R1"] [] [] [] None
        = inl (Ingest.UnboundLocalError "message", st)).
Proof. split; eexists; vm_compute; repeat split. Qed.

End IngestFacts.

Module LockFacts.
Import Reservoir.

Definition no_index_store : store := {| lock := None; index := None; objects := [] |}.

(** C6 (code_bug).  [compact_reservoir] takes the lock and, when the index is
    missing, returns before its [try ... finally] that deletes the lock: the
    lock stays and every later compaction or ingest fails fast.  The
    ingestor ([tap_to_reservoir]), by contrast, always deletes the lock it
    took, whether the ingest succeeds or raises. *)
Theorem compact_missing_index_keeps_lock :
  (exists s1,
      compact_reservoir "reservoir/dev/tap-x" no_index_store = inr s1
      /\ s1.(lock) = Some "compaction in progress"
      /\ compact_reservoir "reservoir/dev/tap-x" s1 = inl LockExists
      /\ fst (tap_to_reservoir Roundtrip.example_loads Roundtrip.example_ts 1 [] (fun _ => 0%Z)
                "reservoir/dev/tap-x" "pipeline" ["S1"; "R1"] [] s1) = inl LockExists)
  /\ (forall json_loads utc_ts buffer_size mappers gzip_size base_path pipeline_id lines states s,
        s.(lock) = None ->
        (snd (tap_to_reservoir json_loads utc_ts buffer_size mappers gzip_size base_path
                pipeline_id lines states s)).(lock) = None).
Proof.
  split.
  - exists (with_lock no_index_store (Some "compaction in progress")).
    vm_compute; repeat split.
  - intros json_loads utc_ts buffer_size mappers gzip_size base_path pipeline_id lines states s H.
    unfold tap_to_reservoir; rewrite H.
    destruct (Ingest.reservoir_ingestor _ _ _ _ _ _ _ _ _ _) as [[e st]|st]; reflexivity.
Qed.

End LockFacts.

Module PipelineFacts.
Import Pipeline.

Definition example_paths : pipeline_paths :=
  {| tap_bin := "bin/tap"; tap_config := "config/tap.json"; tap_catalog := "catalog/tap.json";
     target_bin := "bin/target"; target_config := "config/target.json";
     state := "state/tap-target.json"; state_is_file := false;
     supports_state := true; supports_catalog := true; supports_properties := false |}.

(** C8 (code_bug).  When the tap exits 0 and the target exits 1, the raised
    [CalledProcessError] carries the target's return code but the tap's
    command: both raise sites pass [cmd], the tap command. *)
Theorem target_failure_reports_tap_command :
  run_pipeline example_paths 0 1
    = inl (CalledProcessError 1 ["bin/tap"; "--config"; "config/tap.json";
                                 "--catalog"; "catalog/tap.json"])
  /\ tap_command example_paths <> target_command example_paths
  /\ run_pipeline example_paths 0 1
     <> inl (CalledProcessError 1 (target_command example_paths)).
Proof. vm_compute. split; [reflexivity | split; intros H; discriminate H]. Qed.

End PipelineFacts.

Module SchemaOrderFacts.
Import Py Ingest IngestSafety Roundtrip.

(** C10 (confirmed).  A RECORD for a stream with no buffer yet (no SCHEMA
    processed for it in this run) makes the ingest loop raise KeyError on that
    stream, with nothing of the line applied, and a whole run starting with
    such a RECORD fails; conversely, when every RECORD line of a stream is
    preceded by a SCHEMA line of that stream (and the stream maps keep each
    message's kind and stream), the loop never raises a KeyError, so the
    RECORD branch's lookups always succeed. *)
Theorem record_before_schema_key_error :
  (forall json_loads utc_ts base_path buffer_size mappers st prev l rest stream r,
      json_loads l = Some (MRecord stream r) ->
      lookup stream st.(record_buffer) = None ->
      loop json_loads utc_ts base_path buffer_size mappers st prev (l :: rest)
      = inl (KeyError stream, st))
  /\ (exists st,
        reservoir_ingestor example_loads example_ts "reservoir/dev/tap-x"
          RESERVOIR_BUFFER_SIZE [] ["R1"; "S1"; "R2"] [] [] [] None
        = inl (KeyError "s", st))
  /\ (forall json_loads utc_ts base_path buffer_size mappers st prev lines,
        shape_preserving mappers ->
        schema_first json_loads [] lines = true ->
        prev_ok [] prev ->
        forall k st', loop json_loads utc_ts base_path buffer_size mappers st prev lines
                      <> inl (KeyError k, st')).
Proof.
  split; [|split].
  - intros json_loads utc_ts base_path buffer_size mappers st prev l rest stream r Hl Hn.
    simpl; unfold step; cbv zeta; rewrite Hl, Hn; reflexivity.
  - eexists; vm_compute; reflexivity.
  - intros json_loads utc_ts base_path buffer_size mappers st prev lines Hm Hs Hp.
    apply (loop_safe json_loads utc_ts base_path buffer_size mappers Hm lines st prev []);
      [exact Hs | intros s [] | exact Hp].
Qed.

Lemma record_before_schema_key_error_witness :
  example_loads "R1" = Some (MRecord "s" "1")
  /\ lookup "s" ([] : list (string * list (string * container))) = None
  /\ shape_preserving []
  /\ schema_first example_loads [] ["S1"; "R1"; "not json"; "S2"; "R2"] = true
  /\ prev_ok [] None
  /\ loop example_loads example_ts "reservoir/dev/tap-x" RESERVOIR_BUFFER_SIZE []
       {| record_buffer := []; active_schemas := []; reservoir := []; objects := [];
          stream_states := []; state_file := None; flushes := 0 |} None ["R1"; "S1"]
     = inl (KeyError "s", {| record_buffer := []; active_schemas := []; reservoir := [];
                              objects := []; stream_states := []; state_file := None;
                              flushes := 0 |})
  /\ (forall k st', loop example_loads example_ts "reservoir/dev/tap-x" RESERVOIR_BUFFER_SIZE []
       {| record_buffer := []; active_schemas := []; reservoir := []; objects := [];
          stream_states := []; state_file := None; flushes := 0 |} None
       ["S1"; "R1"; "not json"; "S2"; "R2"] <> inl (KeyError k, st')).
Proof.
  split; [reflexivity|]. split; [reflexivity|]. split; [intros mp m []|].
  split; [reflexivity|]. split; [exact I|]. split.
  - apply (proj1 record_before_schema_key_error) with (r := "1"); reflexivity.
  - apply (proj2 (proj2 record_before_schema_key_error));
      [intros mp m [] | reflexivity | exact I].
Defined.
End SchemaOrderFacts.

Module SelectionFacts.
Import Py Catalog CatalogSelection.



End SelectionFacts.

Module CompactionFacts.
Import Py Reservoir Compaction.
Open Scope Z_scope.

(** C4 (counterexample).  Two 25,000,000-byte files are each below 25 MiB
    (26,214,400 bytes) and together above it, yet the compactor leaves them
    alone: its threshold is [2.5e7] bytes, and neither file is below it. *)
Lemma files_below_25MiB_not_compacted :
  25000000 < 25 * mib /\ 25 * mib < 25000000 + 25000000
  /\ compact_reservoir ex_base big_store = inr big_store
  /\ lookup ex_a big_store.(objects) = Some {| osize := 25000000; olines := ["H"; "ra"] |}.
Proof. vm_compute; repeat split; reflexivity. Qed.

(** C4 (amended).  The compactable files are those below [2.5e7] bytes,
    and a file of at least [2.5e7] bytes is never changed by a compaction.  A
    merge of a queue of distinct paths writes the concatenation of their
    contents, in sorted path order, to the last path in sorted order, deletes
    the other queued paths and leaves every other object alone.  On the
    example (5 MiB [a], 5 MiB [b], 30 MiB [c], version 3), [a] and [b] are
    merged into [b], [a] is deleted, [c] is unchanged and the version becomes 4. *)
Theorem compaction_threshold_and_merge :
  threshold = 25000000
  /\ (forall base_path s s' p o,
        compact_reservoir base_path s = inr s' ->
        lookup p s.(objects) = Some o -> threshold <= o.(osize) ->
        lookup p s'.(objects) = Some o)
  /\ (forall s q os,
        NoDup (keys s.(objects)) -> NoDup q -> q <> [] -> cat_many s (sorted q) = Some os ->
        exists s', merge s q = Some s'
          /\ lookup (last (sorted q) "") s'.(objects)
             = Some {| osize := fold_left (fun a o => a + o.(osize)) os 0;
                       olines := flat_map olines os |}
          /\ (forall x, In x q -> x <> last (sorted q) "" -> lookup x s'.(objects) = None)
          /\ (forall x, ~ In x q -> lookup x s'.(objects) = lookup x s.(objects)))
  /\ (exists s', compact_reservoir ex_base ex_store = inr s'
        /\ lookup ex_b s'.(objects) = Some {| osize := 10 * mib; olines := ["H"; "ra"; "H"; "rb"] |}
        /\ lookup ex_a s'.(objects) = None
        /\ lookup ex_c s'.(objects) = lookup ex_c ex_store.(objects)
        /\ ver s' = 4).
Proof.
  split; [reflexivity|]. split; [|split].
  - intros base_path s s' p o Hc Hp Hbig; exact (compact_kept p o Hbig base_path s s' Hp Hc).
  - intros s q os Hd Hq Hne Hc.
    destruct (merge_spec s q os Hd Hq Hne Hc) as (s' & H1 & H2 & H3 & H4 & _).
    exists s'; auto.
  - eexists; split; [vm_compute; reflexivity|]. vm_compute; repeat split.
Qed.

Lemma compaction_threshold_and_merge_witness :
  lookup ex_c ex_store.(objects) = Some {| osize := 30 * mib; olines := ["H"; "rc"] |}
  /\ threshold <= 30 * mib
  /\ compact_reservoir ex_base ex_store
     = inr (match compact_reservoir ex_base ex_store with inr s' => s' | inl _ => ex_store end)
  /\ lookup ex_c (match compact_reservoir ex_base ex_store with
                  | inr s' => s' | inl _ => ex_store end).(objects)
     = Some {| osize := 30 * mib; olines := ["H"; "rc"] |}.
Proof.
  split; [reflexivity|]. split; [vm_compute; discriminate|]. split; [vm_compute; reflexivity|].
  apply (proj1 (proj2 compaction_threshold_and_merge) ex_base ex_store);
    [vm_compute; reflexivity | reflexivity | vm_compute; discriminate].
Defined.

(** C5.  Take a compaction that runs on an index ([compact_reservoir] returns
    normally and the index exists).  If the merge phase changed files or
    raised, the index version becomes the prior version plus one.  Otherwise
    the index and the objects are as before.  So a single compaction never
    lowers the version, nor does any sequence of compactions. *)
Theorem compaction_version_monotone :
  (forall base_path s ix s',
      s.(index) = Some ix -> compact_reservoir base_path s = inr s' ->
      let ph := compact_streams (with_lock s (Some "compaction in progress")) false ix.(istreams) in
      (phase_changed ph = true -> ver s' = ver s + 1)
      /\ (phase_changed ph = false -> s'.(index) = s.(index) /\ s'.(objects) = s.(objects)))
  /\ (forall base_path s s', compact_reservoir base_path s = inr s' -> ver s <= ver s')
  /\ (forall base_path n s, ver s <= ver (compact_seq base_path n s)).
Proof.
  assert (Hstep : forall base_path s ix s',
      s.(index) = Some ix -> compact_reservoir base_path s = inr s' ->
      let ph := compact_streams (with_lock s (Some "compaction in progress")) false ix.(istreams) in
      (phase_changed ph = true -> ver s' = ver s + 1)
      /\ (phase_changed ph = false -> s'.(index) = s.(index) /\ s'.(objects) = s.(objects))).
  { intros base_path s ix s' Hix Hc ph.
    unfold compact_reservoir in Hc.
    destruct (lock s); [discriminate|].
    cbn [index with_lock] in Hc; rewrite Hix in Hc.
    unfold ph; destruct (compact_streams _ false (istreams ix)) as [s2 c|s2] eqn:E.
    - destruct c; inversion Hc; subst; simpl.
      + split; [intros _|discriminate].
        unfold ver; simpl; rewrite Hix; reflexivity.
      + split; [discriminate|intros _].
        apply streams_unchanged in E as [-> _]; simpl; auto.
    - inversion Hc; subst; simpl.
      split; [intros _|discriminate].
      unfold ver; simpl; rewrite Hix; reflexivity. }
  assert (Hmono : forall base_path s s', compact_reservoir base_path s = inr s' -> ver s <= ver s').
  { intros base_path s s' Hc.
    destruct (index s) as [ix|] eqn:Hix.
    - destruct (Hstep base_path s ix s' Hix Hc) as [H1 H2].
      destruct (phase_changed _); [rewrite H1 by reflexivity; lia|].
      destruct (H2 eq_refl) as [Hi _]; unfold ver; rewrite Hi; lia.
    - unfold compact_reservoir in Hc; destruct (lock s); [discriminate|].
      cbn [index with_lock] in Hc; rewrite Hix in Hc; inversion Hc; subst.
      unfold ver; simpl; rewrite Hix; lia. }
  split; [exact Hstep|]. split; [exact Hmono|].
  intros base_path n; induction n as [|n IH]; intros s; simpl; [lia|].
  destruct (compact_reservoir base_path s) as [e|s'] eqn:Hc; [apply IH|].
  specialize (IH s'); specialize (Hmono base_path s s' Hc); lia.
Qed.

Lemma compaction_version_monotone_witness :
  ex_store.(index) = Some {| iversion := Some 3; istreams := [("s", [ex_a; ex_b; ex_c])] |}
  /\ compact_reservoir ex_base ex_store
     = inr (match compact_reservoir ex_base ex_store with inr s' => s' | inl _ => ex_store end)
  /\ ver (match compact_reservoir ex_base ex_store with inr s' => s' | inl _ => ex_store end)
     = ver ex_store + 1.
Proof.
  split; [reflexivity|]. split; [vm_compute; reflexivity|].
  apply (proj1 (proj1 compaction_version_monotone ex_base ex_store _ _ eq_refl
                 ltac:(vm_compute; reflexivity))).
  vm_compute; reflexivity.
Defined.
End CompactionFacts.

Module PiiHashFacts.
Import Py StreamMap HashFacts.

(** C9 (counterexample).  The hashed email of the example is the md5 hex
    digest of [a@b], not [ab53a2911ddf9b4817ac01ddcd3d975f]. *)
Lemma example_email_digest_differs :
  hash_rules ["*.*"; "~users.email"] = ["users.email"]
  /\ lookup "email" (transform_record (hash_rules ["*.*"; "~users.email"]) users_record).(record)
     <> Some (JStr "ab53a2911ddf9b4817ac01ddcd3d975f").
Proof. vm_compute; split; [reflexivity | discriminate]. Qed.

(** C9 (amended).  The PII hasher replaces every scalar leaf of a record,
    at any depth through nested dicts and lists, whose crumb matches a hash
    rule by the hex digest [md5(str(v))], and keeps an unmatched one; the
    crumb is the stream name followed by the dict keys on the path, joined
    with [.] (list positions add nothing).  Dict keys and list lengths are
    kept at every depth.  The hasher is deterministic ([str(v) = str(w)]
    gives equal outputs).  A top-level schema property that is neither an object nor an
    array and whose crumb matches becomes [{type: string, format: hash}].  For
    the rules of [["*.*"; "~users.email"]] and the record [{email: "a@b", id: 1}],
    the email becomes [a1ca0ed6e42a23f4758e8a3f6b54de58], the id stays, and
    the email's schema becomes the hash schema; a nested [contact.email] and
    the elements of a nested [contact.phones] list are hashed the same way. *)
Theorem pii_hash_fields :
  (forall select m k v,
      lookup k m.(record) = Some v -> is_scalar v = true ->
      lookup k (transform_record select m).(record)
      = Some (if crumb_selected select (m.(rstream) ++ "." ++ k)%string
              then JStr (MD5.md5_hexdigest (py_str v)) else v))
  /\ (forall select m p leaf,
        json_at (JObj m.(record)) p = Some leaf -> is_scalar leaf = true ->
        json_at (JObj (transform_record select m).(record)) p
        = Some (if crumb_selected select (crumb_of m.(rstream) p)
                then JStr (MD5.md5_hexdigest (py_str leaf)) else leaf))
  /\ (forall select m,
        skeleton (JObj (transform_record select m).(record)) = skeleton (JObj m.(record)))
  /\ (forall select crumb v w,
        is_scalar v = true -> is_scalar w = true -> py_str v = py_str w ->
        crumb_selected select crumb = true ->
        recursive_record_apply select pii_hash v crumb
        = recursive_record_apply select pii_hash w crumb)
  /\ (forall select m m' k kvs,
        transform_schema select m = Some m' ->
        lookup k m.(properties) = Some (JObj kvs) ->
        is_str "object" (get "type" kvs) = false -> is_str "array" (get "type" kvs) = false ->
        crumb_selected select (m.(sstream) ++ "." ++ k)%string = true ->
        lookup k m'.(properties) = Some hash_schema)
  /\ transform_record (hash_rules ["*.*"; "~users.email"]) users_record
     = {| rstream := "users";
          record := [("email", JStr "a1ca0ed6e42a23f4758e8a3f6b54de58"); ("id", JInt 1)] |}
  /\ transform_schema (hash_rules ["*.*"; "~users.email"]) users_schema
     = Some {| sstream := "users";
               properties := [("email", hash_schema); ("id", JObj [("type", JStr "integer")])] |}
  /\ transform_record (hash_rules ["*.*"; "~users.contact.email"; "~users.contact.phones"]) nested_record
     = {| rstream := "users";
          record := [("contact",
                      JObj [("email", JStr "a1ca0ed6e42a23f4758e8a3f6b54de58");
                            ("phones", JArr [JStr "15de21c670ae7c3f6f3f1f37029303c9";
                                             JStr "8f14e45fceea167a5a36dedd4bea2543"])]);
                     ("id", JInt 1)] |}.
Proof.
  split; [|split; [|split; [|split; [|split; [|split; [|split]]]]]].
  - intros select m k v Hk Hs; unfold transform_record; simpl.
    rewrite (lookup_map_pairs (fun k' v' => recursive_record_apply select pii_hash v'
                                              (rstream m ++ "." ++ k')%string)), Hk.
    rewrite record_apply_scalar by exact Hs; reflexivity.
  - intros select m p leaf Hp Hs; rewrite transform_record_as_apply.
    exact (record_apply_path select pii_hash p _ _ leaf Hp Hs).
  - intros select m; rewrite transform_record_as_apply.
    apply record_apply_skeleton; reflexivity.
  - intros select crumb v w Hv Hw Heq Hsel.
    rewrite !record_apply_scalar by assumption; rewrite Hsel.
    unfold pii_hash; rewrite Heq; reflexivity.
  - intros select m m' k kvs Hm Hk Ho Ha Hsel.
    unfold transform_schema in Hm.
    destruct (transform_props select (sstream m) (properties m)) as [ps|] eqn:E; [|discriminate].
    inversion Hm; subst; simpl.
    apply (transform_props_lookup select (sstream m) (properties m) ps k (JObj kvs)); auto.
    rewrite schema_apply_leaf, Hsel by assumption; reflexivity.
  - vm_compute; reflexivity.
  - vm_compute; reflexivity.
  - vm_compute; reflexivity.
Qed.

Lemma pii_hash_fields_witness :
  lookup "email" users_record.(record) = Some (JStr "a@b")
  /\ lookup "email" (transform_record ["users.email"] users_record).(record)
     = Some (JStr (MD5.md5_hexdigest "a@b"))
  /\ json_at (JObj nested_record.(record)) [Key "contact"; Key "phones"; Idx 1] = Some (JInt 7)
  /\ json_at (JObj (transform_record ["users.contact.phones"] nested_record).(record))
       [Key "contact"; Key "phones"; Idx 1]
     = Some (JStr (MD5.md5_hexdigest "7")).
Proof.
  split; [reflexivity|]. split.
  - exact (proj1 pii_hash_fields ["users.email"] users_record "email" (JStr "a@b") eq_refl eq_refl).
  - split; [reflexivity|].
    exact (proj1 (proj2 pii_hash_fields) ["users.contact.phones"] nested_record
             [Key "contact"; Key "phones"; Idx 1] (JInt 7) eq_refl eq_refl).
Defined.
End PiiHashFacts.

(** * Further properties *)

(** ** Deep merge *)
Module MergeFacts.
Import Py PyFacts StreamMap Utils.

(** Nested induction over JSON values. *)
Section JsonInd.
Variable P : json -> Prop.
Hypothesis Hnull : P JNull.
Hypothesis Hbool : forall b, P (JBool b).
Hypothesis Hint : forall z, P (JInt z).
Hypothesis Hstr : forall s, P (JStr s).
Hypothesis Harr : forall l, Forall P l -> P (JArr l).
Hypothesis Hobj : forall l, Forall (fun kv => P (snd kv)) l -> P (JObj l).

Fixpoint json_ind' (v : json) : P v :=
  match v with
  | JNull => Hnull
  | JBool b => Hbool b
  | JInt z => Hint z
  | JStr s => Hstr s
  | JArr l =>
      Harr l ((fix go (l : list json) : Forall P l :=
                 match l with
                 | [] => Forall_nil _
                 | x :: r => Forall_cons x (json_ind' x) (go r)
                 end) l)
  | JObj l =>
      Hobj l ((fix go (l : list (string * json)) : Forall (fun kv => P (snd kv)) l :=
                 match l with
                 | [] => Forall_nil _
                 | (k, x) :: r => Forall_cons (k, x) (json_ind' x) (go r)
                 end) l)
  end.
End JsonInd.

(** Decoded JSON: the keys of every dict reached through dict values are
    distinct. *)
Fixpoint nodupb (l : list string) : bool :=
  match l with
  | [] => true
  | x :: r => negb (existsb (String.eqb x) r) && nodupb r
  end.

Fixpoint keys_unique (v : json) : bool :=
  match v with
  | JObj l =>
      nodupb (map fst l)
      && (fix go (l : list (string * json)) : bool :=
            match l with
            | [] => true
            | (_, x) :: r => keys_unique x && go r
            end) l
  | _ => true
  end.

(** What [merge] leaves at a key of the source, from the old value there. *)
Definition merge_entry (v : json) (old : option json) : json :=
  match v with
  | JObj sv =>
      match old with
      | Some (JObj dv) => JObj (merge sv dv)
      | Some _ => v
      | None => JObj (merge sv [])
      end
  | _ => v
  end.

(** One iteration of the loop of [merge]. *)
Definition merge_step (key : string) (value : json) (dest : list (string * json)) :=
  match value with
  | JObj _ =>
      match lookup key dest with
      | Some (JObj node) => set key (JObj (merge_value value node)) dest
      | Some _ => set key value dest
      | None => set key (JObj (merge_value value [])) dest
      end
  | _ => set key value dest
  end.

(** The keys after inserting [ks] in order into a dict with keys [acc]. *)
Fixpoint add_keys (ks acc : list string) : list string :=
  match ks with
  | [] => acc
  | k :: r => add_keys r (if existsb (String.eqb k) acc then acc else acc ++ [k])
  end.

Lemma nodupb_spec l : nodupb l = true <-> NoDup l.
Proof.
  induction l as [|x r IH]; simpl.
  - split; [constructor | reflexivity].
  - rewrite andb_true_iff, negb_true_iff, IH; split.
    + intros [Hx Hr]; constructor; [|exact Hr].
      intros Hin; assert (E : existsb (String.eqb x) r = true)
        by (apply existsb_exists; exists x; split; [exact Hin | apply String.eqb_refl]).
      rewrite Hx in E; discriminate.
    + intros Hn; inversion Hn as [|? ? Hx Hr]; subst; split; [|exact Hr].
      destruct (existsb (String.eqb x) r) eqn:E; [|reflexivity].
      apply existsb_exists in E as [y [Hy Ey]]; apply String.eqb_eq in Ey; subst; contradiction.
Qed.

Lemma existsb_eqb_in k l : existsb (String.eqb k) l = true <-> In k l.
Proof.
  rewrite existsb_exists; split.
  - intros [y [Hy E]]; apply String.eqb_eq in E; subst; exact Hy.
  - intros Hin; exists k; split; [exact Hin | apply String.eqb_refl].
Qed.

Lemma keys_unique_obj l :
  keys_unique (JObj l) = true <->
  NoDup (map fst l) /\ (forall k x, In (k, x) l -> keys_unique x = true).
Proof.
  simpl; rewrite andb_true_iff, nodupb_spec.
  assert (E : (fix go (l : list (string * json)) : bool :=
                 match l with [] => true | (_, x) :: r => keys_unique x && go r end) l = true
              <-> (forall k x, In (k, x) l -> keys_unique x = true)).
  { induction l as [|[k0 x0] r IH]; simpl.
    - split; [intros _ k x [] | reflexivity].
    - rewrite andb_true_iff, IH; split.
      + intros [H0 Hr] k x [E|Hin]; [inversion E; subst; exact H0 | exact (Hr k x Hin)].
      + intros H; split; [exact (H k0 x0 (or_introl eq_refl))|].
        intros k x Hin; exact (H k x (or_intror Hin)). }
  rewrite E; reflexivity.
Qed.

Lemma merge_nil d : merge [] d = d.
Proof. reflexivity. Qed.

Lemma merge_cons key value r d : merge ((key, value) :: r) d = merge r (merge_step key value d).
Proof. reflexivity. Qed.

Lemma keys_set_exact {A} k (v : A) d :
  map fst (set k v d) = if existsb (String.eqb k) (map fst d) then map fst d else map fst d ++ [k].
Proof.
  induction d as [|[k' v'] r IH]; simpl; [reflexivity|].

  destruct (String.eqb_spec k k') as [->|Hne]; simpl; [reflexivity|].
  rewrite IH; destruct (existsb _ _); reflexivity.
Qed.

Lemma merge_step_keys key value d :
  map fst (merge_step key value d) =
  if existsb (String.eqb key) (map fst d) then map fst d else map fst d ++ [key].
Proof.
  unfold merge_step; destruct value; try apply keys_set_exact.
  destruct (lookup key d) as [[]|]; apply keys_set_exact.
Qed.

Lemma merge_keys s : forall d, map fst (merge s d) = add_keys (map fst s) (map fst d).
Proof.
  induction s as [|[k v] r IH]; intros d; [reflexivity|].
  rewrite merge_cons, IH, merge_step_keys; reflexivity.
Qed.

Lemma add_keys_app ks : forall acc,
  NoDup acc -> NoDup (add_keys ks acc)
  /\ exists extra, add_keys ks acc = acc ++ extra /\ incl extra ks.
Proof.
  induction ks as [|k r IH]; intros acc Hacc; simpl.
  - split; [exact Hacc|]; exists []; split; [symmetry; apply app_nil_r | intros x []].
  - destruct (existsb (String.eqb k) acc) eqn:Ek.
    + destruct (IH acc Hacc) as [Hn [extra [E Hi]]]; split; [exact Hn|].
      exists extra; split; [exact E | intros x Hx; right; apply Hi, Hx].
    + assert (Hacc' : NoDup (acc ++ [k])).
      { apply NoDup_app; [exact Hacc | constructor; [intros [] | constructor] |].
        intros x Hx [E|[]]; subst x; apply (proj2 (existsb_eqb_in k acc)) in Hx; congruence. }
      destruct (IH _ Hacc') as [Hn [extra [E Hi]]]; split; [exact Hn|].
      exists (k :: extra); split; [rewrite E, <- app_assoc; reflexivity|].
      intros x [<-|Hx]; [left; reflexivity | right; apply Hi, Hx].
Qed.

Lemma add_keys_incl ks : forall acc, incl ks acc -> add_keys ks acc = acc.
Proof.
  induction ks as [|k r IH]; intros acc H; simpl; [reflexivity|].
  rewrite (proj2 (existsb_eqb_in k acc) (H k (or_introl eq_refl))).
  apply IH; intros x Hx; apply H; right; exact Hx.
Qed.

Lemma add_keys_contains ks : forall acc, incl ks (add_keys ks acc) /\ incl acc (add_keys ks acc).
Proof.
  induction ks as [|k r IH]; intros acc; simpl; [split; [intros x [] | intros x Hx; exact Hx]|].
  destruct (IH (if existsb (String.eqb k) acc then acc else acc ++ [k])) as [H1 H2].
  split.
  - intros x [E0|Hx]; [subst x|apply H1, Hx].
    apply H2; destruct (existsb (String.eqb k) acc) eqn:E.
    + apply existsb_eqb_in, E.
    + apply in_or_app; right; left; reflexivity.
  - intros x Hx; apply H2; destruct (existsb _ acc); [exact Hx | apply in_or_app; left; exact Hx].
Qed.

Lemma add_keys_fresh ks : forall acc, NoDup (acc ++ ks) -> add_keys ks acc = acc ++ ks.
Proof.
  induction ks as [|k r IH]; intros acc Hacc; simpl; [rewrite app_nil_r; reflexivity|].
  assert (Hk : existsb (String.eqb k) acc = false).
  { destruct (existsb (String.eqb k) acc) eqn:E; [|reflexivity].
    apply existsb_eqb_in in E; apply NoDup_remove_2 in Hacc.
    exfalso; apply Hacc, in_or_app; left; exact E. }
  rewrite Hk, IH; [rewrite <- app_assoc; reflexivity|].
  rewrite <- app_assoc; exact Hacc.
Qed.

Lemma add_keys_in ks : forall acc x, In x (add_keys ks acc) -> In x ks \/ In x acc.
Proof.
  induction ks as [|k r IH]; intros acc x; simpl; [intros H; right; exact H|].
  intros H; apply IH in H as [H|H]; [left; right; exact H|].
  destruct (existsb (String.eqb k) acc); [right; exact H|].
  apply in_app_or in H as [H|[<-|[]]]; [right; exact H | left; left; reflexivity].
Qed.

Lemma merge_step_lookup_eq key value d :
  lookup key (merge_step key value d) = Some (merge_entry value (lookup key d)).
Proof.
  unfold merge_step, merge_entry; destruct value; try apply lookup_set_eq.
  destruct (lookup key d) as [[]|]; apply lookup_set_eq.
Qed.

Lemma merge_step_lookup_neq k key value d :
  k <> key -> lookup k (merge_step key value d) = lookup k d.
Proof.
  intros Hne; unfold merge_step; destruct value; try (apply lookup_set_neq, Hne).
  destruct (lookup key d) as [[]|]; apply lookup_set_neq, Hne.
Qed.

Lemma merge_other_key s : forall d k, ~ In k (map fst s) -> lookup k (merge s d) = lookup k d.
Proof.
  induction s as [|[key value] r IH]; intros d k Hk; [reflexivity|].
  rewrite merge_cons, IH by (intros Hin; apply Hk; right; exact Hin).
  apply merge_step_lookup_neq; intros ->; apply Hk; left; reflexivity.
Qed.

Lemma merge_lookup s : NoDup (map fst s) -> forall d k,
  lookup k (merge s d) =
  match lookup k s with
  | None => lookup k d
  | Some v => Some (merge_entry v (lookup k d))
  end.
Proof.
  induction s as [|[key value] r IH]; intros Hn d k; [reflexivity|].
  inversion Hn as [|? ? Hkey Hr]; subst.
  rewrite merge_cons, IH by exact Hr; simpl.
  destruct (String.eqb_spec k key) as [->|Hne].
  - rewrite (Compaction.lookup_not_in key r Hkey); apply merge_step_lookup_eq.
  - rewrite merge_step_lookup_neq by exact Hne; reflexivity.
Qed.

Lemma merge_nodup s d : NoDup (map fst d) -> NoDup (map fst (merge s d)).
Proof. intros Hd; rewrite merge_keys; apply (add_keys_app _ _ Hd). Qed.

Lemma assoc_ext (l1 l2 : list (string * json)) :
  map fst l1 = map fst l2 -> NoDup (map fst l1) ->
  (forall k, lookup k l1 = lookup k l2) -> l1 = l2.
Proof.
  revert l2; induction l1 as [|[k1 v1] r1 IH]; intros [|[k2 v2] r2] Hk Hn Hl;
    try discriminate; [reflexivity|].
  simpl in Hk; inversion Hk as [[Ek Er]]; subst k2.
  inversion Hn as [|? ? Hk1 Hr]; subst.
  pose proof (Hl k1) as E1; simpl in E1; rewrite String.eqb_refl in E1; inversion E1; subst v2.
  f_equal; apply IH; [exact Er | exact Hr|].
  intros k; destruct (String.eqb_spec k k1) as [->|Hne].
  - rewrite (Compaction.lookup_not_in k1 r1 Hk1), Compaction.lookup_not_in; [reflexivity|].
    rewrite <- Er; exact Hk1.
  - pose proof (Hl k) as E; simpl in E; destruct (String.eqb_spec k k1); [contradiction | exact E].
Qed.

Lemma unique_child l k x :
  keys_unique (JObj l) = true -> lookup k l = Some x -> keys_unique x = true.
Proof.
  intros Hu Hl; apply keys_unique_obj in Hu as [_ Hc].
  exact (Hc k x (Compaction.lookup_in_pair k x l Hl)).
Qed.

(** [merge] on decoded JSON: copying into [{}], merging a dict into itself,
    and merging twice. *)
Lemma merge_wf_props : forall v, keys_unique v = true -> forall s, v = JObj s ->
  merge s [] = s /\ merge s s = s
  /\ (forall d, keys_unique (JObj d) = true -> merge s (merge s d) = merge s d).
Proof.
  apply (json_ind' (fun v => keys_unique v = true -> forall s, v = JObj s ->
    merge s [] = s /\ merge s s = s
    /\ (forall d, keys_unique (JObj d) = true -> merge s (merge s d) = merge s d)));
    try (intros; discriminate).
  intros l HF Hu s Es; inversion Es; subst s.
  pose proof Hu as Hu'; apply keys_unique_obj in Hu' as [Hn _].
  (* the induction hypothesis at a value of [l] *)
  assert (IHk : forall k sv, lookup k l = Some (JObj sv) ->
            merge sv [] = sv /\ merge sv sv = sv
            /\ (forall d, keys_unique (JObj d) = true -> merge sv (merge sv d) = merge sv d)).
  { intros k sv Hl.
    pose proof (proj1 (Forall_forall _ l) HF (k, JObj sv) (Compaction.lookup_in_pair _ _ _ Hl)) as H.
    exact (H (unique_child l k _ Hu Hl) sv eq_refl). }
  split; [|split].
  - apply assoc_ext; [rewrite merge_keys; apply add_keys_fresh; exact Hn | |].
    + rewrite merge_keys, add_keys_fresh by exact Hn; exact Hn.
    + intros k; rewrite merge_lookup by exact Hn.
      destruct (lookup k l) as [v|] eqn:El; [|reflexivity].
      destruct v; try reflexivity; simpl.
      rewrite (proj1 (IHk k l0 El)); reflexivity.
  - apply assoc_ext.
    + rewrite merge_keys; apply add_keys_incl; intros x Hx; exact Hx.
    + rewrite merge_keys, add_keys_incl by (intros x Hx; exact Hx); exact Hn.
    + intros k; rewrite merge_lookup by exact Hn.
      destruct (lookup k l) as [v|] eqn:El; [|reflexivity].
      destruct v; try reflexivity; simpl.
      rewrite (proj1 (proj2 (IHk k l0 El))); reflexivity.
  - intros d Hd; pose proof Hd as Hd'; apply keys_unique_obj in Hd' as [Hdn _].
    apply assoc_ext.
    + rewrite !merge_keys; apply add_keys_incl, add_keys_contains.
    + apply merge_nodup, merge_nodup, Hdn.
    + intros k; rewrite !merge_lookup by exact Hn.
      destruct (lookup k l) as [v|] eqn:El; [|reflexivity].
      f_equal; destruct v; try reflexivity; simpl.
      destruct (IHk k l0 El) as (_ & Hself & Hidem).
      destruct (lookup k d) as [w|] eqn:Ed.
      * destruct w; simpl; try (rewrite Hself; reflexivity).
        rewrite Hidem; [reflexivity|].
        exact (unique_child d k _ Hd Ed).
      * rewrite Hidem; reflexivity.
Qed.

Lemma parse_lines_cons (json_loads : string -> option json) st l r :
  parse_lines json_loads st (l :: r) =
  match json_loads l with
  | None => parse_lines json_loads st r
  | Some (JObj source) => parse_lines json_loads (merge source st) r
  | Some _ => None
  end.
Proof. reflexivity. Qed.

Lemma parse_lines_none (json_loads : string -> option json) lines : forall st,
  parse_lines json_loads st lines = None <->
  exists l v, In l lines /\ json_loads l = Some v /\ forall kvs, v <> JObj kvs.
Proof.
  induction lines as [|l r IH]; intros st.
  - simpl; split; [discriminate | intros (l & v & [] & _)].
  - rewrite parse_lines_cons; destruct (json_loads l) as [v|] eqn:El.
    + destruct v as [| | | | |kvs];
        try (split; [intros _; exists l; eexists; split; [left; reflexivity|];
                     split; [exact El | intros kvs; discriminate] | reflexivity]).
      rewrite IH; split.
      * intros (l' & v & Hin & Hl & Hv); exists l', v; split; [right; exact Hin | split; assumption].
      * intros (l' & v & [<-|Hin] & Hl & Hv); [rewrite El in Hl; inversion Hl; subst; exfalso; exact (Hv kvs eq_refl)|].
        exists l', v; split; [exact Hin | split; assumption].
    + rewrite IH; split.
      * intros (l' & v & Hin & Hl & Hv); exists l', v; split; [right; exact Hin | split; assumption].
      * intros (l' & v & [<-|Hin] & Hl & Hv); [rewrite El in Hl; discriminate|].
        exists l', v; split; [exact Hin | split; assumption].
Qed.

Lemma parse_lines_keys (json_loads : string -> option json) k lines : forall st st',
  parse_lines json_loads st lines = Some st' -> ~ In k (map fst st) ->
  (forall l src, In l lines -> json_loads l = Some (JObj src) -> ~ In k (map fst src)) ->
  ~ In k (map fst st').
Proof.
  induction lines as [|l r IH]; intros st st'.
  - simpl; intros H; inversion H; subst; intros Hk _; exact Hk.
  - rewrite parse_lines_cons; intros Hp Hk Hl; destruct (json_loads l) as [v|] eqn:El.
    + destruct v; try discriminate.
      apply (IH _ _ Hp); [|intros l' src Hin; apply Hl; right; exact Hin].
      rewrite merge_keys; intros Hin; apply add_keys_in in Hin as [Hin|Hin]; [|exact (Hk Hin)].
      exact (Hl l l0 (or_introl eq_refl) El Hin).
    + apply (IH _ _ Hp Hk); intros l' src Hin; apply Hl; right; exact Hin.
Qed.

End MergeFacts.

Module UtilsProps.
Import Py StreamMap Utils MergeFacts.

(** A double quote, and the start of a Singer message dumped with [type]
    as its first key, with separator [sep] after the colon. *)
Definition dq : string := String (ascii_of_nat 34) EmptyString.
Definition type_first (sep t : string) : string :=
  "{" ++ dq ++ "type" ++ dq ++ ":" ++ sep ++ dq ++ t ++ dq.

(** A target's state output for the examples below: one state message,
    anything else is not JSON. *)
Definition example_state_loads (l : string) : option json :=
  if (l =? "S")%string then Some (JObj [("bookmarks", JObj [("users", JInt 5)])]) else None.

Definition example_base : list (string * json) :=
  [("currently_syncing", JStr "users"); ("bookmarks", JObj [("orders", JInt 2)])].

(** ** utils.merge *)

(** utils.merge, per key: a key absent from the source keeps its
    destination value; a non-dict source value is assigned; a dict source
    value is merged into a dict destination node, replaces a non-dict one,
    and is copied into a fresh dict when the key is new. *)
Theorem merge_key_semantics (source destination : list (string * json)) (k : string) :
  NoDup (map fst source) ->
  lookup k (merge source destination) =
  match lookup k source with
  | None => lookup k destination
  | Some (JObj sv) =>
      Some (match lookup k destination with
            | Some (JObj dv) => JObj (merge sv dv)
            | Some _ => JObj sv
            | None => JObj (merge sv [])
            end)
  | Some v => Some v
  end.
Proof.
  intros Hn; rewrite merge_lookup by exact Hn.
  destruct (lookup k source) as [[]|]; reflexivity.
Qed.

Lemma merge_key_semantics_witness :
  NoDup (map fst [("bookmarks", JObj [("users", JInt 5)]); ("currently_syncing", JNull)])
  /\ lookup "bookmarks" (merge [("bookmarks", JObj [("users", JInt 5)]); ("currently_syncing", JNull)]
                               example_base)
     = Some (JObj (merge [("users", JInt 5)] [("orders", JInt 2)])).
Proof.
  split; [apply nodupb_spec; reflexivity|].
  apply (merge_key_semantics [("bookmarks", JObj [("users", JInt 5)]); ("currently_syncing", JNull)]
           example_base "bookmarks").
  apply nodupb_spec; reflexivity.
Defined.

(** utils.merge never removes or reorders the destination's keys: the
    result's keys are the destination's keys followed by new keys of the
    source, all distinct. *)
Theorem merge_keeps_destination_keys (source destination : list (string * json)) :
  NoDup (map fst destination) ->
  NoDup (map fst (merge source destination))
  /\ exists extra, map fst (merge source destination) = map fst destination ++ extra
                   /\ incl extra (map fst source).
Proof. intros Hd; rewrite merge_keys; apply add_keys_app, Hd. Qed.

Lemma merge_keeps_destination_keys_witness :
  NoDup (map fst example_base)
  /\ NoDup (map fst (merge [("state", JInt 1)] example_base))
  /\ exists extra, map fst (merge [("state", JInt 1)] example_base) = map fst example_base ++ extra
                   /\ incl extra (map fst [("state", JInt 1)]).
Proof.
  assert (H : NoDup (map fst example_base)) by (apply nodupb_spec; reflexivity).
  split; [exact H | apply (merge_keeps_destination_keys [("state", JInt 1)] example_base H)].
Defined.

(** Merging a decoded JSON object into an empty dict reproduces it. *)
Theorem merge_into_empty (source : list (string * json)) :
  keys_unique (JObj source) = true -> merge source [] = source.
Proof. intros Hu; exact (proj1 (merge_wf_props (JObj source) Hu source eq_refl)). Qed.

Lemma merge_into_empty_witness :
  keys_unique (JObj example_base) = true /\ merge example_base [] = example_base.
Proof. split; [reflexivity | apply merge_into_empty; reflexivity]. Defined.

(** Merging the same decoded object twice gives the same dict as merging
    it once. *)
Theorem merge_idempotent (source destination : list (string * json)) :
  keys_unique (JObj source) = true -> keys_unique (JObj destination) = true ->
  merge source (merge source destination) = merge source destination.
Proof.
  intros Hs Hd; exact (proj2 (proj2 (merge_wf_props (JObj source) Hs source eq_refl)) destination Hd).
Qed.

Lemma merge_idempotent_witness :
  keys_unique (JObj [("bookmarks", JObj [("users", JInt 5)])]) = true
  /\ keys_unique (JObj example_base) = true
  /\ merge [("bookmarks", JObj [("users", JInt 5)])]
       (merge [("bookmarks", JObj [("users", JInt 5)])] example_base)
     = merge [("bookmarks", JObj [("users", JInt 5)])] example_base.
Proof.
  split; [reflexivity | split; [reflexivity|]].
  apply merge_idempotent; reflexivity.
Defined.

(** ** state.py *)

(** parse_state_from_stdout fails (with the AttributeError of
    [source.items()]) exactly when some line of the output decodes to JSON
    that is not an object; undecodable lines are skipped. *)
Theorem parse_state_error_iff (json_loads : string -> option json) (lines : list string) :
  parse_state_from_stdout json_loads lines = None <->
  exists l v, In l lines /\ json_loads l = Some v /\ forall kvs, v <> JObj kvs.
Proof. apply parse_lines_none. Qed.

(** update_state keeps the value of every key of the state file that no
    state object on the target's output has as a top-level key. *)
Theorem update_state_keeps_unmentioned (json_loads : string -> option json)
  (base base' : list (string * json)) (lines : list string) (k : string) :
  update_state json_loads (JObj base) lines = Some (JObj base') ->
  (forall l src, In l lines -> json_loads l = Some (JObj src) -> ~ In k (map fst src)) ->
  lookup k base' = lookup k base.
Proof.
  unfold update_state, parse_state_from_stdout; intros Hu Hl.
  destruct (parse_lines json_loads [] lines) as [st|] eqn:E; [|discriminate].
  pose proof (parse_lines_keys json_loads k lines [] st E (fun H => H) Hl) as Hk.
  destruct st as [|kv st']; inversion Hu; subst; [reflexivity|].
  apply merge_other_key, Hk.
Qed.

Lemma update_state_keeps_unmentioned_witness :
  update_state example_state_loads (JObj example_base) ["S"; "not json"]
    = Some (JObj (merge [("bookmarks", JObj [("users", JInt 5)])] example_base))
  /\ (forall l src, In l ["S"; "not json"] -> example_state_loads l = Some (JObj src) ->
                    ~ In "currently_syncing" (map fst src))
  /\ lookup "currently_syncing" (merge [("bookmarks", JObj [("users", JInt 5)])] example_base)
     = lookup "currently_syncing" example_base.
Proof.
  assert (H1 : update_state example_state_loads (JObj example_base) ["S"; "not json"]
               = Some (JObj (merge [("bookmarks", JObj [("users", JInt 5)])] example_base)))
    by reflexivity.
  assert (H2 : forall l src, In l ["S"; "not json"] -> example_state_loads l = Some (JObj src) ->
                             ~ In "currently_syncing" (map fst src)).
  { intros l src [<-|[<-|[]]] E; inversion E; subst; simpl; intros [H|[]]; discriminate. }
  split; [exact H1 | split; [exact H2|]].
  exact (update_state_keeps_unmentioned example_state_loads example_base _ _ "currently_syncing" H1 H2).
Defined.

(** ** utils.message_type *)

(** message_type classifies a line whose first key is [type], dumped with
    the default separator [": "] or the compact [":"], by its message
    type, whatever follows the type name. *)
Theorem message_type_type_first (rest : list Byte.byte) :
  message_type (list_byte_of_string (type_first " " "RECORD") ++ rest) = Some 1%Z
  /\ message_type (list_byte_of_string (type_first " " "SCHEMA") ++ rest) = Some 2%Z
  /\ message_type (list_byte_of_string (type_first " " "STATE") ++ rest) = Some 3%Z
  /\ message_type (list_byte_of_string (type_first " " "ACTIVATE_VERSION") ++ rest) = Some 0%Z
  /\ message_type (list_byte_of_string (type_first "" "RECORD") ++ rest) = Some 1%Z
  /\ message_type (list_byte_of_string (type_first "" "SCHEMA") ++ rest) = Some 2%Z
  /\ message_type (list_byte_of_string (type_first "" "STATE") ++ rest) = Some 3%Z
  /\ message_type (list_byte_of_string (type_first "" "ACTIVATE_VERSION") ++ rest) = Some 0%Z.
Proof. repeat split; reflexivity. Qed.

(** message_type never raises on input of at least 11 bytes, and its
    result is one of -1, 0, 1, 2, 3 and 99. *)
Theorem message_type_total (raw : list Byte.byte) :
  (11 <= List.length raw)%nat ->
  exists code, message_type raw = Some code /\ In code [(-1)%Z; 0%Z; 1%Z; 2%Z; 3%Z; 99%Z].
Proof.
  intros Hl.
  do 11 (destruct raw as [|? raw]; [simpl in Hl; lia|]).
  unfold message_type; cbn [nth_error].
  repeat match goal with |- context [if ?c then _ else _] => destruct c end;
    eexists; (split; [reflexivity | simpl; tauto]).
Qed.

Lemma message_type_total_witness :
  (11 <= List.length (list_byte_of_string "not a json line"))%nat
  /\ exists code, message_type (list_byte_of_string "not a json line") = Some code
                  /\ In code [(-1)%Z; 0%Z; 1%Z; 2%Z; 3%Z; 99%Z].
Proof.
  assert (H : (11 <= List.length (list_byte_of_string "not a json line"))%nat) by (simpl; lia).
  split; [exact H | exact (message_type_total _ H)].
Defined.

(** ** find_hyphen_key *)

(** find_hyphen_key returns only keys of the dict that are the key itself
    or become it with hyphens replaced by underscores, and returns None
    exactly when no key of the dict is of either kind. *)
Theorem find_hyphen_key_spec {A} (key : string) (data : list (string * A)) :
  (forall k, find_hyphen_key key data = Some k ->
             In k (map fst data) /\ (k = key \/ replace_hyphen k = key))
  /\ (find_hyphen_key key data = None <->
      forall k, In k (map fst data) -> k <> key /\ replace_hyphen k <> key).
Proof.
  unfold find_hyphen_key, mem.
  destruct (lookup key data) as [v|] eqn:El.
  - split; [intros k H; inversion H; subst; split; [|left; reflexivity]|].
    + apply (in_map fst _ (k, v)), Compaction.lookup_in_pair, El.
    + split; [discriminate|].
      intros H; exfalso; apply (proj1 (H key (in_map fst _ (key, v) (Compaction.lookup_in_pair _ _ _ El)))).
      reflexivity.
  - assert (Hk : ~ In key (map fst data)).
    { intros Hin; clear - El Hin; induction data as [|[k0 v0] r IH]; [destruct Hin|]; simpl in El, Hin.
      destruct (String.eqb_spec key k0) as [->|Hne]; [discriminate|].
      destruct Hin as [E|Hin]; [symmetry in E; contradiction | exact (IH El Hin)]. }
    split.
    + intros k Hf; apply find_some in Hf as [Hin Hr].
      split; [exact Hin | right; apply String.eqb_eq, Hr].
    + split.
      * intros Hf k Hin; split; [intros ->; exact (Hk Hin)|].
        apply String.eqb_neq, (find_none _ _ Hf k Hin).
      * intros H; destruct (find _ _) as [k|] eqn:Hf; [|reflexivity].
        apply find_some in Hf as [Hin Hr].
        exfalso; apply (proj2 (H k Hin)), String.eqb_eq, Hr.
Qed.

End UtilsProps.

(** ** Schema ids *)
Module DigestProps.
Import MD5.
Open Scope Z_scope.

Definition hexdigits : list ascii := list_ascii_of_string "0123456789abcdef".

Lemma le_bytes_length n x : List.length (le_bytes n x) = n.
Proof. revert x; induction n as [|n IH]; intros x; simpl; [reflexivity | rewrite IH; reflexivity]. Qed.

Lemma le_bytes_range n x : Forall (fun b => 0 <= b < 256) (le_bytes n x).
Proof.
  revert x; induction n as [|n IH]; intros x; simpl; constructor; [|apply IH].
  change 255 with (Z.ones 8); rewrite Z.land_ones by lia.
  apply Z.mod_pos_bound; reflexivity.
Qed.

Lemma digest_bytes msg : List.length (digest msg) = 16%nat /\ Forall (fun b => 0 <= b < 256) (digest msg).
Proof.
  unfold digest.
  destruct (chunks _ _ _) as [[[a b] c] d].
  rewrite !length_app, !le_bytes_length; split; [reflexivity|].
  do 3 (apply Forall_app; split; [apply le_bytes_range|]); apply le_bytes_range.
Qed.

Lemma hex_length bs : String.length (hex bs) = (2 * List.length bs)%nat.
Proof. induction bs as [|b r IH]; simpl; [reflexivity | rewrite IH; lia]. Qed.

Lemma hex_char_digit n : 0 <= n < 16 -> In (hex_char n) hexdigits.
Proof.
  intros Hn.
  assert (E : exists m : nat, (m < 16)%nat /\ n = Z.of_nat m) by (exists (Z.to_nat n); split; lia).
  destruct E as [m [Hm ->]].
  do 16 (destruct m as [|m]; [vm_compute; tauto|]); lia.
Qed.

Lemma hex_digits bs : Forall (fun b => 0 <= b < 256) bs ->
  Forall (fun c => In c hexdigits) (list_ascii_of_string (hex bs)).
Proof.
  induction bs as [|b r IH]; intros Hb; cbn [hex list_ascii_of_string]; [constructor|].
  inversion Hb as [|? ? Hb0 Hr]; subst.
  apply Forall_cons; [apply hex_char_digit|apply Forall_cons; [apply hex_char_digit|apply IH, Hr]].
  - rewrite Z.shiftr_div_pow2 by lia; change (2 ^ 4) with 16; split;
      [apply Z.div_pos; lia | apply Z.div_lt_upper_bound; lia].
  - change 15 with (Z.ones 4); rewrite Z.land_ones by lia; apply Z.mod_pos_bound; reflexivity.
Qed.

Lemma substring_length n s : (n <= String.length s)%nat -> String.length (substring 0 n s) = n.
Proof.
  revert s; induction n as [|n IH]; intros [|c s] H; simpl in *; try lia.
  f_equal; apply IH; lia.
Qed.

(** The hexdigest is 32 lowercase hexadecimal digits, so a schema id
    ([hexdigest()[:15]]) always has 15 of them. *)
Theorem schema_id_shape (schema : string) :
  String.length (md5_hexdigest schema) = 32%nat
  /\ Forall (fun c => In c hexdigits) (list_ascii_of_string (md5_hexdigest schema))
  /\ String.length (Ingest.schema_id schema) = 15%nat.
Proof.
  destruct (digest_bytes (utf8 schema)) as [Hl Hr].
  assert (H32 : String.length (md5_hexdigest schema) = 32%nat)
    by (unfold md5_hexdigest; rewrite hex_length, Hl; reflexivity).
  split; [exact H32 | split; [apply hex_digits, Hr|]].
  unfold Ingest.schema_id; apply substring_length; rewrite H32; lia.
Qed.

End DigestProps.

(** ** The PII hasher on records *)
Module HashProps.
Import Py StreamMap MergeFacts.

Lemma append_nil_r (s : string) : (s ++ "")%string = s.
Proof. induction s as [|c s IH]; simpl; [reflexivity | rewrite IH; reflexivity]. Qed.

Lemma append_assoc_str (a b c : string) : ((a ++ b) ++ c)%string = (a ++ (b ++ c))%string.
Proof. induction a as [|x a IH]; simpl; [reflexivity | rewrite IH; reflexivity]. Qed.

Lemma record_apply_unselected select tr : forall v crumb,
  (forall suffix, crumb_selected select (crumb ++ suffix) = false) ->
  recursive_record_apply select tr v crumb = v.
Proof.
  intros v; pattern v; apply json_ind'; clear v.
  - intros crumb H; simpl; rewrite <- (append_nil_r crumb), H; reflexivity.
  - intros b crumb H; simpl; rewrite <- (append_nil_r crumb), H; reflexivity.
  - intros z crumb H; simpl; rewrite <- (append_nil_r crumb), H; reflexivity.
  - intros s crumb H; simpl; rewrite <- (append_nil_r crumb), H; reflexivity.
  - intros l HF crumb H; simpl; f_equal.
    induction l as [|x r IH]; [reflexivity|].
    inversion HF as [|? ? Hx Hr]; subst; f_equal; [apply Hx, H | apply IH, Hr].
  - intros l HF crumb H; simpl; f_equal.
    induction l as [|[k x] r IH]; [reflexivity|].
    inversion HF as [|? ? Hx Hr]; subst; simpl in Hx; f_equal; [|apply IH, Hr].
    f_equal; apply Hx; intros suffix.
    rewrite !append_assoc_str; apply H.
Qed.

(** HashStreamMap.transform_record returns the record unchanged when no
    hash rule matches any breadcrumb under the record's stream. *)
Theorem transform_record_unselected_stream (select : list string) (m : record_msg) :
  (forall suffix, crumb_selected select (m.(rstream) ++ "." ++ suffix) = false) ->
  transform_record select m = m.
Proof.
  intros H; destruct m as [stream rec]; unfold transform_record; simpl in *; f_equal.
  induction rec as [|[k v] r IH]; [reflexivity|]; simpl; f_equal; [|exact IH].
  f_equal; apply record_apply_unselected; intros suffix.
  rewrite append_assoc_str; simpl; apply H.
Qed.

Lemma transform_record_unselected_stream_witness :
  (forall suffix, crumb_selected ["users.email"] ("orders" ++ "." ++ suffix) = false)
  /\ transform_record ["users.email"]
       {| rstream := "orders"; record := [("email", JStr "a@b.c"); ("id", JInt 1)] |}
     = {| rstream := "orders"; record := [("email", JStr "a@b.c"); ("id", JInt 1)] |}.
Proof.
  assert (H : forall suffix, crumb_selected ["users.email"] ("orders" ++ "." ++ suffix) = false)
    by (intros suffix; reflexivity).
  split; [exact H | exact (transform_record_unselected_stream ["users.email"]
                            {| rstream := "orders"; record := [("email", JStr "a@b.c"); ("id", JInt 1)] |} H)].
Defined.

End HashProps.

(** ** Catalog selection strategies *)
Module SelectionProps.
Import Py Catalog.

Lemma settle_prune_selected md :
  Forall (fun e => selected e = Some true) (settle_entries PRUNE md).
Proof.
  apply Forall_forall; intros e Hin; unfold settle_entries in Hin.
  apply filter_In in Hin as [Hin Hk]; apply in_map_iff in Hin as [e0 [<- _]].
  destruct (selected e0) as [[]|] eqn:E; simpl in *; rewrite ?E in *; try reflexivity; discriminate.
Qed.

Lemma pass2_prune_kept s s' :
  pass2 PRUNE s = (true, s') ->
  stream_selected s' = true /\ Forall (fun e => selected e = Some true) (metadata s').
Proof.
  unfold pass2; destruct (select_any (metadata s)) as [[] md]; intros H; inversion H; subst.
  split; [reflexivity | apply settle_prune_selected].
Qed.

Lemma pass_ids strat ps s : tap_stream_id (snd (pass2 strat (pass1 ps s))) = tap_stream_id s.
Proof.
  unfold pass2; destruct (select_any (metadata (pass1 ps s))) as [[] md]; reflexivity.
Qed.

(** With the PRUNE strategy, apply_selected returns only streams it marks
    selected, each keeping only metadata entries marked selected, and only
    streams of the input catalog. *)
Theorem prune_keeps_only_selected (catalog : list cstream) (selections : list string) :
  Forall (fun s => stream_selected s = true /\ Forall (fun e => selected e = Some true) (metadata s))
         (apply_selected catalog selections PRUNE)
  /\ incl (map tap_stream_id (apply_selected catalog selections PRUNE)) (map tap_stream_id catalog).
Proof.
  unfold apply_selected; split.
  - apply Forall_forall; intros s Hin.
    apply in_map_iff in Hin as [[b s0] [E Hin]]; simpl in E; subst s0.
    apply filter_In in Hin as [Hin Hb]; simpl in Hb; subst b.
    apply in_map_iff in Hin as [c [Ec _]].
    exact (pass2_prune_kept _ _ Ec).
  - intros id Hin.
    apply in_map_iff in Hin as [s [<- Hin]].
    apply in_map_iff in Hin as [[b s0] [E Hin]]; simpl in E; subst s0.
    apply filter_In in Hin as [Hin _].
    apply in_map_iff in Hin as [c [Ec Hc]].
    pose proof (pass_ids PRUNE (patterns_of selections) c) as Hp.
    rewrite Ec in Hp; simpl in Hp; rewrite Hp; apply in_map, Hc.
Qed.

(** With the DESELECT strategy, apply_selected keeps every stream of the
    catalog, in order. *)
Theorem deselect_keeps_streams (catalog : list cstream) (selections : list string) :
  map tap_stream_id (apply_selected catalog selections DESELECT) = map tap_stream_id catalog.
Proof.
  unfold apply_selected; induction catalog as [|c r IH]; simpl; [reflexivity|].
  f_equal; [|exact IH].
  pose proof (pass_ids DESELECT (patterns_of selections) c) as Hp.
  destruct (pass2 DESELECT (pass1 (patterns_of selections) c)) as [[] s]; exact Hp.
Qed.

End SelectionProps.

(** ** apply_metadata *)
Module MetadataProps.
Import Py PyFacts StreamMap CatalogMetadata.

(** What [apply_metadata] must not change: stream ids, breadcrumbs and
    [selected] flags. *)
Definition selection_view (s : mstream) : string * list (list string * option json) :=
  (s.(mtap_stream_id), map (fun e => (e.(mbreadcrumb), lookup "selected" e.(mmeta))) s.(mmetadata)).

Definition no_selected (payload : list (string * json)) : Prop :=
  forall kv, In kv payload -> fst kv <> "selected".

Lemma pop_selected_ok payload : no_selected (pop_selected payload).
Proof.
  intros kv Hin; apply filter_In in Hin as [_ H].
  destruct (String.eqb_spec (fst kv) "selected"); [discriminate | assumption].
Qed.

Lemma update_selected payload : forall d,
  no_selected payload -> lookup "selected" (update d payload) = lookup "selected" d.
Proof.
  induction payload as [|[k v] r IH]; intros d Hp; [reflexivity|].
  unfold update; simpl; fold (update (set k v d) r).
  rewrite IH by (intros kv Hin; apply Hp; right; exact Hin).
  apply lookup_set_neq; intros E; apply (Hp (k, v) (or_introl eq_refl)); simpl; congruence.
Qed.

Definition entry_view (e : md_item) := (e.(mbreadcrumb), lookup "selected" e.(mmeta)).

Lemma update_nth_view i payload : forall md md',
  no_selected payload -> update_nth i payload md = Some md' -> map entry_view md' = map entry_view md.
Proof.
  induction i as [|i IH]; intros [|e r] md' Hp; simpl; try discriminate.
  - intros H; inversion H; subst; simpl; unfold entry_view at 1; simpl.
    rewrite update_selected by exact Hp; reflexivity.
  - destruct (update_nth i payload r) as [r'|] eqn:E; [|discriminate].
    intros H; inversion H; subst; simpl; rewrite (IH r r' Hp E); reflexivity.
Qed.

Lemma apply_to_streams_view criteria payload : forall streams streams',
  no_selected payload -> apply_to_streams criteria payload streams = Some streams' ->
  map selection_view streams' = map selection_view streams.
Proof.
  induction streams as [|s r IH]; intros streams' Hp; simpl.
  - intros H; inversion H; reflexivity.
  - destruct (apply_to_stream criteria payload s) as [s'|] eqn:Es; [|discriminate].
    destruct (apply_to_streams criteria payload r) as [r'|] eqn:Er; [|discriminate].
    intros H; inversion H; subst; simpl; rewrite (IH r' Hp eq_refl); f_equal.
    unfold apply_to_stream in Es.
    destruct (negb _); [inversion Es; reflexivity|].
    destruct (update_nth _ _ _) as [md|] eqn:Eu; [|discriminate].
    inversion Es; subst; unfold selection_view; simpl; f_equal.
    exact (update_nth_view _ _ _ _ Hp Eu).
Qed.

Lemma apply_metadata_view md : forall streams streams',
  apply_metadata streams md = Some streams' -> map selection_view streams' = map selection_view streams.
Proof.
  induction md as [|[criteria payload] r IH]; intros streams streams'; simpl.
  - intros H; inversion H; reflexivity.
  - destruct (apply_to_streams criteria (pop_selected payload) streams) as [st|] eqn:E; [|discriminate].
    intros H; rewrite (IH _ _ H); exact (apply_to_streams_view _ _ _ _ (pop_selected_ok payload) E).
Qed.

Lemma first_root_bound md i : first_root md = Some i -> (i < List.length md)%nat.
Proof.
  revert i; induction md as [|e r IH]; intros i; simpl; [discriminate|].
  destruct (is_root e); [intros H; inversion H; lia|].
  destruct (first_root r) as [j|] eqn:E; simpl; [|discriminate].
  intros H; inversion H; subst; specialize (IH j eq_refl); lia.
Qed.

Lemma update_nth_none i payload md : update_nth i payload md = None <-> (List.length md <= i)%nat.
Proof.
  revert md; induction i as [|i IH]; intros [|e r]; simpl; try (split; [intros; lia | reflexivity]).
  - split; [discriminate | lia].
  - destruct (update_nth i payload r) eqn:E; split; intros H.
    + discriminate.
    + assert (H' : (List.length r <= i)%nat) by lia; apply IH in H'; congruence.
    + apply IH in E; lia.
    + reflexivity.
Qed.

Lemma root_update_none payload md : update_nth (root_index md) payload md = None <-> md = [].
Proof.
  rewrite update_nth_none; unfold root_index.
  destruct (first_root md) as [i|] eqn:E.
  - apply first_root_bound in E; split; [lia | intros ->; simpl in E; lia].
  - destruct md; simpl; split; intros H; try reflexivity; try lia; discriminate.
Qed.

Lemma apply_to_streams_none criteria payload streams :
  apply_to_streams criteria payload streams = None <->
  exists s, In s streams /\ Glob.fnmatch s.(mtap_stream_id) criteria = true /\ s.(mmetadata) = [].
Proof.
  induction streams as [|s r IH]; simpl.
  - split; [discriminate | intros (s & [] & _)].
  - assert (Es : apply_to_stream criteria payload s = None <->
                 Glob.fnmatch s.(mtap_stream_id) criteria = true /\ s.(mmetadata) = []).
    { unfold apply_to_stream.
      destruct (Glob.fnmatch (mtap_stream_id s) criteria); simpl.
      - rewrite <- (root_update_none payload).
        destruct (update_nth _ _ _).
        + split; [discriminate | intros [_ H]; discriminate].
        + split; [intros _; split; reflexivity | reflexivity].
      - split; [discriminate | intros [H _]; discriminate]. }
    destruct (apply_to_stream criteria payload s) as [s'|] eqn:E.
    + destruct (apply_to_streams criteria payload r) as [r'|] eqn:Er.
      * split; [discriminate|].
        intros (x & [<-|Hin] & Hm & He).
        -- exfalso; assert (H : Some s' = None) by (apply Es; split; assumption); discriminate.
        -- assert (H : Some r' = None) by (apply IH; exists x; split; [exact Hin | split; assumption]).
           discriminate.
      * split; [intros _|reflexivity].
        destruct (proj1 IH eq_refl) as (x & Hin & Hm & He).
        exists x; split; [right; exact Hin | split; assumption].
    + split; [intros _|reflexivity].
      destruct (proj1 Es eq_refl) as [Hm He]; exists s; split; [left; reflexivity | split; assumption].
Qed.

Lemma view_in (l1 l2 : list mstream) s :
  map selection_view l1 = map selection_view l2 -> In s l2 ->
  exists s', In s' l1 /\ s'.(mtap_stream_id) = s.(mtap_stream_id)
             /\ (s'.(mmetadata) = [] <-> s.(mmetadata) = []).
Proof.
  intros E Hin.
  assert (Hv : In (selection_view s) (map selection_view l1)) by (rewrite E; apply in_map, Hin).
  apply in_map_iff in Hv as [s' [Ev Hs']].
  exists s'; split; [exact Hs'|]; unfold selection_view in Ev; inversion Ev as [[Ei Em]].
  split; [reflexivity|].
  split; intros H; [rewrite H in Em | rewrite H in Em]; simpl in Em;
    [symmetry in Em|]; apply map_eq_nil in Em; exact Em.
Qed.

(** apply_metadata never changes a stream's id, its metadata breadcrumbs, or
    any [selected] flag, even when a payload contains [selected]. *)
Theorem apply_metadata_keeps_selection (streams streams' : list mstream)
  (metadata : list (string * list (string * json))) :
  apply_metadata streams metadata = Some streams' ->
  map selection_view streams' = map selection_view streams.
Proof. apply apply_metadata_view. Qed.

Definition example_streams : list mstream :=
  [{| mtap_stream_id := "users";
      mmetadata := [{| mbreadcrumb := []; mmeta := [("selected", JBool false)] |};
                    {| mbreadcrumb := ["properties"; "id"]; mmeta := [("selected", JBool true)] |}];
      replication_method := JStr "FULL_TABLE"; replication_key := JNull |}].

Definition example_metadata : list (string * list (string * json)) :=
  [("user*", [("selected", JBool true); ("replication-method", JStr "INCREMENTAL")])].

Lemma apply_metadata_keeps_selection_witness :
  exists streams', apply_metadata example_streams example_metadata = Some streams'
    /\ map selection_view streams' = map selection_view example_streams.
Proof.
  eexists; split; [reflexivity|].
  apply (apply_metadata_keeps_selection example_streams _ example_metadata); reflexivity.
Defined.

(** apply_metadata raises IndexError exactly when some criteria matches a
    stream that has no metadata entries. *)
Theorem apply_metadata_index_error (streams : list mstream)
  (metadata : list (string * list (string * json))) :
  apply_metadata streams metadata = None <->
  exists criteria payload s, In (criteria, payload) metadata /\ In s streams
    /\ Glob.fnmatch s.(mtap_stream_id) criteria = true /\ s.(mmetadata) = [].
Proof.
  revert streams; induction metadata as [|[criteria payload] r IH]; intros streams; simpl.
  - split; [discriminate | intros (c & p & s & [] & _)].
  - destruct (apply_to_streams criteria (pop_selected payload) streams) as [st|] eqn:E.
    + pose proof (apply_to_streams_view _ _ _ _ (pop_selected_ok payload) E) as Hv.
      rewrite IH; split.
      * intros (c & p & s & Hin & Hs & Hm & He).
        destruct (view_in streams st s (eq_sym Hv) Hs) as (s0 & Hs0 & Ei & Ee).
        exists c, p, s0; split; [right; exact Hin | split; [exact Hs0 | split]];
          [rewrite Ei; exact Hm | apply Ee, He].
      * intros (c & p & s & [Ec|Hin] & Hs & Hm & He).
        -- inversion Ec; subst c p.
           assert (H : Some st = None)
             by (rewrite <- E; apply apply_to_streams_none; exists s; split; [exact Hs | split; assumption]).
           discriminate.
        -- destruct (view_in st streams s Hv Hs) as (s0 & Hs0 & Ei & Ee).
           exists c, p, s0; split; [exact Hin | split; [exact Hs0 | split]];
             [rewrite Ei; exact Hm | apply Ee, He].
    + split; [intros _|reflexivity].
      destruct (proj1 (apply_to_streams_none _ _ _) E) as (s & Hs & Hm & He).
      exists criteria, payload, s; split; [left; reflexivity | split; [exact Hs | split; assumption]].
Qed.

End MetadataProps.

(** ** Compaction keeps every record *)
Module CompactionProps.
Import Py PyFacts Reservoir Compaction.
Open Scope Z_scope.

(** The lines of all objects, in store order. *)
Definition all_lines (d : list (string * obj)) : list string :=
  flat_map (fun kv => olines (snd kv)) d.

Definition remove_all (ps : list string) (d : list (string * obj)) : list (string * obj) :=
  fold_left (fun d p => remove_key p d) ps d.

Lemma lines_lookup k o d :
  NoDup (keys d) -> lookup k d = Some o ->
  Permutation (all_lines d) (olines o ++ all_lines (remove_key k d)).
Proof.
  induction d as [|[k' v] r IH]; simpl; [discriminate|].
  intros Hn; inversion Hn as [|? ? Hk Hr]; subst.
  destruct (String.eqb_spec k k') as [->|Hne].
  - intros H; inversion H; subst; reflexivity.
  - intros H; simpl; rewrite (IH Hr H).
    rewrite !app_assoc; apply Permutation_app_tail, Permutation_app_comm.
Qed.

Lemma remove_set_same k (v : obj) d : remove_key k (set k v d) = remove_key k d.
Proof.
  induction d as [|[k' v'] r IH]; simpl; [rewrite String.eqb_refl; reflexivity|].
  destruct (String.eqb_spec k k') as [->|Hne]; simpl.
  - rewrite String.eqb_refl; reflexivity.
  - destruct (String.eqb_spec k k'); [contradiction|]; rewrite IH; reflexivity.
Qed.

Lemma remove_set_other k k' (v : obj) d :
  k <> k' -> remove_key k (set k' v d) = set k' v (remove_key k d).
Proof.
  intros Hne; induction d as [|[k0 v0] r IH]; simpl.
  - destruct (String.eqb_spec k k'); [contradiction | reflexivity].
  - destruct (String.eqb_spec k' k0) as [->|Hne0]; simpl.
    + destruct (String.eqb_spec k k0); [contradiction|]; simpl; rewrite String.eqb_refl; reflexivity.
    + destruct (String.eqb_spec k k0) as [->|Hk0]; [reflexivity|].
      simpl; destruct (String.eqb_spec k' k0); [contradiction|]; rewrite IH; reflexivity.
Qed.

Lemma lines_set k v d :
  NoDup (keys d) -> Permutation (all_lines (set k v d)) (olines v ++ all_lines (remove_key k d)).
Proof.
  intros Hn; rewrite <- (remove_set_same k v d).
  apply lines_lookup; [apply set_nodup, Hn | apply lookup_set_eq].
Qed.

Lemma remove_all_set ps k v d :
  ~ In k ps -> remove_all ps (set k v d) = set k v (remove_all ps d).
Proof.
  revert d; induction ps as [|p r IH]; intros d Hk; [reflexivity|].
  unfold remove_all; simpl; fold (remove_all r (remove_key p (set k v d))).
  rewrite remove_set_other by (intros ->; apply Hk; left; reflexivity).
  apply IH; intros Hin; apply Hk; right; exact Hin.
Qed.

Lemma remove_all_nodup ps d : NoDup (keys d) -> NoDup (keys (remove_all ps d)).
Proof. intros Hn; exact (proj2 (proj2 (fold_remove ps d Hn))). Qed.

Lemma cat_many_lookup s ps os :
  cat_many s ps = Some os -> Forall2 (fun p o => lookup p s.(objects) = Some o) ps os.
Proof.
  revert os; induction ps as [|p r IH]; intros os; simpl.
  - intros H; inversion H; constructor.
  - destruct (lookup p (objects s)) as [o|] eqn:E; [|discriminate].
    destruct (cat_many s r) as [os'|]; [|discriminate].
    intros H; inversion H; subst; constructor; [exact E | apply IH; reflexivity].
Qed.

Lemma lines_remove_all ps : forall os d,
  NoDup (keys d) -> NoDup ps -> Forall2 (fun p o => lookup p d = Some o) ps os ->
  Permutation (all_lines d) (flat_map olines os ++ all_lines (remove_all ps d)).
Proof.
  induction ps as [|p r IH]; intros os d Hd Hp HF; inversion HF as [|? o ? os' Ho Hr]; subst; [reflexivity|].
  inversion Hp as [|? ? Hpr Hrn]; subst.
  rewrite (lines_lookup p o d Hd Ho).
  unfold remove_all; simpl; fold (remove_all r (remove_key p d)).
  rewrite <- app_assoc; apply Permutation_app_head.
  apply IH; [apply remove_nodup, Hd | exact Hrn|].
  clear - Hr Hpr; induction Hr as [|x y xs ys Hxy Hr IHr]; constructor.
  - rewrite lookup_remove_neq; [exact Hxy | intros ->; apply Hpr; left; reflexivity].
  - apply IHr; intros Hin; apply Hpr; right; exact Hin.
Qed.

(** A merge of distinct paths keeps the lines of the store, up to order. *)
Lemma merge_lines s q s' :
  NoDup (keys s.(objects)) -> NoDup q -> q <> [] -> merge s q = Some s' ->
  Permutation (all_lines s'.(objects)) (all_lines s.(objects)) /\ NoDup (keys s'.(objects)).
Proof.
  intros Hd Hq Hne; unfold merge.
  destruct (cat_many s (sorted q)) as [os|] eqn:Ec; [|discriminate].
  intros H; inversion H; subst; simpl; clear H.
  assert (Hnd : NoDup (sorted q)) by (eapply Permutation_NoDup; [symmetry; apply sorted_perm | exact Hq]).
  assert (Hsne : sorted q <> []) by (intros E; apply Hne, Permutation_nil; rewrite <- E; first [apply sorted_perm | symmetry; apply sorted_perm]).
  pose proof (app_removelast_last "" Hsne) as Happ.
  set (T := sorted q) in *; set (lst := last T "") in *; set (rl := removelast T) in *.
  assert (Hlast : ~ In lst rl).
  { rewrite Happ in Hnd; apply NoDup_remove_2 in Hnd; rewrite app_nil_r in Hnd; exact Hnd. }
  set (merged := {| osize := fold_left (fun a o => a + osize o) os 0; olines := flat_map olines os |}).
  change (fold_left (fun d p => remove_key p d) rl (set lst merged (objects s)))
    with (remove_all rl (set lst merged (objects s))).
  rewrite remove_all_set by exact Hlast.
  split; [|apply set_nodup, remove_all_nodup, Hd].
  rewrite lines_set by (apply remove_all_nodup, Hd).
  assert (E : remove_key lst (remove_all rl (objects s)) = remove_all T (objects s)).
  { transitivity (remove_all (rl ++ [lst]) (objects s));
      [unfold remove_all; rewrite fold_left_app; reflexivity | rewrite <- Happ; reflexivity]. }
  rewrite E; symmetry.
  apply lines_remove_all; [exact Hd | exact Hnd | apply cat_many_lookup, Ec].
Qed.

Definition lines_ok (s s' : store) : Prop :=
  Permutation (all_lines s'.(objects)) (all_lines s.(objects)) /\ NoDup (keys s'.(objects)).

Lemma lines_ok_trans s1 s2 s3 : lines_ok s1 s2 -> lines_ok s2 s3 -> lines_ok s1 s3.
Proof. intros [P1 _] [P2 N2]; split; [rewrite P2; exact P1 | exact N2]. Qed.

Lemma lines_ok_refl s : NoDup (keys s.(objects)) -> lines_ok s s.
Proof. intros H; split; [reflexivity | exact H]. Qed.

Lemma drain_lines pending : forall s c q qb,
  NoDup (keys s.(objects)) -> NoDup (q ++ map fst pending) ->
  lines_ok s (phase_store (drain s c q qb pending)).
Proof.
  induction pending as [|[x sz] r IH]; intros s c q qb Hd Hq; simpl.
  - rewrite app_nil_r in Hq.
    destruct q as [|y q']; [apply lines_ok_refl, Hd|].
    destruct (merge s (y :: q')) as [s'|] eqn:E; simpl; [|apply lines_ok_refl, Hd].
    apply (merge_lines s (y :: q') s' Hd Hq); [discriminate | exact E].
  - assert (Hq' : NoDup ((q ++ [x]) ++ map fst r)) by (rewrite <- app_assoc; exact Hq).
    destruct (threshold <? qb + sz).
    + destruct (merge s (q ++ [x])) as [s'|] eqn:E; [|apply lines_ok_refl, Hd].
      assert (Hm : NoDup (q ++ [x])) by (apply NoDup_app_remove_r in Hq'; exact Hq').
      destruct (merge_lines s _ s' Hd Hm) as [P N];
        [intros E0; apply app_eq_nil in E0 as [_ E0]; discriminate | exact E |].
      apply (lines_ok_trans s s'); [split; assumption|].
      apply IH; [exact N | apply NoDup_app_remove_l in Hq'; exact Hq'].
    + apply IH; [exact Hd | exact Hq'].
Qed.

Lemma partition_lines s c pws :
  NoDup (keys s.(objects)) -> NoDup (map fst pws) ->
  lines_ok s (phase_store (compact_partition s c pws)).
Proof.
  intros Hd Hp; unfold compact_partition.
  destruct (List.length _ <? 2)%nat; [apply lines_ok_refl, Hd|].
  apply drain_lines; [exact Hd|]; simpl.
  rewrite map_rev; apply NoDup_rev.
  clear - Hp; induction pws as [|[x sz] r IH]; simpl; [constructor|].
  inversion Hp as [|? ? Hx Hr]; subst.
  destruct (sz <? threshold); simpl; [|apply IH, Hr].
  constructor; [|apply IH, Hr].
  intros Hin; apply Hx; apply in_map_iff in Hin as [[y sy] [Ey Hin]]; simpl in Ey; subst y.
  apply filter_In in Hin as [Hin _]; apply (in_map fst) in Hin; exact Hin.
Qed.

Lemma phase_lines_ok s ph : lines_ok s (phase_store ph) ->
  match ph with Finished s' _ => lines_ok s s' | Raised s' => lines_ok s s' end.
Proof. destruct ph; simpl; tauto. Qed.

Lemma partitions_lines parts : forall s c,
  NoDup (keys s.(objects)) -> (forall sch pws, In (sch, pws) parts -> NoDup (map fst pws)) ->
  lines_ok s (phase_store (compact_partitions s c parts)).
Proof.
  induction parts as [|[sch pws] r IH]; intros s c Hd Hp; simpl; [apply lines_ok_refl, Hd|].
  pose proof (partition_lines s c pws Hd (Hp sch pws (or_introl eq_refl))) as H.
  destruct (compact_partition s c pws) as [s' c'|s']; simpl in H; [|exact H].
  apply (lines_ok_trans s s'); [exact H|].
  apply IH; [exact (proj2 H) | intros sch' pws' Hin; apply (Hp sch'); right; exact Hin].
Qed.

(** The schema partitions built from distinct paths list distinct paths. *)
Lemma add_sized_nodup s paths : forall g parts,
  NoDup paths ->
  (forall sch l, In (sch, l) g -> NoDup (map fst l) /\ forall x, In x (map fst l) -> ~ In x paths) ->
  add_sized s g paths = Some parts ->
  forall sch l, In (sch, l) parts -> NoDup (map fst l).
Proof.
  induction paths as [|p r IH]; intros g parts Hn Hg; simpl.
  - intros H; inversion H; subst; intros sch l Hin; exact (proj1 (Hg sch l Hin)).
  - inversion Hn as [|? ? Hp Hr]; subst.
    destruct (parent p) as [schema|]; [|discriminate].
    destruct (lookup p (objects s)) as [o|]; [|discriminate].
    apply IH; [exact Hr|].
    assert (Hold : forall sch l, In (sch, l) g -> NoDup (map fst l) /\ forall x, In x (map fst l) -> ~ In x r)
      by (intros sch l Hin; destruct (Hg sch l Hin) as [H1 H2]; split; [exact H1|];
          intros x Hx Hxr; exact (H2 x Hx (or_intror Hxr))).
    assert (Hext : forall l, In (schema, l) g \/ l = [] ->
              NoDup (map fst (l ++ [(p, osize o)]))
              /\ forall x, In x (map fst (l ++ [(p, osize o)])) -> ~ In x r).
    { intros l Hl.
      assert (Hl' : NoDup (map fst l) /\ forall x, In x (map fst l) -> ~ In x (p :: r))
        by (destruct Hl as [Hl| ->]; [exact (Hg schema l Hl) | split; [constructor | intros x []]]).
      destruct Hl' as [Hl1 Hl2]; rewrite map_app; simpl; split.
      - apply NoDup_app; [exact Hl1 | constructor; [intros [] | constructor] |].
        intros x Hx [E|[]]; subst x; exact (Hl2 p Hx (or_introl eq_refl)).
      - intros x Hx; apply in_app_or in Hx as [Hx|[<-|[]]]; [|exact Hp].
        intros Hxr; exact (Hl2 x Hx (or_intror Hxr)). }
    intros sch l Hin.
    destruct (lookup schema g) as [l0|] eqn:El;
      apply in_set_pair in Hin as [E|Hin]; try (exact (Hold sch l Hin)); inversion E; subst.
    + apply Hext; left; apply lookup_in_pair, El.
    + apply (Hext []); right; reflexivity.
Qed.

Lemma streams_lines streams : forall s c,
  NoDup (keys s.(objects)) -> Forall (fun sp => NoDup (snd sp)) streams ->
  lines_ok s (phase_store (compact_streams s c streams)).
Proof.
  induction streams as [|[k paths] r IH]; intros s c Hd HF; simpl; [apply lines_ok_refl, Hd|].
  inversion HF as [|? ? Hp Hr]; subst; simpl in Hp.
  destruct (negb _); [apply IH; assumption|].
  destruct (add_sized s [] paths) as [parts|] eqn:E; [|apply lines_ok_refl, Hd].
  assert (Hparts : forall sch pws, In (sch, pws) parts -> NoDup (map fst pws))
    by (apply (add_sized_nodup s paths [] parts Hp); [intros sch l [] | exact E]).
  pose proof (partitions_lines parts s c Hd Hparts) as H.
  destruct (compact_partitions s c parts) as [s' c'|s']; simpl in H; [|exact H].
  apply (lines_ok_trans s s'); [exact H | apply IH; [exact (proj2 H) | exact Hr]].
Qed.

(** compact_reservoir keeps every line of every object: when the index
    lists each path at most once per stream and object keys are distinct,
    the lines of all objects afterwards are those before, up to order,
    whether the merge phase finishes or raises. *)
Theorem compaction_preserves_records (base_path : string) (s s' : store) :
  compact_reservoir base_path s = inr s' ->
  NoDup (map fst s.(objects)) ->
  (forall ix, s.(index) = Some ix -> Forall (fun sp => NoDup (snd sp)) ix.(istreams)) ->
  Permutation (all_lines s'.(objects)) (all_lines s.(objects)).
Proof.
  unfold compact_reservoir; intros Hc Hd Hix.
  destruct (lock s); [discriminate|].
  cbn [index with_lock] in Hc.
  destruct (index s) as [ix|] eqn:Ei; [|inversion Hc; subst; reflexivity].
  pose proof (streams_lines (istreams ix) (with_lock s (Some "compaction in progress")) false Hd (Hix ix eq_refl)) as [P _].
  destruct (compact_streams _ false (istreams ix)) as [s2 c|s2]; simpl in P;
    [destruct c|]; inversion Hc; subst; exact P.
Qed.


(** ** Compaction only touches paths the index lists *)
Section Outside.
Variable p : string.

Definition avoids (g : list (string * list (string * Z))) : Prop :=
  forall sch pws, In (sch, pws) g -> forall x sz, In (x, sz) pws -> x <> p.

Lemma drain_outside pending : forall s c q qb,
  ~ In p q -> (forall x sz, In (x, sz) pending -> x <> p) ->
  lookup p (phase_store (drain s c q qb pending)).(objects) = lookup p s.(objects).
Proof.
  induction pending as [|[x sz] r IH]; intros s c q qb Hq Hp; simpl.
  - destruct q as [|y q']; [reflexivity|].
    destruct (merge s (y :: q')) as [s'|] eqn:E; simpl; [|reflexivity].
    exact (merge_other s (y :: q') s' p ltac:(discriminate) Hq E).
  - assert (Hq' : ~ In p (q ++ [x])).
    { intros Hin; apply in_app_or in Hin as [Hin|[Hin|[]]]; [exact (Hq Hin)|].
      exact (Hp x sz (or_introl eq_refl) Hin). }
    assert (Hr : forall x' sz', In (x', sz') r -> x' <> p) by (intros; eapply Hp; right; eassumption).
    destruct (threshold <? qb + sz).
    + destruct (merge s (q ++ [x])) as [s'|] eqn:E; [|reflexivity].
      assert (Hqn : q ++ [x] <> []) by (intros E0; apply app_eq_nil in E0 as [_ E0]; discriminate).
      rewrite (IH s' true [] 0 (fun H => H) Hr).
      exact (merge_other s _ s' p Hqn Hq' E).
    + apply IH; assumption.
Qed.

Lemma partitions_outside parts : forall s c,
  avoids parts ->
  lookup p (phase_store (compact_partitions s c parts)).(objects) = lookup p s.(objects).
Proof.
  induction parts as [|[sch pws] r IH]; intros s c Ha; simpl; [reflexivity|].
  assert (H : lookup p (phase_store (compact_partition s c pws)).(objects) = lookup p s.(objects)).
  { unfold compact_partition; destruct (List.length _ <? 2)%nat; [reflexivity|].
    apply drain_outside; [intros [] |].
    intros x sz Hin; apply in_rev, filter_In in Hin as [Hin _].
    exact (Ha sch pws (or_introl eq_refl) x sz Hin). }
  destruct (compact_partition s c pws) as [s' c'|s']; simpl in H; [|exact H].
  rewrite <- H; apply IH; intros sch' pws' Hin; apply (Ha sch' pws'); right; exact Hin.
Qed.

Lemma add_sized_outside s paths : forall g parts,
  ~ In p paths -> avoids g -> add_sized s g paths = Some parts -> avoids parts.
Proof.
  induction paths as [|x r IH]; intros g parts Hn Hg; simpl.
  - intros H; inversion H; subst; exact Hg.
  - destruct (parent x) as [sch|]; [|discriminate].
    destruct (lookup x (objects s)) as [ox|]; [|discriminate].
    apply IH; [intros Hin; apply Hn; right; exact Hin|].
    assert (Hnew : forall l, (forall y sz, In (y, sz) l -> y <> p) ->
              forall y sz, In (y, sz) (l ++ [(x, osize ox)]) -> y <> p).
    { intros l Hl y sz Hin; apply in_app_or in Hin as [Hin|[Heq|[]]]; [exact (Hl y sz Hin)|].
      inversion Heq; subst; intros ->; apply Hn; left; reflexivity. }
    destruct (lookup sch g) as [l|] eqn:El; intros sch' pws' Hin;
      apply in_set_pair in Hin as [Heq|Hin]; try (exact (Hg sch' pws' Hin));
      inversion Heq; subst sch' pws'.
    + apply Hnew; exact (Hg sch l (lookup_in_pair _ _ _ El)).
    + apply (Hnew []); intros ? ? [].
Qed.

Lemma streams_outside streams : forall s c,
  (forall k paths, In (k, paths) streams -> ~ In p paths) ->
  lookup p (phase_store (compact_streams s c streams)).(objects) = lookup p s.(objects).
Proof.
  induction streams as [|[k paths] r IH]; intros s c Hs; simpl; [reflexivity|].
  assert (Hr : forall k' paths', In (k', paths') r -> ~ In p paths') by (intros k' paths' Hin; apply (Hs k'); right; exact Hin).
  destruct (negb _); [apply IH, Hr|].
  destruct (add_sized s [] paths) as [parts|] eqn:E; [|reflexivity].
  pose proof (partitions_outside parts s c
                (add_sized_outside s paths [] parts (Hs k paths (or_introl eq_refl))
                   (fun _ _ H => match H with end) E)) as H.
  destruct (compact_partitions s c parts) as [s' c'|s']; simpl in H; [|exact H].
  rewrite <- H; apply IH, Hr.
Qed.
End Outside.

(** compact_reservoir never writes, merges or deletes an object whose path
    no stream of the index lists: its entry after compaction is the one
    before (present or absent). *)
Theorem compaction_untouched_outside_index (base_path p : string) (s s' : store) :
  compact_reservoir base_path s = inr s' ->
  (forall ix, s.(index) = Some ix -> forall k paths, In (k, paths) ix.(istreams) -> ~ In p paths) ->
  lookup p s'.(objects) = lookup p s.(objects).
Proof.
  unfold compact_reservoir; intros Hc Hix.
  destruct (lock s); [discriminate|].
  cbn [index with_lock] in Hc.
  destruct (index s) as [ix|] eqn:Ei; [|inversion Hc; subst; reflexivity].
  pose proof (streams_outside p (istreams ix) (with_lock s (Some "compaction in progress")) false (Hix ix eq_refl)) as P.
  destruct (compact_streams _ false (istreams ix)) as [s2 c|s2]; simpl in P;
    [destruct c|]; inversion Hc; subst; exact P.
Qed.

Lemma compaction_preserves_records_witness :
  compact_reservoir ex_base ex_store = inr (match compact_reservoir ex_base ex_store with
                                            | inr s' => s' | inl _ => ex_store end)
  /\ NoDup (map fst ex_store.(objects))
  /\ (forall ix, ex_store.(index) = Some ix -> Forall (fun sp => NoDup (snd sp)) ix.(istreams))
  /\ Permutation (all_lines (match compact_reservoir ex_base ex_store with
                              | inr s' => s' | inl _ => ex_store end).(objects))
                 (all_lines ex_store.(objects)).
Proof.
  assert (H1 : compact_reservoir ex_base ex_store = inr (match compact_reservoir ex_base ex_store with
                                                         | inr s' => s' | inl _ => ex_store end))
    by (vm_compute; reflexivity).
  assert (H2 : NoDup (map fst ex_store.(objects))) by (apply MergeFacts.nodupb_spec; vm_compute; reflexivity).
  assert (H3 : forall ix, ex_store.(index) = Some ix -> Forall (fun sp => NoDup (snd sp)) ix.(istreams)).
  { intros ix E; inversion E; subst; constructor; [|constructor].
    apply MergeFacts.nodupb_spec; vm_compute; reflexivity. }
  split; [exact H1 | split; [exact H2 | split; [exact H3|]]].
  exact (compaction_preserves_records ex_base ex_store _ H1 H2 H3).
Defined.


(** The example store with one more object that no stream lists. *)
Definition ex_other : string := "reservoir/dev/tap-x/notes.txt".

Definition ex_store_other : store :=
  with_objects ex_store (ex_store.(objects) ++ [(ex_other, {| osize := 1; olines := ["n"] |})]).

Lemma compaction_untouched_outside_index_witness :
  compact_reservoir ex_base ex_store_other = inr (match compact_reservoir ex_base ex_store_other with
                                                  | inr s' => s' | inl _ => ex_store_other end)
  /\ lookup ex_other (match compact_reservoir ex_base ex_store_other with
                      | inr s' => s' | inl _ => ex_store_other end).(objects)
     = lookup ex_other ex_store_other.(objects).
Proof.
  assert (H1 : compact_reservoir ex_base ex_store_other
               = inr (match compact_reservoir ex_base ex_store_other with
                      | inr s' => s' | inl _ => ex_store_other end))
    by (vm_compute; reflexivity).
  split; [exact H1|].
  apply (compaction_untouched_outside_index ex_base ex_other ex_store_other _ H1).
  intros ix E; inversion E; subst; intros k paths [E'|[]]; inversion E'; subst; intros Hin.
  repeat (destruct Hin as [Hin|Hin]; [vm_compute in Hin; discriminate Hin|]); exact Hin.
Defined.

End CompactionProps.

(** ** Ingest extends the reservoir index *)
Module IngestIndexProps.
Import Py PyFacts Ingest.

Definition outcome_state (r : (ingest_error * ingest_state) + ingest_state) : ingest_state :=
  match r with inl (_, st) => st | inr st => st end.

Section Index.
Variable json_loads : string -> option message.
Variable utc_ts : nat -> string.
Variable base_path : string.
Variable buffer_size : nat.
Variable mappers : list mapper.
(** The index the run started from. *)
Variable ix0 : list (string * list string).

Definition base (k : string) : list string :=
  match lookup k ix0 with Some ps => ps | None => [] end.

(** Every stream list is its initial list followed by uploaded paths, and
    no initial stream is gone. *)
Definition index_ok (ix : list (string * list string)) (objs : list (string * list string)) : Prop :=
  forall k, match lookup k ix with
            | Some ps' => exists suf, ps' = base k ++ suf /\ forall p, In p suf -> lookup p objs <> None
            | None => lookup k ix0 = None
            end.

Definition st_ok (st : ingest_state) : Prop := index_ok st.(reservoir) st.(objects).

Lemma index_ok_init objs : index_ok ix0 objs.
Proof.
  intros k; unfold base; destruct (lookup k ix0) as [ps|]; [|reflexivity].
  exists []; rewrite app_nil_r; split; [reflexivity | intros p []].
Qed.

Lemma uploaded_set p path (v : list string) objs :
  lookup p objs <> None -> lookup p (set path v objs) <> None.
Proof.
  destruct (String.eqb_spec p path) as [->|Hne].
  - rewrite lookup_set_eq; discriminate.
  - rewrite lookup_set_neq by exact Hne; exact (fun H => H).
Qed.

Lemma index_ok_append ix objs stream path v :
  index_ok ix objs -> index_ok (index_append ix stream path) (set path v objs).
Proof.
  intros H k; unfold index_append.
  assert (Hnew : forall ps, lookup stream ix = Some ps \/ (lookup stream ix = None /\ ps = []) ->
            exists suf, ps ++ [path] = base stream ++ suf
                        /\ forall p, In p suf -> lookup p (set path v objs) <> None).
  { intros ps Hps; pose proof (H stream) as Hs.
    destruct Hps as [E|[E ->]]; rewrite E in Hs.
    - destruct Hs as [suf [-> Hsuf]]; exists (suf ++ [path]); split; [symmetry; apply app_assoc|].
      intros p Hp; apply in_app_or in Hp as [Hp|[<-|[]]];
        [apply uploaded_set, Hsuf, Hp | rewrite lookup_set_eq; discriminate].
    - unfold base; rewrite Hs; exists [path]; split; [reflexivity|].
      intros p [<-|[]]; rewrite lookup_set_eq; discriminate. }
  destruct (String.eqb_spec k stream) as [->|Hne].
  - destruct (lookup stream ix) as [ps|] eqn:E; rewrite lookup_set_eq;
      [apply Hnew; left; reflexivity | apply (Hnew []); right; split; reflexivity].
  - assert (Hk := H k).
    destruct (lookup stream ix); rewrite lookup_set_neq by exact Hne;
      (destruct (lookup k ix) as [ps'|]; [|exact Hk]);
      destruct Hk as [suf [-> Hsuf]]; exists suf; split; [reflexivity | | reflexivity |];
      intros p Hp; apply uploaded_set, Hsuf, Hp.
Qed.

Lemma step_ok st prev l st' m :
  st_ok st -> step json_loads utc_ts base_path buffer_size mappers st prev l = inr (st', m) -> st_ok st'.
Proof.
  intros Hok; unfold step.
  destruct (match json_loads l with Some m0 => Some m0 | None => prev end) as [[v|stream sch|stream r|t stream]|];
    try discriminate.
  - intros H; inversion H; subst; exact Hok.
  - destruct (schema_field _); [|discriminate]; intros H; inversion H; subst; exact Hok.
  - destruct (lookup stream (record_buffer st)) as [schemas|]; [|discriminate].
    destruct (lookup stream (active_schemas st)) as [sid|]; [|discriminate].
    destruct (lookup sid schemas) as [c|]; [|discriminate].
    destruct (buffer_size <=? _)%nat; intros H; inversion H; subst; unfold st_ok; simpl;
      [apply index_ok_append, Hok | exact Hok].
  - intros H; inversion H; subst; exact Hok.
Qed.

Lemma loop_ok lines : forall st prev,
  st_ok st -> st_ok (outcome_state (loop json_loads utc_ts base_path buffer_size mappers st prev lines)).
Proof.
  induction lines as [|l r IH]; intros st prev Hok; simpl; [exact Hok|].
  destruct (step json_loads utc_ts base_path buffer_size mappers st prev l) as [e|[st' m]] eqn:E;
    [exact Hok|].
  apply IH, (step_ok st prev l st' m Hok E).
Qed.

Lemma flush_schemas_ok stream schemas : forall st,
  st_ok st -> st_ok (outcome_state (flush_schemas utc_ts base_path st stream schemas)).
Proof.
  induction schemas as [|[sid c] r IH]; intros st Hok; simpl; [exact Hok|].
  destruct (count c =? 0)%nat; [apply IH, Hok|].
  destruct (lookup stream (active_schemas st)) as [asid|]; [|exact Hok].
  apply IH; unfold st_ok; simpl; apply index_ok_append, Hok.
Qed.

Lemma flush_streams_ok rb : forall st,
  st_ok st -> st_ok (outcome_state (flush_streams utc_ts base_path st rb)).
Proof.
  induction rb as [|[stream schemas] r IH]; intros st Hok; simpl; [exact Hok|].
  pose proof (flush_schemas_ok stream schemas st Hok) as H.
  destruct (flush_schemas utc_ts base_path st stream schemas) as [[e st']|st']; [exact H|].
  apply IH, H.
Qed.

Lemma ingestor_ok lines objs states sf :
  st_ok (outcome_state (reservoir_ingestor json_loads utc_ts base_path buffer_size mappers
                          lines ix0 objs states sf)).
Proof.
  unfold reservoir_ingestor.
  match goal with |- context [loop _ _ _ _ _ ?st0 None lines] =>
    pose proof (loop_ok lines st0 None (index_ok_init objs)) as H1 end.
  destruct (loop _ _ _ _ _ _ None lines) as [[e st]|st]; [exact H1|].
  pose proof (flush_streams_ok (record_buffer st) st H1) as H2.
  destruct (flush_streams _ _ st (record_buffer st)) as [[e st']|st']; exact H2.
Qed.
End Index.

Import Reservoir.

(** The index [tap_to_reservoir] starts from. *)
Definition loaded_index (s : store) : index_doc :=
  match s.(index) with Some d => d | None => {| iversion := None; istreams := [] |} end.

Lemma upload_keeps gzip_size p ups : forall objs,
  lookup p objs <> None \/ lookup p ups <> None ->
  lookup p (upload gzip_size objs ups) <> None.
Proof.
  induction ups as [|[q ls] r IH]; intros objs H; simpl.
  - destruct H as [H|H]; [exact H | contradiction H; reflexivity].
  - apply IH.
    destruct (String.eqb_spec p q) as [->|Hne].
    + left; rewrite lookup_set_eq; discriminate.
    + rewrite lookup_set_neq by exact Hne.
      destruct H as [H|H]; [left; exact H|]; simpl in H.
      destruct (String.eqb_spec p q); [contradiction | right; exact H].
Qed.

(** [tap_to_reservoir], once it holds the lock, writes an index with the
    loaded [__version__], and for every stream a path list that starts with
    the stream's loaded list (empty for a new stream) and continues with
    paths of uploaded objects; no loaded stream is dropped.  This holds
    whether the ingest succeeds or raises. *)
Theorem tap_to_reservoir_index_extends json_loads utc_ts buffer_size mappers gzip_size
  base_path pipeline_id lines states (s : store) res s' :
  s.(lock) = None ->
  tap_to_reservoir json_loads utc_ts buffer_size mappers gzip_size base_path pipeline_id
    lines states s = (res, s') ->
  exists ix', s'.(index) = Some ix'
    /\ ix'.(iversion) = (loaded_index s).(iversion)
    /\ forall k,
         match lookup k ix'.(istreams) with
         | Some ps' =>
             exists suf, ps' = match lookup k (loaded_index s).(istreams) with
                               | Some ps => ps | None => [] end ++ suf
                         /\ forall p, In p suf -> lookup p s'.(objects) <> None
         | None => lookup k (loaded_index s).(istreams) = None
         end.
Proof.
  intros Hl; unfold tap_to_reservoir; rewrite Hl; fold (loaded_index s).
  pose proof (ingestor_ok json_loads utc_ts base_path buffer_size mappers (istreams (loaded_index s))
                lines [] states None) as H.
  destruct (Ingest.reservoir_ingestor _ _ _ _ _ _ _ _ _ _) as [[e st]|st];
    intros E; inversion E; subst; clear E; simpl in H |- *;
    (eexists; split; [reflexivity | split; [reflexivity|]]);
    intros k; specialize (H k); unfold base in H; simpl;
    (destruct (lookup k (Ingest.reservoir st)); [|exact H]);
    destruct H as [suf [Hsuf Hup]]; exists suf; (split; [exact Hsuf|]);
    intros p Hp; apply upload_keeps; right; apply Hup, Hp.
Qed.

(** A store whose index already lists one batch of stream [s]. *)
Definition ex_indexed_store : store :=
  {| lock := None;
     index := Some {| iversion := Some 2; istreams := [("s", ["old.singer.gz"])] |};
     objects := [("old.singer.gz", {| osize := 1; olines := ["S1"; "R0"] |})] |}.

Lemma tap_to_reservoir_index_extends_witness :
  ex_indexed_store.(lock) = None
  /\ exists ix',
       (snd (tap_to_reservoir Roundtrip.example_loads Roundtrip.example_ts 1 [] (fun _ => 0%Z)
               "reservoir/dev/tap-x" "pipeline" ["S1"; "R1"] [] ex_indexed_store)).(index) = Some ix'
       /\ ix'.(iversion) = Some 2%Z
       /\ lookup "s" ix'.(istreams)
          = Some ["old.singer.gz";
                  "reservoir/dev/tap-x/s/ca9418770c07899/20240101000000000001.singer.gz"].
Proof.
  split; [reflexivity|].
  destruct (tap_to_reservoir_index_extends Roundtrip.example_loads Roundtrip.example_ts 1 []
              (fun _ => 0%Z) "reservoir/dev/tap-x" "pipeline" ["S1"; "R1"] [] ex_indexed_store
              _ _ eq_refl (surjective_pairing _)) as [ix' [Hix [Hv _]]].
  exists ix'; rewrite Hix; split; [reflexivity | split; [exact Hv|]].
  vm_compute in Hix; inversion Hix; reflexivity.
Defined.

End IngestIndexProps.

(** ** What the emitter sends *)
Module EmitterProps.
Import Py PyFacts Emitter.

(** The bookmark a stream starts from in [emit_streams]. *)
Definition bookmark_of (bm : list (string * string)) (stream : string) : string :=
  match lookup stream bm with Some e => e | None => "" end.

(** The non-empty lines of the objects in [paths] whose filename is greater
    than [em], in path order; a missing object contributes nothing. *)
Definition newer_lines (s : store) (em : string) (paths : list string) : list string :=
  flat_map (fun p => match s p with
                     | Some ls => filter (fun l => negb (l =? "")%string) ls
                     | None => [] end)
           (filter (fun p => str_gt (fname p) em) paths).

Definition object_lines (s : store) (p : string) : list string :=
  match s p with Some ls => filter (fun l => negb (l =? "")%string) ls | None => [] end.

Lemma emit_paths_lines s ps out :
  emit_paths s ps = Some out -> out = flat_map (object_lines s) ps.
Proof.
  revert out; induction ps as [|p r IH]; intros out; simpl.
  - intros H; inversion H; reflexivity.
  - unfold object_lines at 1; destruct (s p) as [ls|]; [|discriminate].
    destruct (emit_paths s r) as [rest|]; [|discriminate].
    intros H; inversion H; subst; f_equal; apply IH; reflexivity.
Qed.

Definition grouped (g : list (string * list string)) : list string := List.concat (map snd g).

Lemma add_to_group_perm k p g :
  Permutation (grouped (add_to_group k p g)) (grouped g ++ [p]).
Proof.
  unfold grouped; induction g as [|[k' ps] r IH]; simpl; [reflexivity|].
  destruct (String.eqb k k'); simpl.
  - rewrite <- !app_assoc; apply Permutation_app_head, Permutation_app_comm.
  - rewrite <- app_assoc; apply Permutation_app_head, IH.
Qed.

Lemma partition_perm work : forall g parts,
  partition_by_schema g work = Some parts -> Permutation (grouped parts) (grouped g ++ work).
Proof.
  induction work as [|p r IH]; intros g parts; simpl.
  - intros H; inversion H; rewrite app_nil_r; reflexivity.
  - destruct (parent p) as [schema|]; [|discriminate].
    intros H; rewrite (IH _ _ H), add_to_group_perm, <- app_assoc; reflexivity.
Qed.

Lemma emit_partitions_lines s parts : forall em out em',
  emit_partitions s em parts = Some (out, em') -> out = flat_map (object_lines s) (grouped parts).
Proof.
  unfold grouped; induction parts as [|[k ps] r IH]; intros em out em'; simpl.
  - intros H; inversion H; reflexivity.
  - destruct (emit_paths s ps) as [o|] eqn:E; [|discriminate].
    destruct (emit_partitions s _ r) as [[o' e']|] eqn:E'; [|discriminate].
    intros H; inversion H; subst.
    rewrite flat_map_app, (emit_paths_lines s ps o E), (IH _ _ _ E'); reflexivity.
Qed.

Lemma flat_map_ext_in {A B} (f g : A -> list B) l :
  (forall x, In x l -> f x = g x) -> flat_map f l = flat_map g l.
Proof.
  induction l as [|x r IH]; intros H; simpl; [reflexivity|].
  rewrite (H x (or_introl eq_refl)), IH; [reflexivity|].
  intros y Hy; apply H; right; exact Hy.
Qed.

Definition stream_lines (s : store) (bm : list (string * string)) (kp : string * list string) :=
  newer_lines s (bookmark_of bm (fst kp)) (snd kp).

Lemma emit_streams_lines s streams : forall bm out bm',
  NoDup (map fst streams) -> emit_streams s bm streams = Some (out, bm') ->
  Permutation out (flat_map (stream_lines s bm) streams).
Proof.
  induction streams as [|[stream paths] r IH]; intros bm out bm' Hn; simpl.
  - intros H; inversion H; reflexivity.
  - inversion Hn as [|? ? Hs Hr]; subst.
    set (bm1 := if mem stream bm then bm else set stream "" bm).
    assert (Hem : match lookup stream bm1 with Some e => e | None => "" end = bookmark_of bm stream).
    { unfold bm1, bookmark_of, mem; destruct (lookup stream bm) eqn:E; [rewrite E; reflexivity|].
      rewrite lookup_set_eq; reflexivity. }
    assert (Hrest : forall bm2, (forall k, k <> stream -> lookup k bm2 = lookup k bm) ->
              flat_map (stream_lines s bm2) r = flat_map (stream_lines s bm) r).
    { intros bm2 Hb; apply flat_map_ext_in; intros [k ps] Hin; unfold stream_lines, bookmark_of; simpl.
      rewrite Hb; [reflexivity|]; intros ->; apply Hs, (in_map fst _ _ Hin). }
    assert (Hbm1 : forall k, k <> stream -> lookup k bm1 = lookup k bm).
    { intros k Hk; unfold bm1; destruct (mem stream bm); [reflexivity | apply lookup_set_neq, Hk]. }
    rewrite Hem.
    unfold stream_lines at 1; simpl; unfold newer_lines at 1.
    destruct (filter (fun p => str_gt (fname p) (bookmark_of bm stream)) paths) as [|w ws] eqn:Ew.
    + simpl; intros H; rewrite (IH bm1 out bm' Hr H); apply Permutation_refl', Hrest, Hbm1.
    + rewrite <- Ew.
      destruct (partition_by_schema [] _) as [parts|] eqn:Ep; [|discriminate].
      destruct (emit_partitions s _ parts) as [[o em']|] eqn:Eo; [|discriminate].
      destruct (emit_streams s (set stream em' bm1) r) as [[o' bm'']|] eqn:Er; [|discriminate].
      intros H; inversion H; subst; clear H.
      rewrite (emit_partitions_lines s parts _ _ _ Eo).
      apply Permutation_app.
      * apply Permutation_flat_map, (partition_perm _ [] parts Ep).
      * rewrite (IH _ _ _ Hr Er); apply Permutation_refl', Hrest.
        intros k Hk; rewrite lookup_set_neq by exact Hk; apply Hbm1, Hk.
Qed.

(** [reservoir_to_target] writes to the target exactly the non-empty lines
    of the indexed objects whose filename is greater than their stream's
    bookmark after version reconciliation (a stream without a bookmark
    starts from the empty name), each object once, grouped in an order of
    its own; and the state it returns carries the index [__version__]. *)
Theorem reservoir_to_target_emits_newer_lines (s : store) (st : emit_state) (ix : index) out st' :
  NoDup (map fst ix.(istreams)) ->
  reservoir_to_target s st ix = Some (out, st') ->
  Permutation out
    (flat_map (fun kp => newer_lines s (bookmark_of (reconcile st ix).(bookmarks) (fst kp)) (snd kp))
              ix.(istreams))
  /\ st'.(version) = ix.(iversion).
Proof.
  intros Hn; unfold reservoir_to_target.
  destruct (emit_streams s (bookmarks (reconcile st ix)) (istreams ix)) as [[o bm]|] eqn:E; [|discriminate].
  intros H; inversion H; subst; clear H; simpl; split.
  - exact (emit_streams_lines s _ _ _ _ Hn E).
  - unfold reconcile; destruct (Z.eqb_spec (version st) (iversion ix)); [assumption | reflexivity].
Qed.

Definition ex_objects : store :=
  fun p => if (p =? "reservoir/dev/tap-x/s/S/b.gz")%string then Some ["S"; "rb"; ""]
           else if (p =? "reservoir/dev/tap-x/s/S/c.gz")%string then Some ["S"; "rc"]
           else None.

Definition ex_state : emit_state := {| version := 4; bookmarks := [("s", "a.gz")] |}.

Lemma reservoir_to_target_emits_newer_lines_witness :
  NoDup (map fst EmitterFacts.scenario_index.(istreams))
  /\ reservoir_to_target ex_objects ex_state EmitterFacts.scenario_index
     = Some (["S"; "rb"; "S"; "rc"], {| version := 4; bookmarks := [("s", "c.gz")] |})
  /\ Permutation ["S"; "rb"; "S"; "rc"]
       (flat_map (fun kp => newer_lines ex_objects
                              (bookmark_of (reconcile ex_state EmitterFacts.scenario_index).(bookmarks) (fst kp))
                              (snd kp))
                 EmitterFacts.scenario_index.(istreams)).
Proof.
  assert (H1 : NoDup (map fst EmitterFacts.scenario_index.(istreams))) by (simpl; repeat constructor; intros []).
  assert (H2 : reservoir_to_target ex_objects ex_state EmitterFacts.scenario_index
               = Some (["S"; "rb"; "S"; "rc"], {| version := 4; bookmarks := [("s", "c.gz")] |}))
    by (vm_compute; reflexivity).
  split; [exact H1 | split; [exact H2|]].
  exact (proj1 (reservoir_to_target_emits_newer_lines _ _ _ _ _ H1 H2)).
Defined.

End EmitterProps.

(** ** Emitter bookmarks never move back *)
Module BookmarkProps.
Import Py PyFacts Emitter.

Lemma ascii_compare_spec (x y : ascii) :
  Ascii.compare x y = N.compare (N_of_ascii x) (N_of_ascii y).
Proof. reflexivity. Qed.

Lemma ascii_compare_eq (x y : ascii) : Ascii.compare x y = Eq -> x = y.
Proof.
  rewrite ascii_compare_spec; intros H; apply N.compare_eq in H.
  rewrite <- (ascii_N_embedding x), <- (ascii_N_embedding y), H; reflexivity.
Qed.

Lemma string_leb_refl (a : string) : (a <=? a)%string = true.
Proof.
  unfold String.leb; induction a as [|x a IH]; simpl; [reflexivity|].
  rewrite ascii_compare_spec, N.compare_refl; exact IH.
Qed.

Lemma string_leb_trans (a b c : string) :
  (a <=? b)%string = true -> (b <=? c)%string = true -> (a <=? c)%string = true.
Proof.
  unfold String.leb; revert b c; induction a as [|x a IH]; intros b c.
  - destruct c; reflexivity.
  - destruct b as [|y b]; [discriminate|]; destruct c as [|z c]; [destruct b; discriminate|].
    simpl; rewrite !ascii_compare_spec.
    destruct (N.compare_spec (N_of_ascii x) (N_of_ascii y)) as [Exy|Lxy|Gxy]; [| |discriminate];
      destruct (N.compare_spec (N_of_ascii y) (N_of_ascii z)) as [Eyz|Lyz|Gyz]; try discriminate.
    + rewrite Exy, Eyz, N.compare_refl; apply IH.
    + intros _ _; rewrite Exy; apply N.compare_lt_iff in Lyz; rewrite Lyz; reflexivity.
    + intros _ _; rewrite <- Eyz; apply N.compare_lt_iff in Lxy; rewrite Lxy; reflexivity.
    + intros _ _; assert (L : (N_of_ascii x < N_of_ascii z)%N) by lia.
      apply N.compare_lt_iff in L; rewrite L; reflexivity.
Qed.

Lemma string_ltb_leb (a b : string) : (a <? b)%string = true -> (a <=? b)%string = true.
Proof. unfold String.ltb, String.leb; destruct (String.compare a b); congruence. Qed.

Lemma str_max_ge (a b : string) : (a <=? str_max a b)%string = true.
Proof.
  unfold str_max, str_gt; destruct (a <? b)%string eqn:E;
    [apply string_ltb_leb, E | apply string_leb_refl].
Qed.

Lemma max_list_ge d xs : (d <=? max_list d xs)%string = true.
Proof.
  revert d; induction xs as [|x r IH]; intros d; simpl; [apply string_leb_refl|].
  eapply string_leb_trans; [apply str_max_ge | apply IH].
Qed.

Lemma rebuild_bookmark_ge e paths : (e <=? rebuild_bookmark e paths)%string = true.
Proof.
  unfold rebuild_bookmark; generalize (sorted paths); intros ps; revert e.
  induction ps as [|p r IH]; intros e; simpl; [apply string_leb_refl|].
  eapply string_leb_trans; [|apply IH].
  change (if str_gt (fname p) e then fname p else e) with (str_max e (fname p)); apply str_max_ge.
Qed.

(** Every bookmark of [bm] is in [bm'], at the same or a greater name. *)
Definition bm_ge (bm bm' : list (string * string)) : Prop :=
  forall k e, lookup k bm = Some e -> exists e', lookup k bm' = Some e' /\ (e <=? e')%string = true.

Lemma bm_ge_refl bm : bm_ge bm bm.
Proof. intros k e H; exists e; split; [exact H | apply string_leb_refl]. Qed.

Lemma bm_ge_trans a b c : bm_ge a b -> bm_ge b c -> bm_ge a c.
Proof.
  intros H1 H2 k e H; destruct (H1 k e H) as [e1 [E1 L1]]; destruct (H2 k e1 E1) as [e2 [E2 L2]].
  exists e2; split; [exact E2 | eapply string_leb_trans; eassumption].
Qed.

Lemma bm_ge_set bm k v :
  (forall e, lookup k bm = Some e -> (e <=? v)%string = true) -> bm_ge bm (set k v bm).
Proof.
  intros Hv k' e H; destruct (String.eqb_spec k' k) as [->|Hne].
  - exists v; rewrite lookup_set_eq; split; [reflexivity | apply Hv, H].
  - exists e; rewrite lookup_set_neq by exact Hne; split; [exact H | apply string_leb_refl].
Qed.

Lemma reconcile_ge st ix : bm_ge st.(bookmarks) (reconcile st ix).(bookmarks).
Proof.
  unfold reconcile; destruct (Z.eqb _ _); [apply bm_ge_refl|]; simpl.
  generalize (bookmarks st); intros bm; generalize (istreams ix); intros streams.
  revert bm; induction streams as [|[stream paths] r IH]; intros bm; simpl; [apply bm_ge_refl|].
  eapply bm_ge_trans; [|apply IH].
  destruct (lookup stream bm) as [e|] eqn:E; [|apply bm_ge_refl].
  apply bm_ge_set; intros e0 E0; rewrite E in E0; inversion E0; subst; apply rebuild_bookmark_ge.
Qed.

Lemma emit_partitions_ge s parts : forall em out em',
  emit_partitions s em parts = Some (out, em') -> (em <=? em')%string = true.
Proof.
  induction parts as [|[k ps] r IH]; intros em out em'; simpl.
  - intros H; inversion H; apply string_leb_refl.
  - destruct (emit_paths s ps); [|discriminate].
    destruct (emit_partitions s _ r) as [[o' e']|] eqn:E; [|discriminate].
    intros H; inversion H; subst.
    eapply string_leb_trans; [apply str_max_ge | exact (IH _ _ _ E)].
Qed.

Lemma emit_streams_ge s streams : forall bm out bm',
  emit_streams s bm streams = Some (out, bm') ->
  bm_ge bm bm' /\ forall k, In k (map fst streams) -> lookup k bm' <> None.
Proof.
  induction streams as [|[stream paths] r IH]; intros bm out bm'; simpl.
  - intros H; inversion H; subst; split; [apply bm_ge_refl | intros k []].
  - set (bm1 := if mem stream bm then bm else set stream "" bm).
    assert (G1 : bm_ge bm bm1).
    { unfold bm1, mem; destruct (lookup stream bm) eqn:E; [apply bm_ge_refl|].
      apply bm_ge_set; intros e0 E0; rewrite E in E0; discriminate. }
    assert (P1 : lookup stream bm1 <> None).
    { unfold bm1, mem; destruct (lookup stream bm) eqn:E; [rewrite E; discriminate|].
      rewrite lookup_set_eq; discriminate. }
    assert (Fin : forall bm2, bm_ge bm1 bm2 -> lookup stream bm2 <> None ->
              forall bm3 out3, emit_streams s bm2 r = Some (out3, bm3) ->
              bm_ge bm bm3 /\ forall k, stream = k \/ In k (map fst r) -> lookup k bm3 <> None).
    { intros bm2 G2 P2 bm3 out3 E3; destruct (IH _ _ _ E3) as [G3 P3].
      split; [eapply bm_ge_trans; [exact G1 | eapply bm_ge_trans; eassumption]|].
      intros k [<-|Hk]; [|exact (P3 k Hk)].
      destruct (lookup stream bm2) as [e2|] eqn:E2; [|contradiction P2; reflexivity].
      destruct (G3 stream e2 E2) as [e3 [-> _]]; discriminate. }
    destruct (filter _ paths) as [|w ws].
    + intros H; exact (Fin bm1 (bm_ge_refl bm1) P1 _ _ H).
    + destruct (partition_by_schema [] _) as [parts|]; [|discriminate].
      destruct (emit_partitions s _ parts) as [[o em']|] eqn:Eo; [|discriminate].
      destruct (emit_streams s (set stream em' bm1) r) as [[o' bm'']|] eqn:Er; [|discriminate].
      intros H; inversion H; subst; clear H.
      refine (Fin (set stream em' bm1) _ _ _ _ Er); [| rewrite lookup_set_eq; discriminate].
      apply bm_ge_set; intros e0 E0; rewrite E0 in Eo; exact (emit_partitions_ge s parts _ _ _ Eo).
Qed.

(** [reservoir_to_target] never moves a stream's [emitted] bookmark back,
    through version reconciliation and emission alike: every bookmark of
    the state it starts from is kept at the same or a greater name, and
    every stream of the index ends with a bookmark. *)
Theorem reservoir_to_target_bookmarks_monotone (s : store) (st : emit_state) (ix : index) out st' :
  reservoir_to_target s st ix = Some (out, st') ->
  (forall k e, lookup k st.(bookmarks) = Some e ->
     exists e', lookup k st'.(bookmarks) = Some e' /\ (e <=? e')%string = true)
  /\ (forall k, In k (map fst ix.(istreams)) -> lookup k st'.(bookmarks) <> None).
Proof.
  unfold reservoir_to_target.
  destruct (emit_streams s (bookmarks (reconcile st ix)) (istreams ix)) as [[o bm]|] eqn:E; [|discriminate].
  intros H; inversion H; subst; clear H; simpl.
  destruct (emit_streams_ge s _ _ _ _ E) as [G P]; split; [|exact P].
  exact (bm_ge_trans _ _ _ (reconcile_ge st ix) G).
Qed.

Definition ex_state2 : emit_state :=
  {| version := 4; bookmarks := [("s", "b.gz"); ("t", "x.gz")] |}.

Lemma reservoir_to_target_bookmarks_monotone_witness :
  reservoir_to_target EmitterProps.ex_objects ex_state2 EmitterFacts.scenario_index
    = Some (["S"; "rc"], {| version := 4; bookmarks := [("s", "c.gz"); ("t", "x.gz")] |})
  /\ exists e', lookup "s" [("s", "c.gz"); ("t", "x.gz")] = Some e' /\ ("b.gz" <=? e')%string = true.
Proof.
  assert (H : reservoir_to_target EmitterProps.ex_objects ex_state2 EmitterFacts.scenario_index
              = Some (["S"; "rc"], {| version := 4; bookmarks := [("s", "c.gz"); ("t", "x.gz")] |}))
    by (vm_compute; reflexivity).
  split; [exact H|].
  exact (proj1 (reservoir_to_target_bookmarks_monotone _ _ _ _ _ H) "s" "b.gz" eq_refl).
Defined.

End BookmarkProps.
